(** * The embedding example of llama.cpp: batch assembly and embedding extraction

    A shallow embedding of [examples/embedding/embedding.cpp].

    - C [int], [int32_t], [size_t] and [uint64_t] values are integers of [Z];
      the two unsigned 64-bit computations of [main] carry their reduction
      modulo [2^64] explicitly; signed arithmetic, whose overflow has no
      defined behaviour, is taken within its range.
    - [float] is IEEE 754 binary32, given by the parametric specification of
      [SpecFloat] at precision 24 and maximal exponent 128.
    - A [float *] is a buffer (a list of floats) together with an offset; a
      read or a write outside the buffer has no defined behaviour and makes
      the enclosing function return [None].  A division of floats is the
      IEEE 754 one, also by zero.
    - The batch has the slots it was allocated with; filling more of them has
      no defined behaviour either.
    - The inference engine is an interface ([llama_api]); its context is
      threaded explicitly through the calls. *)

From Stdlib Require Import ZArith Lia Ascii String Floats.SpecFloat.
From stdpp Require Import base option list strings.

Open Scope Z_scope.

(** ** binary32 arithmetic *)

Module F32.
Definition prec : Z := 24.
Definition emax : Z := 128.

Definition float : Type := spec_float.

Definition zero : float := S754_zero false.
Definition of_int (n : Z) : float := binary_normalize prec emax n 0 false.
Definition add : float → float → float := SFadd prec emax.
Definition mul : float → float → float := SFmul prec emax.
Definition div : float → float → float := SFdiv prec emax.
Definition sqrt : float → float := SFsqrt prec emax.

Definition is_zero (x : float) : bool :=
  match x with
  | S754_zero _ => true
  | _ => false
  end.

(** [x /= n] for a float [x] and an [int] [n]: the integer is converted to
    binary32 and the division is the one of floats; with [n = 0] it gives
    a NaN for a zero [x] and an infinity for any other number. *)
Definition div_int (x : float) (n : Z) : float := div x (of_int n).

(** The sum [0 + x0 + x1 + ...], accumulated from the left. *)
Definition sum (xs : list float) : float := foldl add zero xs.
End F32.

(** ** Buffers of floats *)

Definition load (m : list F32.float) (k : Z) : option F32.float :=
  if decide (0 ≤ k) then m !! Z.to_nat k else None.

Definition store (m : list F32.float) (k : Z) (v : F32.float) : option (list F32.float) :=
  if decide (0 ≤ k < Z.of_nat (length m)) then Some (<[Z.to_nat k := v]> m) else None.

(** [for (int i = 0; i < n; i++) body]: the iterations [0], [1], ..., [n - 1]
    in this order, each one on the state left by the one before. *)
Fixpoint for_upto {S : Type} (n : nat) (body : nat → S → option S) (s : S) : option S :=
  match n with
  | O => Some s
  | S n' => s' ← for_upto n' body s; body n' s'
  end.

(** The [len] floats of [m] from offset [off] on. *)
Definition region (m : list F32.float) (off len : Z) : list F32.float :=
  take (Z.to_nat len) (drop (Z.to_nat off) m).

(** Reading [n] floats at [m + off], and overwriting the floats at [m + off]
    with [vs]; both are defined only inside the buffer. *)
Definition read_range (m : list F32.float) (off n : Z) : option (list F32.float) :=
  if decide (0 ≤ off ∧ 0 ≤ n ∧ off + n ≤ Z.of_nat (length m))
  then Some (region m off n) else None.

Definition write_range (m : list F32.float) (off : Z) (vs : list F32.float)
  : option (list F32.float) :=
  if decide (0 ≤ off ∧ off + Z.of_nat (length vs) ≤ Z.of_nat (length m))
  then Some (list_inserts (Z.to_nat off) vs m) else None.

(** [memcpy (dst + d, src + s, n * sizeof (float))] *)
Definition memcpy (dst : list F32.float) (d : Z) (src : list F32.float) (s : Z) (n : Z)
  : option (list F32.float) :=
  vs ← read_range src s n; write_range dst d vs.

(** ** The batch *)

Record slot := Slot {
  token : Z;
  pos : Z;
  seq_id : Z;
  logits : bool
}.

(** A batch is the list of its filled slots; [batch.n_tokens] is its length. *)
Abbreviation llama_batch := (list slot) (only parsing).

Definition n_tokens (batch : llama_batch) : Z := Z.of_nat (length batch).

(** Modelled from the spec: [llama_batch_add] and [llama_batch_clear] of
    common.cpp, which is not among the sources; the batch is a container with
    [add] and [clear], each slot carrying token id, position within the
    sequence, sequence id and the is-output-position flag.  [llama_batch_add]
    fills the next slot; whether the batch has that slot is the matter of
    [batch_fits] below. *)
Definition llama_batch_add (batch : llama_batch) (id : Z) (pos : Z) (seq_id : Z)
    (logits : bool) : llama_batch :=
  batch ++ [Slot id pos seq_id logits].

Definition llama_batch_clear (batch : llama_batch) : llama_batch := [].

(** Modelled from the spec: the batch made by [llama_batch_init (n, 0, 1)] of
    llama.cpp, which is not among the sources, is a bounded container of [n]
    slots.  [llama_batch_add] does not test for room, so a batch with more
    than [n] filled slots has been written outside its arrays. *)
Definition batch_fits (capacity : Z) (batch : llama_batch) : Prop :=
  n_tokens batch ≤ capacity.

#[global] Instance batch_fits_dec (capacity : Z) (batch : llama_batch) :
  Decision (batch_fits capacity batch) := Z_le_dec (n_tokens batch) capacity.

(** [batch_add_seq]: the loop over [tokens], from index [i] on, [size] being
    [tokens.size()]. *)
Fixpoint batch_add_seq_from (batch : llama_batch) (size : Z) (i : Z) (rest : list Z)
    (seq_id : Z) (all_tokens : bool) : llama_batch :=
  match rest with
  | [] => batch
  | t :: rest' =>
      batch_add_seq_from
        (llama_batch_add batch t i seq_id (all_tokens || (i =? size - 1)))
        size (i + 1) rest' seq_id all_tokens
  end.

Definition batch_add_seq (batch : llama_batch) (tokens : list Z) (seq_id : Z)
    (all_tokens : bool) : llama_batch :=
  batch_add_seq_from batch (Z.of_nat (length tokens)) 0 tokens seq_id all_tokens.

(** The slots of one sequence: token [i] at position [i], the last one an
    output position, and all of them with [all_tokens]. *)
Definition seq_slots (tokens : list Z) (seq_id : Z) (all_tokens : bool) : list slot :=
  imap (λ i t, Slot t (Z.of_nat i) seq_id
                 (all_tokens || (Z.of_nat i =? Z.of_nat (length tokens) - 1))) tokens.

(** The batch that holds the sequences of [group] whole, in their order,
    numbered from [seq_id] on. *)
Fixpoint batch_of_group_from (group : list (list Z)) (seq_id : Z) (all_tokens : bool)
  : llama_batch :=
  match group with
  | [] => []
  | inp :: rest =>
      seq_slots inp seq_id all_tokens ++ batch_of_group_from rest (seq_id + 1) all_tokens
  end.

Definition batch_of_group (all_tokens : bool) (group : list (list Z)) : llama_batch :=
  batch_of_group_from group 0 all_tokens.

Definition group_tokens (group : list (list Z)) : Z := Z.of_nat (length (concat group)).

(** ** Mean pooling *)

(** [mean_pooling (embd, out_buf + out, n_tokens, n_embd)] *)
Definition mean_pooling (embd : list F32.float) (out_buf : list F32.float) (out : Z)
    (n_tokens n_embd : Z) : option (list F32.float) :=
  buf ← for_upto (Z.to_nat n_embd)
          (λ i buf, store buf (out + Z.of_nat i) F32.zero) out_buf;
  buf ← for_upto (Z.to_nat n_tokens)
          (λ i buf,
             for_upto (Z.to_nat n_embd)
               (λ j buf,
                  x ← load buf (out + Z.of_nat j);
                  e ← load embd (Z.of_nat i * n_embd + Z.of_nat j);
                  store buf (out + Z.of_nat j) (F32.add x e)) buf) buf;
  for_upto (Z.to_nat n_embd)
    (λ i buf,
       x ← load buf (out + Z.of_nat i);
       store buf (out + Z.of_nat i) (F32.div_int x n_tokens)) buf.

(** Component [j] of the token vectors [0 .. n - 1] stored in [embd]. *)
Definition column (embd : list F32.float) (n_embd : Z) (j : Z) (n : nat) : list F32.float :=
  omap (λ i, load embd (Z.of_nat i * n_embd + j)) (seq 0 n).


(** What a loop over the components of the output vector leaves of the
    buffer: the length, and every float outside the vector. *)
Definition frame (out_buf buf : list F32.float) (out n_embd : Z) : Prop :=
  length buf = length out_buf ∧
  ∀ k, ¬ (out ≤ k < out + n_embd) → load buf k = load out_buf k.

(** The three token vectors (1, 0), (3, 0), (5, 0), one after the other. *)
Definition three_tokens : list F32.float :=
  [F32.of_int 1; F32.of_int 0; F32.of_int 3; F32.of_int 0; F32.of_int 5; F32.of_int 0].

(** ** L2 normalization *)

Definition l2_norm (v : list F32.float) : F32.float :=
  F32.sqrt (F32.sum (map (λ x, F32.mul x x) v)).

Definition normalize (v : list F32.float) : list F32.float :=
  if F32.is_zero (l2_norm v) then v else map (λ x, F32.div x (l2_norm v)) v.

(** Modelled from the spec: [llama_embd_normalize (inp, out_buf + out, n)] of
    common.cpp, which is not among the sources; it divides the vector by its
    Euclidean norm and leaves the vector as it is when the norm is zero. *)
Definition llama_embd_normalize (inp : list F32.float) (out_buf : list F32.float)
    (out : Z) (n : Z) : option (list F32.float) :=
  v ← read_range inp 0 n; write_range out_buf out (normalize v).

(** ** The inference engine and the environment *)

Record llama_api := {
  llama_context : Type;
  (** [::llama_tokenize (ctx, prompt, true, false)] *)
  llama_tokenize : llama_context → string → list Z;
  llama_token_sep : Z;
  llama_n_embd : Z;
  llama_kv_cache_clear : llama_context → llama_context;
  (** the context after the call, and the returned code *)
  llama_decode : llama_context → llama_batch → llama_context * Z;
  (** [None] is the null pointer *)
  llama_get_embeddings_seq : llama_context → Z → option (list F32.float);
  llama_get_embeddings_ith : llama_context → Z → option (list F32.float);
  (** whether [fopen (path, "wb")] gives a file *)
  fopen : string → bool;
  (** the contents of memory returned by [malloc] *)
  indeterminate : F32.float
}.

(** [(float * ) malloc (n * sizeof (float))] *)
Definition malloc (api : llama_api) (n : Z) : option (list F32.float) :=
  if decide (n < 0) then None else Some (replicate (Z.to_nat n) (indeterminate api)).

(** ** The native-pooling extractor *)

Definition batch_decode_token (api : llama_api) (ctx : llama_context api)
    (batch : llama_batch) (output : Z) (n_embd : Z) (i : nat) (buf : list F32.float)
  : option (list F32.float) :=
  sl ← batch !! i;
  if negb (logits sl) then Some buf
  else
    match llama_get_embeddings_seq api ctx (seq_id sl) with
    | Some embd =>
        llama_embd_normalize embd buf (output + seq_id sl * n_embd) n_embd
    | None =>
        match llama_get_embeddings_ith api ctx (Z.of_nat i) with
        | Some embd =>
            llama_embd_normalize embd buf (output + seq_id sl * n_embd) n_embd
        | None => Some buf
        end
    end.

(** [batch_decode (ctx, batch, out_buf + output, n_seq, n_embd)]; a failed
    [llama_decode] is only reported. *)
Definition batch_decode (api : llama_api) (ctx : llama_context api)
    (batch : llama_batch) (out_buf : list F32.float) (output : Z) (n_seq n_embd : Z)
  : option (llama_context api * list F32.float) :=
  let ctx := llama_kv_cache_clear api ctx in
  let ctx := (llama_decode api ctx batch).1 in
  buf ← for_upto (length batch) (batch_decode_token api ctx batch output n_embd) out_buf;
  Some (ctx, buf).

(** The context in which the extractors read the embeddings of [batch]. *)
Definition decoded (api : llama_api) (ctx : llama_context api) (batch : llama_batch)
  : llama_context api :=
  (llama_decode api (llama_kv_cache_clear api ctx) batch).1.

(** No two output positions of the batch belong to the same sequence. *)
Definition one_output_per_seq (batch : llama_batch) : Prop :=
  ∀ i j sl sl', batch !! i = Some sl → batch !! j = Some sl' →
    logits sl = true → logits sl' = true → seq_id sl = seq_id sl' → i = j.

(** What the native-pooling extractor writes for output position [i]: the
    pooled embedding of the sequence, else the raw embedding of the position,
    normalized; [None] when neither is there. *)
Definition native_vector (api : llama_api) (ctx : llama_context api) (n_embd : Z)
    (i : nat) (sl : slot) : option (list F32.float) :=
  match llama_get_embeddings_seq api ctx (seq_id sl) with
  | Some embd => Some (normalize (take (Z.to_nat n_embd) embd))
  | None =>
      match llama_get_embeddings_ith api ctx (Z.of_nat i) with
      | Some embd => Some (normalize (take (Z.to_nat n_embd) embd))
      | None => None
      end
  end.

(** The output buffer of [batch_decode] after the first [n] iterations: the
    vectors of the output positions below [n] are written, the other regions
    are as at the start. *)
Definition decoded_upto (api : llama_api) (ctx : llama_context api) (batch : llama_batch)
    (out_buf : list F32.float) (output n_embd : Z) (n : nat) (buf : list F32.float) : Prop :=
  length buf = length out_buf ∧
  ∀ j sl, batch !! j = Some sl → logits sl = true →
    region buf (output + seq_id sl * n_embd) n_embd =
    match native_vector api ctx n_embd j sl with
    | Some v => if decide (j < n)%nat then v
                else region out_buf (output + seq_id sl * n_embd) n_embd
    | None => region out_buf (output + seq_id sl * n_embd) n_embd
    end.

(** ** The manual-pooling extractor *)

Record pool_state := PoolState {
  temp_out : list F32.float;
  pool_output : list F32.float;
  token_of_seq : Z
}.

Definition manual_pooling_token (api : llama_api) (ctx : llama_context api)
    (batch : llama_batch) (output : Z) (n_embd : Z) (i : nat) (st : pool_state)
  : option pool_state :=
  sl ← batch !! i;
  if negb (logits sl) then Some st
  else
    match llama_get_embeddings_ith api ctx (Z.of_nat i) with
    | None => Some st
    | Some embd =>
        temp ← memcpy (temp_out st) (Z.of_nat i * n_embd) embd 0 n_embd;
        if negb (Z.of_nat i =? 0) && (pos sl =? 0) then
          fresh ← malloc api (token_of_seq st * n_embd);
          seq_tokens ← memcpy fresh 0 temp ((Z.of_nat i - token_of_seq st) * n_embd)
                          (token_of_seq st * n_embd);
          prev ← batch !! (i - 1)%nat;
          out ← mean_pooling seq_tokens (pool_output st)
                  (output + seq_id prev * n_embd) (token_of_seq st) n_embd;
          Some (PoolState temp out (0 + 1))
        else Some (PoolState temp (pool_output st) (token_of_seq st + 1))
    end.

(** The state of the token loop of [batch_decode_with_manual_pooling] after
    its first [n] iterations. *)
Definition manual_pooling_loop (api : llama_api) (ctx : llama_context api)
    (batch : llama_batch) (out_buf : list F32.float) (output : Z) (n_embd : Z) (n : nat)
  : option pool_state :=
  temp ← malloc api (n_tokens batch * n_embd);
  for_upto n (manual_pooling_token api ctx batch output n_embd) (PoolState temp out_buf 0).

Definition batch_decode_with_manual_pooling (api : llama_api) (ctx : llama_context api)
    (batch : llama_batch) (out_buf : list F32.float) (output : Z) (n_seq n_embd : Z)
  : option (llama_context api * list F32.float) :=
  let ctx := llama_kv_cache_clear api ctx in
  let ctx := (llama_decode api ctx batch).1 in
  st ← manual_pooling_loop api ctx batch out_buf output n_embd (length batch);
  Some (ctx, pool_output st).

(** ** The program *)

Record gpt_params := {
  n_batch : Z;
  n_ctx : Z;
  prompt : string;
  manual_pooling : bool;
  logits_file : string
}.

Definition newline : ascii := "010"%char.

(** [split_lines]: [line] holds the characters read since the last newline;
    [std::getline] fails on an empty rest. *)
Fixpoint split_lines_from (s : string) (line : string) : list string :=
  match s with
  | EmptyString => if decide (line = EmptyString) then [] else [line]
  | String c s' =>
      if decide (c = newline) then line :: split_lines_from s' EmptyString
      else split_lines_from s' (line +:+ String c EmptyString)
  end.

Definition split_lines (s : string) : list string := split_lines_from s EmptyString.

(** Conversion to [uint64_t], and the sum of two [uint64_t]. *)
Definition to_u64 (x : Z) : Z := x mod 2 ^ 64.
Definition add_u64 (x y : Z) : Z := (x + y) mod 2 ^ 64.

(** The tokenization loop of [main]; [None] is the [return 1] taken at a line
    with more than [n_batch] tokens. *)
Fixpoint tokenize_prompts (api : llama_api) (ctx : llama_context api) (n_batch : Z)
    (prompts : list string) (inputs : list (list Z)) : option (list (list Z)) :=
  match prompts with
  | [] => Some inputs
  | prompt :: rest =>
      let inp := llama_tokenize api ctx prompt in
      if decide (Z.of_nat (length inp) > n_batch) then None
      else tokenize_prompts api ctx n_batch rest (inputs ++ [inp])
  end.

(** "add SEP if not present" *)
Definition add_sep (api : llama_api) (inp : list Z) : list Z :=
  if decide (inp = [] ∨ last inp ≠ Some (llama_token_sep api))
  then inp ++ [llama_token_sep api] else inp.

(** The calls of the two extractors, with their arguments ([output] as the
    offset into the embeddings buffer). *)
Inductive call :=
  | Call_batch_decode (batch : llama_batch) (output : Z) (n_seq : Z)
  | Call_batch_decode_with_manual_pooling (batch : llama_batch) (output : Z) (n_seq : Z).

Definition call_batch (c : call) : llama_batch :=
  match c with
  | Call_batch_decode b _ _ => b
  | Call_batch_decode_with_manual_pooling b _ _ => b
  end.

Definition call_output (c : call) : Z :=
  match c with
  | Call_batch_decode _ out _ => out
  | Call_batch_decode_with_manual_pooling _ out _ => out
  end.

Definition call_n_seq (c : call) : Z :=
  match c with
  | Call_batch_decode _ _ n => n
  | Call_batch_decode_with_manual_pooling _ _ n => n
  end.

(** Between two groups that follow each other, the first sequence of the
    second group did not fit into the first. *)
Definition flushed_on_overflow (n_batch : Z) (groups : list (list (list Z))) : Prop :=
  ∀ i g g', groups !! i = Some g → groups !! S i = Some g' →
    ∃ inp, head g' = Some inp ∧ group_tokens g + Z.of_nat (length inp) > n_batch.

(** The context and the embeddings buffer; [None] once the run has left the
    defined behaviour: an extractor has read or written outside a buffer, or
    the batch has been filled beyond its slots. *)
Definition machine (api : llama_api) : Type := option (llama_context api * list F32.float).

Record loop_state (api : llama_api) := LoopState {
  st_batch : llama_batch;
  st_p : Z;
  st_s : Z;
  st_machine : machine api;
  st_calls : list call
}.
Arguments LoopState {api}.
Arguments st_batch {api}.
Arguments st_p {api}.
Arguments st_s {api}.
Arguments st_machine {api}.
Arguments st_calls {api}.

(** The embeddings buffer of a machine, if it has one, holds [len] floats. *)
Definition machine_size (api : llama_api) (len : nat) (m : machine api) : Prop :=
  ∀ ctx emb, m = Some (ctx, emb) → length emb = len.

(** "encode if at capacity" *)
Definition flush (api : llama_api) (manual_pooling : bool) (n_embd : Z)
    (st : loop_state api) : loop_state api :=
  let out := st_p st * n_embd in
  let m :=
    if manual_pooling then
      '(ctx, emb) ← st_machine st;
      batch_decode_with_manual_pooling api ctx (st_batch st) emb out (st_s st) n_embd
    else
      '(ctx, emb) ← st_machine st;
      batch_decode api ctx (st_batch st) emb out (st_s st) n_embd in
  let c :=
    if manual_pooling then Call_batch_decode_with_manual_pooling (st_batch st) out (st_s st)
    else Call_batch_decode (st_batch st) out (st_s st) in
  LoopState (llama_batch_clear (st_batch st)) (st_p st + st_s st) 0 m (st_calls st ++ [c]).

(** One iteration of the loop "break into batches".  The batch is the one of
    [llama_batch_init (n_batch, 0, 1)]: [n_batch] is the bound of the test
    "encode if at capacity" and the number of slots that [batch_add_seq] may
    fill. *)
Definition assemble_step (api : llama_api) (manual_pooling : bool) (n_batch n_embd : Z)
    (st : loop_state api) (inp : list Z) : loop_state api :=
  let n_toks := Z.of_nat (length inp) in
  let st :=
    if decide (add_u64 (n_tokens (st_batch st)) n_toks > n_batch)
    then flush api manual_pooling n_embd st else st in
  let batch := batch_add_seq (st_batch st) inp (st_s st) manual_pooling in
  LoopState batch (st_p st) (st_s st + 1)
    (if decide (batch_fits n_batch batch) then st_machine st else None) (st_calls st).

Definition assemble (api : llama_api) (manual_pooling : bool) (n_batch n_embd : Z)
    (inputs : list (list Z)) (st : loop_state api) : loop_state api :=
  foldl (assemble_step api manual_pooling n_batch n_embd) st inputs.

(** The state of the assembly after the sequences [inputs]: the groups [gs]
    were decoded, one call each, and the group [cur] is in the batch. *)
Definition assembled (api : llama_api) (manual_pooling : bool) (n_batch n_embd : Z)
    (inputs : list (list Z)) (st : loop_state api)
    (gs : list (list (list Z))) (cur : list (list Z)) : Prop :=
  concat gs ++ cur = inputs ∧
  call_batch <$> st_calls st = batch_of_group manual_pooling <$> gs ∧
  call_n_seq <$> st_calls st = (λ g, Z.of_nat (length g)) <$> gs ∧
  (∀ i c, st_calls st !! i = Some c →
     call_output c = Z.of_nat (length (concat (take i gs))) * n_embd) ∧
  st_batch st = batch_of_group manual_pooling cur ∧
  st_s st = Z.of_nat (length cur) ∧
  st_p st = Z.of_nat (length (concat gs)) ∧
  Forall (λ g, group_tokens g ≤ n_batch) (gs ++ [cur]) ∧
  Forall (λ g, g ≠ []) gs ∧
  (cur = [] → gs = []) ∧
  flushed_on_overflow n_batch (gs ++ [cur]).

(** "final batch" *)
Definition final_batch (api : llama_api) (n_embd : Z) (st : loop_state api)
  : loop_state api :=
  let out := st_p st * n_embd in
  let m :=
    '(ctx, emb) ← st_machine st;
    batch_decode api ctx (st_batch st) emb out (st_s st) n_embd in
  LoopState (st_batch st) (st_p st) (st_s st) m
    (st_calls st ++ [Call_batch_decode (st_batch st) out (st_s st)]).

(** The whole of "break into batches" and "final batch", from the empty
    batch. *)
Definition decode_all (api : llama_api) (manual_pooling : bool) (n_batch n_embd : Z)
    (inputs : list (list Z)) (m : machine api) : loop_state api :=
  final_batch api n_embd
    (assemble api manual_pooling n_batch n_embd inputs (LoopState [] 0 0 m [])).

Inductive sink_event :=
  | FileWritten (path : string) (data : list F32.float)
  | Printed (vectors : list (list F32.float)).

(** The output at the end of [main]. *)
Definition output_sink (api : llama_api) (logits_file : string) (emb : list F32.float)
    (n_prompts n_embd : Z) : option (list sink_event) :=
  if decide (logits_file ≠ EmptyString) then
    if fopen api logits_file then
      data ← read_range emb 0 (n_prompts * n_embd);
      Some [FileWritten logits_file data]
    else Some []
  else
    vs ← for_upto (Z.to_nat (Z.min 3 n_prompts))
           (λ j vs,
              v ← for_upto (Z.to_nat n_embd)
                    (λ i v, x ← load emb (Z.of_nat j * n_embd + Z.of_nat i); Some (v ++ [x]))
                    [];
              Some (vs ++ [v])) [];
    Some [Printed vs].

(** How a run ends: with a [return], at the failed assertion, or in no
    defined way, the run having left the defined behaviour. *)
Inductive status :=
  | Returned (code : Z)
  | Aborted
  | Undefined.

Record outcome := Outcome {
  exit_status : status;
  (** the calls of the extractors in their order; once the run has left the
      defined behaviour, those that the statements of [main] go on to make *)
  calls : list call;
  (** the embeddings buffer after the last decode, when one was allocated and
      the run stayed within the defined behaviour *)
  embeddings : option (list F32.float);
  (** what the output step did, likewise *)
  sink : option (list sink_event)
}.

(** [main], from "split the prompt into lines" on, for parameters that were
    parsed and a model that was loaded (see [main_start] for what comes
    before). *)
Definition main (api : llama_api) (params : gpt_params) (ctx : llama_context api)
  : outcome :=
  let prompts := split_lines (prompt params) in
  if decide (n_batch params < n_ctx params) then Outcome Aborted [] None (Some [])
  else
    let n_batch := to_u64 (n_batch params) in
    match tokenize_prompts api ctx n_batch prompts [] with
    | None => Outcome (Returned 1) [] None (Some [])
    | Some inputs =>
        let inputs := map (add_sep api) inputs in
        let n_prompts := Z.of_nat (length prompts) in
        let n_embd := llama_n_embd api in
        let emb := replicate (Z.to_nat (n_prompts * n_embd)) F32.zero in
        let st := decode_all api (manual_pooling params) n_batch n_embd inputs
                    (Some (ctx, emb)) in
        let emb := snd <$> st_machine st in
        let out := emb ← emb; output_sink api (logits_file params) emb n_prompts n_embd in
        Outcome (match out with Some _ => Returned 0 | None => Undefined end)
          (st_calls st) emb out
    end.

(** The start of [main], up to "split the prompt into lines": [parsed] is
    what [gpt_params_parse] gives, [None] when it fails, with the settings of
    the lines that follow it (a random prompt, when one is asked for, is its
    [prompt]), and [loaded] what [llama_init_from_gpt_params] gives for these
    parameters, [None] when the model is null.  Either failure returns 1 at
    once. *)
Definition main_start (api : llama_api) (parsed : option gpt_params)
    (loaded : gpt_params → option (llama_context api)) : outcome :=
  match parsed with
  | None => Outcome (Returned 1) [] None (Some [])
  | Some params =>
      match loaded params with
      | None => Outcome (Returned 1) [] None (Some [])
      | Some ctx => main api params ctx
      end
  end.

(** ** A small engine, for running the program on concrete inputs

    The context is the batch decoded last.  Every character of a prompt is
    one token (its code); the separator is token 10.  Embeddings have two
    components: the raw embedding of an output position is (token, position);
    the pooled embedding of a sequence of the batch, present when [pooled] is
    set, is (3, 4). *)
Definition toy_api (pooled : bool) (can_open : bool) : llama_api := {|
  llama_context := llama_batch;
  llama_tokenize := λ _ prompt, map (λ c, Z.of_nat (nat_of_ascii c)) (list_ascii_of_string prompt);
  llama_token_sep := 10;
  llama_n_embd := 2;
  llama_kv_cache_clear := λ _, [];
  llama_decode := λ _ batch, (batch, 0);
  llama_get_embeddings_seq := λ ctx q,
    if pooled && bool_decide (q ∈ map seq_id ctx)
    then Some [F32.of_int 3; F32.of_int 4] else None;
  llama_get_embeddings_ith := λ ctx i,
    if decide (0 ≤ i) then
      sl ← ctx !! Z.to_nat i;
      if logits sl then Some [F32.of_int (token sl); F32.of_int (pos sl)] else None
    else None;
  fopen := λ _, can_open;
  indeterminate := S754_nan
|}.

Definition toy_params (n_batch : Z) (prompt : string) (manual_pooling : bool)
    (logits_file : string) : gpt_params :=
  {| n_batch := n_batch; n_ctx := n_batch; prompt := prompt;
     manual_pooling := manual_pooling; logits_file := logits_file |}.


(** ** Further notions used to state properties of the program *)

(** The lines put together again, each one followed by a newline. *)
Definition unlines (lines : list string) : string :=
  foldr (λ line rest, line +:+ String newline rest) EmptyString lines.

(** [s] with a newline added at its end when it is not empty and does not end
    with one. *)
Fixpoint terminated (s : string) : string :=
  match s with
  | EmptyString => EmptyString
  | String c s' =>
      String c
        match s' with
        | EmptyString =>
            if decide (c = newline) then EmptyString else String newline EmptyString
        | String _ _ => terminated s'
        end
  end.

(** Whether a newline occurs in [s]. *)
Fixpoint has_newline (s : string) : bool :=
  match s with
  | EmptyString => false
  | String c s' => bool_decide (c = newline) || has_newline s'
  end.

(** The number of output positions of a batch. *)
Definition n_outputs (batch : llama_batch) : nat :=
  length (filter (λ sl, logits sl = true) batch).

Definition call_is_manual (c : call) : bool :=
  match c with
  | Call_batch_decode _ _ _ => false
  | Call_batch_decode_with_manual_pooling _ _ _ => true
  end.

(** The state of the assembly after the sequences [inputs], as far as the
    calls go: the groups [gs] were decoded, one call each, and the group
    [cur] is in the batch. *)
Definition grouped (api : llama_api) (manual_pooling : bool) (n_embd : Z)
    (inputs : list (list Z)) (st : loop_state api)
    (gs : list (list (list Z))) (cur : list (list Z)) : Prop :=
  concat gs ++ cur = inputs ∧
  call_batch <$> st_calls st = batch_of_group manual_pooling <$> gs ∧
  call_n_seq <$> st_calls st = (λ g, Z.of_nat (length g)) <$> gs ∧
  (∀ i c, st_calls st !! i = Some c →
     call_output c = Z.of_nat (length (concat (take i gs))) * n_embd) ∧
  Forall (λ c, call_is_manual c = manual_pooling) (st_calls st) ∧
  st_batch st = batch_of_group manual_pooling cur ∧
  st_s st = Z.of_nat (length cur) ∧
  st_p st = Z.of_nat (length (concat gs)).

(** An engine whose decode fails: it returns -1 and has no embeddings. *)
Definition failing_api : llama_api := {|
  llama_context := unit;
  llama_tokenize := λ _ prompt, map (λ c, Z.of_nat (nat_of_ascii c)) (list_ascii_of_string prompt);
  llama_token_sep := 10;
  llama_n_embd := 2;
  llama_kv_cache_clear := λ ctx, ctx;
  llama_decode := λ ctx _, (ctx, -1);
  llama_get_embeddings_seq := λ _ _, None;
  llama_get_embeddings_ith := λ _ _, None;
  fopen := λ _, true;
  indeterminate := S754_nan
|}.

(** The raw embedding of position [i], its first [n_embd] floats. *)
Definition raw_vector (api : llama_api) (ctx : llama_context api) (n_embd : Z) (i : nat)
  : list F32.float :=
  take (Z.to_nat n_embd) (default [] (llama_get_embeddings_ith api ctx (Z.of_nat i))).

(** The mean of the vectors [vs], component by component: the sum taken in
    the order of the vectors, divided by their number. *)
Definition mean_vector (n_embd : Z) (vs : list (list F32.float)) : list F32.float :=
  (λ c, F32.div (F32.sum ((λ v, default F32.zero (v !! c)) <$> vs))
          (F32.of_int (Z.of_nat (length vs))))
  <$> seq 0 (Z.to_nat n_embd).

(** The positions of the slots of a batch count the tokens of each sequence
    from 0, the sequence ids do not decrease, and they grow where a position
    is 0 again. *)
Definition sequences_in_order (batch : llama_batch) : Prop :=
  (∀ i sl, batch !! i = Some sl → 0 ≤ pos sl ≤ Z.of_nat i) ∧
  (∀ i prev sl, batch !! i = Some prev → batch !! S i = Some sl →
     pos sl = 0 ∧ seq_id prev < seq_id sl ∨
     pos sl = pos prev + 1 ∧ seq_id sl = seq_id prev).

(** The state of the token loop of the manual-pooling extractor after [i]
    iterations, when every position is an output position and has its raw
    embedding. *)
Definition pooled_upto (api : llama_api) (ctx : llama_context api) (batch : llama_batch)
    (out_buf : list F32.float) (output n_embd : Z) (i : nat) (st : pool_state) : Prop :=
  Z.of_nat (length (temp_out st)) = n_tokens batch * n_embd ∧
  (∀ j, (j < i)%nat →
     region (temp_out st) (Z.of_nat j * n_embd) n_embd = raw_vector api ctx n_embd j) ∧
  token_of_seq st =
    match i with
    | O => 0
    | S i' => default 0 (pos <$> batch !! i') + 1
    end ∧
  length (pool_output st) = length out_buf ∧
  ∀ b prev sl, (S b < i)%nat → batch !! b = Some prev → batch !! S b = Some sl →
    pos sl = 0 →
    region (pool_output st) (output + seq_id prev * n_embd) n_embd =
    mean_vector n_embd
      (raw_vector api ctx n_embd <$> seq (b - Z.to_nat (pos prev)) (S (Z.to_nat (pos prev)))).

(** The state of the assembly after [k] sequences of a run that has stayed
    within the defined behaviour: the buffer holds [len] floats, the batch
    has room for the sequences in it, and the sequences decoded so far and
    those in the batch are [k] together. *)
Definition running (api : llama_api) (manual_pooling : bool) (n_batch : Z) (len : nat)
    (k : nat) (st : loop_state api) : Prop :=
  ∃ ctx emb cur,
    st_machine st = Some (ctx, emb) ∧ length emb = len ∧
    st_batch st = batch_of_group manual_pooling cur ∧
    group_tokens cur ≤ n_batch ∧
    st_s st = Z.of_nat (length cur) ∧
    0 ≤ st_p st ∧ st_p st + st_s st = Z.of_nat k.





(** * Properties *)

(** ** Buffers *)

Lemma store_Some (m : list F32.float) (k : Z) (v : F32.float) :
  0 ≤ k < Z.of_nat (length m) → store m k v = Some (<[Z.to_nat k := v]> m).
Proof. intros H. unfold store. by rewrite decide_True. Qed.

Lemma store_inv (m m' : list F32.float) (k : Z) (v : F32.float) :
  store m k v = Some m' →
  0 ≤ k < Z.of_nat (length m) ∧ m' = <[Z.to_nat k := v]> m.
Proof.
  unfold store. destruct (decide (0 ≤ k < Z.of_nat (length m))); [|done].
  by intros [= <-].
Qed.

Lemma load_insert_eq (m : list F32.float) (k : Z) (v : F32.float) :
  0 ≤ k < Z.of_nat (length m) → load (<[Z.to_nat k := v]> m) k = Some v.
Proof.
  intros H. unfold load. rewrite decide_True by lia.
  apply list_lookup_insert_eq. lia.
Qed.

Lemma load_insert_ne (m : list F32.float) (k k' : Z) (v : F32.float) :
  0 ≤ k → k ≠ k' → load (<[Z.to_nat k := v]> m) k' = load m k'.
Proof.
  intros Hk Hne. unfold load. destruct (decide (0 ≤ k')); [|done].
  apply list_lookup_insert_ne. lia.
Qed.

Lemma load_is_Some (m : list F32.float) (k : Z) :
  0 ≤ k < Z.of_nat (length m) → is_Some (load m k).
Proof.
  intros H. unfold load. rewrite decide_True by lia.
  apply lookup_lt_is_Some. lia.
Qed.

(** ** Loops *)

(** A loop whose body keeps an invariant runs to its end and establishes the
    invariant at the bound. *)
Lemma for_upto_invariant {S : Type} (P : nat → S → Prop) (n : nat)
    (body : nat → S → option S) (s : S) :
  P O s →
  (∀ i t, (i < n)%nat → P i t → ∃ t', body i t = Some t' ∧ P (Datatypes.S i) t') →
  ∃ s', for_upto n body s = Some s' ∧ P n s'.
Proof.
  intros H0 Hstep. induction n as [|n IH]; simpl.
  - eauto.
  - destruct IH as (t & -> & Ht); [intros i u Hi; apply Hstep; lia|].
    simpl. apply Hstep; [lia | done].
Qed.

Lemma for_upto_S {S : Type} (n : nat) (body : nat → S → option S) (s : S) :
  for_upto (Datatypes.S n) body s = for_upto n body s ≫= body n.
Proof. done. Qed.

(** ** Mean pooling *)

Lemma sum_snoc (xs : list F32.float) (x : F32.float) :
  F32.sum (xs ++ [x]) = F32.add (F32.sum xs) x.
Proof. unfold F32.sum. by rewrite foldl_app. Qed.

Lemma column_S (embd : list F32.float) (n_embd j : Z) (n : nat) (x : F32.float) :
  load embd (Z.of_nat n * n_embd + j) = Some x →
  column embd n_embd j (S n) = column embd n_embd j n ++ [x].
Proof.
  intros H. unfold column. rewrite seq_S, omap_app. simpl. by rewrite H.
Qed.

Lemma column_length (embd : list F32.float) (n_embd j : Z) (n : nat) :
  0 ≤ j < n_embd → Z.of_nat n * n_embd ≤ Z.of_nat (length embd) →
  length (column embd n_embd j n) = n.
Proof.
  intros Hj. induction n as [|n IH]; intros Hn; [done|].
  destruct (load_is_Some embd (Z.of_nat n * n_embd + j)) as [x Hx]; [nia|].
  rewrite (column_S _ _ _ _ _ Hx), length_app, IH by nia. simpl. lia.
Qed.

Lemma frame_refl (out_buf : list F32.float) (out n_embd : Z) :
  frame out_buf out_buf out n_embd.
Proof. by split. Qed.

Lemma frame_store (out_buf buf : list F32.float) (out n_embd j : Z) (v : F32.float) :
  0 ≤ out → 0 ≤ j < n_embd → out + n_embd ≤ Z.of_nat (length out_buf) →
  frame out_buf buf out n_embd →
  ∃ buf', store buf (out + j) v = Some buf' ∧ frame out_buf buf' out n_embd ∧
    load buf' (out + j) = Some v ∧
    ∀ k, k ≠ out + j → load buf' k = load buf k.
Proof.
  intros Hout Hj Hlen [Hl Hframe].
  exists (<[Z.to_nat (out + j) := v]> buf). split; [apply store_Some; lia|].
  split; [split|split].
  - by rewrite length_insert.
  - intros k Hk. rewrite load_insert_ne by lia. by apply Hframe.
  - apply load_insert_eq. lia.
  - intros k Hk. apply load_insert_ne; lia.
Qed.

Section MeanPooling.
Variables (embd out_buf : list F32.float) (out n_tokens n_embd : Z).
Hypothesis Hout : 0 ≤ out.
Hypothesis Hfits : out + n_embd ≤ Z.of_nat (length out_buf).
Hypothesis Hembd : n_tokens * n_embd ≤ Z.of_nat (length embd).

(** First loop: the output vector is cleared. *)
Lemma mean_pooling_clear :
  ∃ buf, for_upto (Z.to_nat n_embd)
           (λ i buf, store buf (out + Z.of_nat i) F32.zero) out_buf = Some buf ∧
    frame out_buf buf out n_embd ∧
    ∀ j, 0 ≤ j < n_embd → load buf (out + j) = Some F32.zero.
Proof.
  clear Hembd.
  destruct (for_upto_invariant
    (λ i buf, frame out_buf buf out n_embd ∧
       ∀ j, 0 ≤ j < Z.of_nat i → load buf (out + j) = Some F32.zero)
    (Z.to_nat n_embd) (λ i buf, store buf (out + Z.of_nat i) F32.zero) out_buf)
    as (buf & Hrun & Hframe & Hzero).
  - split; [apply frame_refl | intros; lia].
  - intros i buf Hi [Hframe Hzero].
    destruct (frame_store out_buf buf out n_embd (Z.of_nat i) F32.zero)
      as (buf' & -> & Hframe' & Hnew & Hold); [lia..|done|].
    exists buf'. repeat split; try apply Hframe'.
    intros j Hj. destruct (decide (j = Z.of_nat i)) as [->|Hne]; [done|].
    rewrite Hold by lia. apply Hzero. lia.
  - exists buf. repeat split; try done; try apply Hframe.
    intros j Hj. apply Hzero. lia.
Qed.

(** Second loop, one token: every component grows by that token's. *)
Lemma mean_pooling_accumulate (i : nat) (buf : list F32.float) :
  (Z.of_nat i < n_tokens) →
  frame out_buf buf out n_embd →
  (∀ j, 0 ≤ j < n_embd →
     load buf (out + j) = Some (F32.sum (column embd n_embd j i))) →
  ∃ buf', for_upto (Z.to_nat n_embd)
            (λ j buf,
               x ← load buf (out + Z.of_nat j);
               e ← load embd (Z.of_nat i * n_embd + Z.of_nat j);
               store buf (out + Z.of_nat j) (F32.add x e)) buf = Some buf' ∧
    frame out_buf buf' out n_embd ∧
    ∀ j, 0 ≤ j < n_embd →
      load buf' (out + j) = Some (F32.sum (column embd n_embd j (S i))).
Proof.
  intros Hi Hframe Hsum.
  destruct (for_upto_invariant
    (λ j b, frame out_buf b out n_embd ∧
       ∀ j', 0 ≤ j' < n_embd →
         load b (out + j') =
         Some (F32.sum (column embd n_embd j'
                          (if decide (j' < Z.of_nat j) then S i else i))))
    (Z.to_nat n_embd)
    (λ j buf,
       x ← load buf (out + Z.of_nat j);
       e ← load embd (Z.of_nat i * n_embd + Z.of_nat j);
       store buf (out + Z.of_nat j) (F32.add x e)) buf)
    as (buf' & Hrun & Hframe' & Hsum').
  - split; [done|]. intros j' Hj'. rewrite decide_False by lia. by apply Hsum.
  - intros j b Hj [Hfb Hb].
    rewrite (Hb (Z.of_nat j)) by lia. rewrite decide_False by lia. simpl.
    destruct (load_is_Some embd (Z.of_nat i * n_embd + Z.of_nat j)) as [e He]; [nia|].
    rewrite He. simpl.
    destruct (frame_store out_buf b out n_embd (Z.of_nat j)
                (F32.add (F32.sum (column embd n_embd (Z.of_nat j) i)) e))
      as (b' & -> & Hfb' & Hnew & Hold); [lia..|done|].
    exists b'. repeat split; try apply Hfb'.
    intros j' Hj'. destruct (decide (j' = Z.of_nat j)) as [->|Hne].
    + rewrite Hnew, decide_True by lia.
      by rewrite (column_S _ _ _ _ _ He), sum_snoc.
    + rewrite Hold by lia. rewrite Hb by lia.
      do 2 case_decide; try lia; done.
  - exists buf'. repeat split; try done; try apply Hframe'.
    intros j Hj. rewrite Hsum' by done. by rewrite decide_True by lia.
Qed.

(** Second loop: the component sums over the first [n] tokens. *)
Lemma mean_pooling_sums (buf : list F32.float) :
  frame out_buf buf out n_embd →
  (∀ j, 0 ≤ j < n_embd → load buf (out + j) = Some F32.zero) →
  ∃ buf', for_upto (Z.to_nat n_tokens)
            (λ i buf,
               for_upto (Z.to_nat n_embd)
                 (λ j buf,
                    x ← load buf (out + Z.of_nat j);
                    e ← load embd (Z.of_nat i * n_embd + Z.of_nat j);
                    store buf (out + Z.of_nat j) (F32.add x e)) buf) buf = Some buf' ∧
    frame out_buf buf' out n_embd ∧
    ∀ j, 0 ≤ j < n_embd →
      load buf' (out + j) = Some (F32.sum (column embd n_embd j (Z.to_nat n_tokens))).
Proof.
  intros Hframe Hzero.
  apply (for_upto_invariant
    (λ i b, frame out_buf b out n_embd ∧
       ∀ j, 0 ≤ j < n_embd → load b (out + j) = Some (F32.sum (column embd n_embd j i)))).
  - split; [done|]. intros j Hj. by rewrite Hzero.
  - intros i b Hi [Hfb Hb]. apply mean_pooling_accumulate; [lia|done..].
Qed.

(** Third loop: every component is divided by the number of tokens. *)
Lemma mean_pooling_divide (buf : list F32.float) (sums : Z → F32.float) :
  frame out_buf buf out n_embd →
  (∀ j, 0 ≤ j < n_embd → load buf (out + j) = Some (sums j)) →
  ∃ buf', for_upto (Z.to_nat n_embd)
            (λ i buf,
               x ← load buf (out + Z.of_nat i);
               store buf (out + Z.of_nat i) (F32.div_int x n_tokens)) buf = Some buf' ∧
    frame out_buf buf' out n_embd ∧
    ∀ j, 0 ≤ j < n_embd →
      load buf' (out + j) = Some (F32.div (sums j) (F32.of_int n_tokens)).
Proof.
  clear Hembd.
  intros Hframe Hsums.
  destruct (for_upto_invariant
    (λ i b, frame out_buf b out n_embd ∧
       ∀ j, 0 ≤ j < n_embd →
         load b (out + j) =
         Some (if decide (j < Z.of_nat i)
               then F32.div (sums j) (F32.of_int n_tokens) else sums j))
    (Z.to_nat n_embd)
    (λ i buf,
       x ← load buf (out + Z.of_nat i);
       store buf (out + Z.of_nat i) (F32.div_int x n_tokens)) buf)
    as (buf' & Hrun & Hframe' & Hdiv).
  - split; [done|]. intros j Hj. rewrite decide_False by lia. by apply Hsums.
  - intros i b Hi [Hfb Hb].
    rewrite (Hb (Z.of_nat i)) by lia. rewrite decide_False by lia. simpl.
    unfold F32.div_int.
    destruct (frame_store out_buf b out n_embd (Z.of_nat i)
                (F32.div (sums (Z.of_nat i)) (F32.of_int n_tokens)))
      as (b' & -> & Hfb' & Hnew & Hold); [lia..|done|].
    exists b'. repeat split; try apply Hfb'.
    intros j Hj. destruct (decide (j = Z.of_nat i)) as [->|Hne].
    + by rewrite Hnew, decide_True by lia.
    + rewrite Hold by lia. rewrite Hb by lia.
      do 2 case_decide; try lia; done.
  - exists buf'. repeat split; try done; try apply Hframe'.
    intros j Hj. rewrite Hdiv by done. by rewrite decide_True by lia.
Qed.
End MeanPooling.


Lemma column_lookup (embd : list F32.float) (n_embd j : Z) (n i : nat) :
  0 ≤ j < n_embd → Z.of_nat n * n_embd ≤ Z.of_nat (length embd) → (i < n)%nat →
  column embd n_embd j n !! i = load embd (Z.of_nat i * n_embd + j).
Proof.
  intros Hj. induction n as [|n IH]; intros Hn Hi; [lia|].
  destruct (load_is_Some embd (Z.of_nat n * n_embd + j)) as [x Hx]; [nia|].
  rewrite (column_S _ _ _ _ _ Hx).
  destruct (decide (i = n)) as [->|Hne].
  - rewrite lookup_app_r; rewrite column_length by nia; [|lia].
    by rewrite Nat.sub_diag, Hx.
  - rewrite lookup_app_l; [apply IH; [nia|lia]|]. rewrite column_length by nia. lia.
Qed.

(** [mean_pooling] on at least one token, with buffers that hold the
    vectors. *)
Lemma mean_pooling_correct (embd out_buf : list F32.float) (out n_tokens n_embd : Z) :
  1 ≤ n_tokens → 0 ≤ out →
  out + n_embd ≤ Z.of_nat (length out_buf) →
  n_tokens * n_embd ≤ Z.of_nat (length embd) →
  ∃ buf, mean_pooling embd out_buf out n_tokens n_embd = Some buf ∧
    length buf = length out_buf ∧
    (∀ j, 0 ≤ j < n_embd →
       load buf (out + j) =
       Some (F32.div (F32.sum (column embd n_embd j (Z.to_nat n_tokens)))
               (F32.of_int n_tokens))) ∧
    (∀ k, ¬ (out ≤ k < out + n_embd) → load buf k = load out_buf k).
Proof.
  intros Hn Hout Hfits Hembd. unfold mean_pooling.
  destruct (mean_pooling_clear out_buf out n_embd Hout Hfits)
    as (b1 & -> & Hf1 & Hz1). simpl.
  destruct (mean_pooling_sums embd out_buf out n_tokens n_embd Hout Hfits Hembd b1 Hf1 Hz1)
    as (b2 & -> & Hf2 & Hs2). simpl.
  destruct (mean_pooling_divide out_buf out n_tokens n_embd Hout Hfits b2
              (λ j, F32.sum (column embd n_embd j (Z.to_nat n_tokens))) Hf2 Hs2)
    as (b3 & -> & [Hl3 Hf3] & Hd3).
  by exists b3.
Qed.

(** C5. For [n_tokens >= 1] and buffers that hold the vectors,
    [mean_pooling] succeeds and leaves in component [j] of the output vector
    the binary32 sum, taken in token order from zero, of the components [j]
    of the [n_tokens] input vectors, divided by [n_tokens] converted to
    binary32; the rest of the output buffer is as before. *)
Theorem mean_pooling_is_mean (embd out_buf : list F32.float) (out n_tokens n_embd : Z)
    (Hn : 1 ≤ n_tokens) (Hout : 0 ≤ out)
    (Hfits : out + n_embd ≤ Z.of_nat (length out_buf))
    (Hembd : n_tokens * n_embd ≤ Z.of_nat (length embd)) :
  ∃ buf, mean_pooling embd out_buf out n_tokens n_embd = Some buf ∧
    length buf = length out_buf ∧
    (∀ j, 0 ≤ j < n_embd →
       let xs := column embd n_embd j (Z.to_nat n_tokens) in
       length xs = Z.to_nat n_tokens ∧
       (∀ i, 0 ≤ i < n_tokens → xs !! Z.to_nat i = load embd (i * n_embd + j)) ∧
       load buf (out + j) = Some (F32.div (F32.sum xs) (F32.of_int n_tokens))) ∧
    (∀ k, ¬ (out ≤ k < out + n_embd) → load buf k = load out_buf k).
Proof.
  destruct (mean_pooling_correct embd out_buf out n_tokens n_embd Hn Hout Hfits Hembd)
    as (buf & Hrun & Hlen & Hmean & Hframe).
  exists buf. split_and!; try done.
  intros j Hj xs. split_and!.
  - apply column_length; [done|]. by rewrite Z2Nat.id by lia.
  - intros i Hi. unfold xs. rewrite column_lookup; [|done| |lia].
    + by rewrite Z2Nat.id by lia.
    + by rewrite Z2Nat.id by lia.
  - by apply Hmean.
Qed.

(** The three token vectors (1, 0), (3, 0), (5, 0) pool to (3, 0). *)
Lemma mean_pooling_three_tokens :
  ∃ buf, mean_pooling three_tokens [F32.zero; F32.zero] 0 3 2 = Some buf ∧
    load buf 0 = Some (F32.of_int 3) ∧ load buf 1 = Some (F32.of_int 0).
Proof.
  destruct (mean_pooling_is_mean three_tokens [F32.zero; F32.zero] 0 3 2)
    as (buf & Hrun & _ & Hmean & _); [simpl; lia..|].
  exists buf. split; [exact Hrun|].
  split.
  - destruct (Hmean 0) as (_ & _ & H0); [lia|].
    change (0 + 0) with 0 in H0. rewrite H0. reflexivity.
  - destruct (Hmean 1) as (_ & _ & H1); [lia|].
    change (0 + 1) with 1 in H1. rewrite H1. reflexivity.
Defined.

(** ** The separator *)

Lemma add_sep_ends_with_sep (api : llama_api) (inp : list Z) :
  add_sep api (inp ++ [llama_token_sep api]) = inp ++ [llama_token_sep api].
Proof.
  unfold add_sep. rewrite decide_False; [done|].
  rewrite last_snoc. intros [Hnil | Hlast]; [|done].
  by destruct inp.
Qed.

Lemma add_sep_last (api : llama_api) (inp : list Z) :
  last (add_sep api inp) = Some (llama_token_sep api).
Proof.
  unfold add_sep. case_decide as Hsep; [apply last_snoc|].
  destruct (decide (last inp = Some (llama_token_sep api))); [done|].
  destruct Hsep. by right.
Qed.

(** C7. After the step "add SEP if not present" every sequence ends with the
    separator; the step leaves a sequence that ends with the separator as it
    is, and so a second application changes nothing. *)
Theorem add_sep_idempotent (api : llama_api) (inp : list Z) (inputs : list (list Z)) :
  last (add_sep api inp) = Some (llama_token_sep api) ∧
  add_sep api (inp ++ [llama_token_sep api]) = inp ++ [llama_token_sep api] ∧
  add_sep api (add_sep api inp) = add_sep api inp ∧
  Forall (λ inp, last inp = Some (llama_token_sep api)) (map (add_sep api) inputs) ∧
  map (add_sep api) (map (add_sep api) inputs) = map (add_sep api) inputs.
Proof.
  assert (Hidem : ∀ l, add_sep api (add_sep api l) = add_sep api l).
  { intros l. unfold add_sep at 2 3. case_decide; [apply add_sep_ends_with_sep|].
    unfold add_sep. by rewrite decide_False. }
  repeat split.
  - apply add_sep_last.
  - apply add_sep_ends_with_sep.
  - apply Hidem.
  - apply Forall_map, Forall_forall. intros l _. apply add_sep_last.
  - rewrite map_map. apply map_ext. intros l. apply Hidem.
Qed.

(** ** The length check *)

Lemma tokenize_prompts_None (api : llama_api) (ctx : llama_context api) (n_batch : Z)
    (prompts : list string) (inputs : list (list Z)) :
  Exists (λ prompt, Z.of_nat (length (llama_tokenize api ctx prompt)) > n_batch) prompts →
  tokenize_prompts api ctx n_batch prompts inputs = None.
Proof.
  revert inputs. induction prompts as [|prompt rest IH]; intros inputs Hex.
  - by apply Exists_nil in Hex.
  - simpl. case_decide as Hlen; [done|].
    apply IH. apply Exists_cons in Hex as [Hhere | Hlater]; done.
Qed.

Lemma tokenize_prompts_Some (api : llama_api) (ctx : llama_context api) (n_batch : Z)
    (prompts : list string) (inputs : list (list Z)) :
  Forall (λ prompt, Z.of_nat (length (llama_tokenize api ctx prompt)) ≤ n_batch) prompts →
  tokenize_prompts api ctx n_batch prompts inputs =
  Some (inputs ++ map (llama_tokenize api ctx) prompts).
Proof.
  revert inputs. induction prompts as [|prompt rest IH]; intros inputs Hall.
  - simpl. by rewrite app_nil_r.
  - apply Forall_cons in Hall as [Hhere Hrest].
    simpl. rewrite decide_False by lia.
    rewrite IH by done. by rewrite <- app_assoc.
Qed.

(** C4. When a line of the prompt has more tokens than [n_batch], the run
    ends before the first batch: no extractor is called, no embeddings buffer
    exists and nothing is written or printed; the run returns 1 (or has
    stopped at the assertion on the context size before). *)
Theorem too_long_prompt_is_fatal (api : llama_api) (params : gpt_params)
    (ctx : llama_context api)
    (Hlong : Exists (λ prompt, Z.of_nat (length (llama_tokenize api ctx prompt))
                               > to_u64 (n_batch params))
               (split_lines (prompt params))) :
  let r := main api params ctx in
  calls r = [] ∧ embeddings r = None ∧ sink r = Some [] ∧
  exit_status r = (if decide (n_batch params < n_ctx params) then Aborted else Returned 1).
Proof.
  unfold main. case_decide; [done|].
  by rewrite tokenize_prompts_None.
Qed.

(** A line of five tokens with a batch of four. *)
Lemma too_long_prompt_is_fatal_witness :
  let r := main (toy_api true true) (toy_params 4 "ab
cdefg" true "out.bin") [] in
  calls r = [] ∧ embeddings r = None ∧ sink r = Some [] ∧ exit_status r = Returned 1.
Proof.
  apply (too_long_prompt_is_fatal (toy_api true true) (toy_params 4 "ab
cdefg" true "out.bin") []).
  apply Exists_cons_tl, Exists_cons_hd. vm_compute. reflexivity.
Defined.

(** C9. The length check runs on the tokens of a line as the tokenizer gives
    them, before "add SEP if not present": when every line passes the check
    and one of them has exactly [n_batch] tokens, the last of which is not
    the separator, the tokenization loop does not return, and after the
    separator step the sequence of that line has [n_batch + 1] tokens. *)
Theorem check_precedes_separator (api : llama_api) (params : gpt_params)
    (ctx : llama_context api) (k : nat) (line : string)
    (Hctx : n_ctx params ≤ n_batch params)
    (Hpass : Forall (λ prompt, Z.of_nat (length (llama_tokenize api ctx prompt))
                               ≤ to_u64 (n_batch params))
               (split_lines (prompt params)))
    (Hline : split_lines (prompt params) !! k = Some line)
    (Hfull : Z.of_nat (length (llama_tokenize api ctx line)) = to_u64 (n_batch params))
    (Hnosep : last (llama_tokenize api ctx line) ≠ Some (llama_token_sep api)) :
  let inputs := map (llama_tokenize api ctx) (split_lines (prompt params)) in
  tokenize_prompts api ctx (to_u64 (n_batch params)) (split_lines (prompt params)) []
    = Some inputs ∧
  map (add_sep api) inputs !! k
    = Some (llama_tokenize api ctx line ++ [llama_token_sep api]) ∧
  Z.of_nat (length (llama_tokenize api ctx line ++ [llama_token_sep api]))
    = to_u64 (n_batch params) + 1.
Proof.
  intros inputs. split; [by apply tokenize_prompts_Some|].
  split.
  - unfold inputs. rewrite !list_lookup_fmap, Hline. simpl.
    unfold add_sep. rewrite decide_True; [done | by right].
  - rewrite length_app. simpl. lia.
Qed.

(** A capacity of two tokens and the line "ab": the line passes the check,
    and its sequence has three tokens. *)
Lemma check_precedes_separator_witness :
  tokenize_prompts (toy_api true true) [] 2 (split_lines "ab") [] = Some [[97; 98]] ∧
  map (add_sep (toy_api true true))
      (map (llama_tokenize (toy_api true true) []) (split_lines "ab")) !! 0%nat
    = Some [97; 98; 10].
Proof.
  destruct (check_precedes_separator (toy_api true true) (toy_params 2 "ab" false "") []
              0 "ab") as (Hcheck & Hseq & _).
  - simpl. lia.
  - repeat constructor. vm_compute. discriminate.
  - reflexivity.
  - reflexivity.
  - vm_compute. discriminate.
  - split; [exact Hcheck|exact Hseq].
Defined.

(** ** The extractors keep the size of the output buffer *)

Lemma for_upto_preserves {S : Type} (P : S → Prop) (n : nat)
    (body : nat → S → option S) (s s' : S) :
  (∀ i t t', (i < n)%nat → body i t = Some t' → P t → P t') →
  P s → for_upto n body s = Some s' → P s'.
Proof.
  revert s'. induction n as [|n IH]; intros s' Hbody Hs; simpl.
  - by intros [= <-].
  - destruct (for_upto n body s) as [t|] eqn:Ht; [simpl|done].
    intros Hrun. apply (Hbody n t s'); [lia|done|].
    apply IH; [|done..]. intros i u u' Hi. apply Hbody. lia.
Qed.

Lemma store_length (m m' : list F32.float) (k : Z) (v : F32.float) :
  store m k v = Some m' → length m' = length m.
Proof. intros [_ ->]%store_inv. apply length_insert. Qed.

Lemma write_range_length (m m' : list F32.float) (off : Z) (vs : list F32.float) :
  write_range m off vs = Some m' → length m' = length m.
Proof.
  unfold write_range. case_decide; [|done]. intros [= <-]. apply length_inserts.
Qed.

Lemma mean_pooling_length (embd out_buf buf : list F32.float) (out n_tokens n_embd : Z) :
  mean_pooling embd out_buf out n_tokens n_embd = Some buf → length buf = length out_buf.
Proof.
  unfold mean_pooling. intros Hrun.
  apply bind_Some in Hrun as (b1 & H1 & Hrun).
  apply bind_Some in Hrun as (b2 & H2 & H3).
  assert (L1 : length b1 = length out_buf).
  { revert H1. apply (for_upto_preserves (λ b, length b = length out_buf)); [|done].
    intros i t t' _ Hst <-. by apply store_length in Hst. }
  assert (L2 : length b2 = length out_buf).
  { revert H2. apply (for_upto_preserves (λ b, length b = length out_buf)); [|done].
    intros i t t' _ Hin Ht. revert Hin.
    apply (for_upto_preserves (λ b, length b = length out_buf)); [|done].
    intros j u u' _ Hst <-.
    apply bind_Some in Hst as (x & _ & Hst). apply bind_Some in Hst as (e & _ & Hst).
    by apply store_length in Hst. }
  revert H3. apply (for_upto_preserves (λ b, length b = length out_buf)); [|done].
  intros i t t' _ Hst <-.
  apply bind_Some in Hst as (x & _ & Hst).
  by apply store_length in Hst.
Qed.

Lemma llama_embd_normalize_length (inp out_buf buf : list F32.float) (out n : Z) :
  llama_embd_normalize inp out_buf out n = Some buf → length buf = length out_buf.
Proof.
  unfold llama_embd_normalize. intros (v & _ & Hw)%bind_Some.
  by apply write_range_length in Hw.
Qed.

Lemma batch_decode_length (api : llama_api) (ctx ctx' : llama_context api)
    (batch : llama_batch) (out_buf buf : list F32.float) (output n_seq n_embd : Z) :
  batch_decode api ctx batch out_buf output n_seq n_embd = Some (ctx', buf) →
  length buf = length out_buf.
Proof.
  unfold batch_decode. intros (b & Hrun & [= _ <-])%bind_Some.
  revert Hrun. apply (for_upto_preserves (λ b, length b = length out_buf)); [|done].
  intros i t t' _ Hstep <-. unfold batch_decode_token in Hstep.
  apply bind_Some in Hstep as (sl & _ & Hstep).
  destruct (logits sl); simpl in Hstep; [|by injection Hstep as <-].
  destruct (llama_get_embeddings_seq api _ _);
    [by apply llama_embd_normalize_length in Hstep|].
  destruct (llama_get_embeddings_ith api _ _);
    [by apply llama_embd_normalize_length in Hstep|].
  by injection Hstep as <-.
Qed.

Lemma manual_pooling_token_length (api : llama_api) (ctx : llama_context api)
    (batch : llama_batch) (output n_embd : Z) (i : nat) (st st' : pool_state) :
  manual_pooling_token api ctx batch output n_embd i st = Some st' →
  length (pool_output st') = length (pool_output st).
Proof.
  unfold manual_pooling_token. intros (sl & _ & Hstep)%bind_Some.
  destruct (logits sl); simpl in Hstep; [|by injection Hstep as <-].
  destruct (llama_get_embeddings_ith api _ _); [|by injection Hstep as <-].
  apply bind_Some in Hstep as (temp & _ & Hstep).
  destruct (negb (Z.of_nat i =? 0) && (pos sl =? 0)); [|by injection Hstep as <-].
  apply bind_Some in Hstep as (fresh & _ & Hstep).
  apply bind_Some in Hstep as (seq_tokens & _ & Hstep).
  apply bind_Some in Hstep as (prev & _ & Hstep).
  apply bind_Some in Hstep as (out & Hmean & [= <-]).
  simpl. by apply mean_pooling_length in Hmean.
Qed.

Lemma batch_decode_with_manual_pooling_length (api : llama_api)
    (ctx ctx' : llama_context api) (batch : llama_batch)
    (out_buf buf : list F32.float) (output n_seq n_embd : Z) :
  batch_decode_with_manual_pooling api ctx batch out_buf output n_seq n_embd
    = Some (ctx', buf) →
  length buf = length out_buf.
Proof.
  unfold batch_decode_with_manual_pooling, manual_pooling_loop.
  intros (st & Hrun & [= _ <-])%bind_Some.
  apply bind_Some in Hrun as (temp & _ & Hrun).
  revert Hrun.
  apply (for_upto_preserves (λ st, length (pool_output st) = length out_buf)); [|done].
  intros i t t' _ Hstep <-. by apply manual_pooling_token_length in Hstep.
Qed.

Lemma flush_machine_size (api : llama_api) (manual_pooling : bool) (n_embd : Z)
    (len : nat) (st : loop_state api) :
  machine_size api len (st_machine st) →
  machine_size api len (st_machine (flush api manual_pooling n_embd st)).
Proof.
  intros Hsize ctx' emb'. unfold flush. simpl.
  destruct (st_machine st) as [[ctx emb]|] eqn:Hm; [|by destruct manual_pooling].
  specialize (Hsize ctx emb eq_refl) as <-.
  destruct manual_pooling; simpl.
  - apply batch_decode_with_manual_pooling_length.
  - apply batch_decode_length.
Qed.

Lemma assemble_machine_size (api : llama_api) (manual_pooling : bool) (n_batch n_embd : Z)
    (len : nat) (inputs : list (list Z)) (st : loop_state api) :
  machine_size api len (st_machine st) →
  machine_size api len (st_machine (assemble api manual_pooling n_batch n_embd inputs st)).
Proof.
  unfold assemble. revert st. induction inputs as [|inp inputs IH]; intros st Hsize; [done|].
  simpl. apply IH. unfold assemble_step. cbn [st_machine].
  destruct (decide (batch_fits _ _)); [|done].
  case_decide; [by apply flush_machine_size | done].
Qed.

Lemma decode_all_machine_size (api : llama_api) (manual_pooling : bool) (n_batch n_embd : Z)
    (inputs : list (list Z)) (ctx : llama_context api) (emb : list F32.float) :
  machine_size api (length emb)
    (st_machine (decode_all api manual_pooling n_batch n_embd inputs (Some (ctx, emb)))).
Proof.
  unfold decode_all, final_batch. simpl.
  pose proof (assemble_machine_size api manual_pooling n_batch n_embd (length emb) inputs
                (LoopState [] 0 0 (Some (ctx, emb)) [])) as Hsize.
  destruct (st_machine (assemble _ _ _ _ _ _)) as [[ctx1 emb1]|]; [|done].
  intros ctx' emb'. simpl. rewrite <- (Hsize ltac:(by intros ? ? [= _ <-]) ctx1 emb1 eq_refl).
  apply batch_decode_length.
Qed.

(** ** The output *)

Lemma region_snoc (m : list F32.float) (off : Z) (n : nat) (x : F32.float) :
  0 ≤ off → load m (off + Z.of_nat n) = Some x →
  region m off (Z.of_nat (S n)) = region m off (Z.of_nat n) ++ [x].
Proof.
  intros Hoff Hx. unfold region. rewrite !Nat2Z.id.
  apply take_S_r. rewrite lookup_drop.
  unfold load in Hx. rewrite decide_True in Hx by lia.
  rewrite <- Hx. f_equal. lia.
Qed.

(** The inner loop of the preview collects one vector of the buffer. *)
Lemma preview_vector (emb : list F32.float) (off : Z) (n : nat) :
  0 ≤ off → off + Z.of_nat n ≤ Z.of_nat (length emb) →
  for_upto n (λ i v, x ← load emb (off + Z.of_nat i); Some (v ++ [x])) []
    = Some (region emb off (Z.of_nat n)).
Proof.
  intros Hoff. induction n as [|n IH]; intros Hn.
  - unfold region. by rewrite take_0.
  - rewrite for_upto_S, IH by lia. simpl.
    destruct (load_is_Some emb (off + Z.of_nat n)) as [x Hx]; [lia|].
    rewrite Hx. simpl. by rewrite (region_snoc _ _ _ x).
Qed.

Lemma preview_vectors (emb : list F32.float) (n_embd : Z) (m : nat) :
  0 ≤ n_embd → Z.of_nat m * n_embd ≤ Z.of_nat (length emb) →
  for_upto m
    (λ j vs,
       v ← for_upto (Z.to_nat n_embd)
             (λ i v, x ← load emb (Z.of_nat j * n_embd + Z.of_nat i); Some (v ++ [x])) [];
       Some (vs ++ [v])) []
  = Some ((λ j, region emb (Z.of_nat j * n_embd) n_embd) <$> seq 0 m).
Proof.
  intros Hembd. induction m as [|m IH]; intros Hm; [done|].
  rewrite for_upto_S, IH by nia. rewrite seq_S, fmap_app. simpl.
  rewrite preview_vector by (rewrite ?Z2Nat.id by lia; nia). simpl.
  by rewrite Z2Nat.id by lia.
Qed.

Lemma read_range_all (m : list F32.float) (n : Z) :
  Z.of_nat (length m) = n → read_range m 0 n = Some m.
Proof.
  intros Hn. unfold read_range. rewrite decide_True by lia.
  unfold region. rewrite drop_0, take_ge; [done|lia].
Qed.

Lemma output_sink_spec (api : llama_api) (logits_file : string) (emb : list F32.float)
    (n_prompts n_embd : Z) :
  0 ≤ n_prompts → 0 ≤ n_embd → Z.of_nat (length emb) = n_prompts * n_embd →
  output_sink api logits_file emb n_prompts n_embd =
  Some (if decide (logits_file = EmptyString) then
          [Printed ((λ j, region emb (Z.of_nat j * n_embd) n_embd)
                      <$> seq 0 (Z.to_nat (Z.min 3 n_prompts)))]
        else if fopen api logits_file then [FileWritten logits_file emb]
        else []).
Proof.
  intros Hp Hembd Hlen. unfold output_sink.
  destruct (decide (logits_file = EmptyString)) as [->|Hfile].
  - rewrite decide_False by (by intros []).
    rewrite preview_vectors; [done..|]. rewrite Z2Nat.id by lia. nia.
  - rewrite decide_True by done.
    destruct (fopen api logits_file); [|done].
    by rewrite read_range_all.
Qed.

(** C8. A run that reaches the output step with its embeddings buffer returns
    0.  The buffer holds [n_prompts * n_embd] floats, the vector of sequence
    [j] at offset [j * n_embd].  With a destination path the whole buffer is
    written to that file and nothing is printed; when the file cannot be
    opened nothing is written or printed.  Without a path the first
    [min (3, n_prompts)] vectors are printed and no file is written. *)
Theorem output_is_file_or_preview (api : llama_api) (params : gpt_params)
    (ctx : llama_context api) (emb : list F32.float)
    (Hembd : 0 ≤ llama_n_embd api)
    (Hrun : embeddings (main api params ctx) = Some emb) :
  let n_prompts := Z.of_nat (length (split_lines (prompt params))) in
  let n_embd := llama_n_embd api in
  exit_status (main api params ctx) = Returned 0 ∧
  Z.of_nat (length emb) = n_prompts * n_embd ∧
  sink (main api params ctx) =
  Some (if decide (logits_file params = EmptyString) then
          [Printed ((λ j, region emb (Z.of_nat j * n_embd) n_embd)
                      <$> seq 0 (Z.to_nat (Z.min 3 n_prompts)))]
        else if fopen api (logits_file params)
             then [FileWritten (logits_file params) emb]
        else []).
Proof.
  intros n_prompts n_embd. revert Hrun. unfold main.
  case_decide; [done|].
  destruct (tokenize_prompts _ _ _ _ _) as [inputs|]; [|done].
  cbn [embeddings exit_status sink]. fold n_prompts n_embd.
  pose proof (decode_all_machine_size api (manual_pooling params)
                (to_u64 (n_batch params)) n_embd (map (add_sep api) inputs) ctx
                (replicate (Z.to_nat (n_prompts * n_embd)) F32.zero)) as Hsize.
  destruct (st_machine (decode_all _ _ _ _ _ _)) as [[ctx' emb']|]; [|done].
  cbn [fmap option_fmap option_map snd mbind option_bind]. intros [= ->].
  specialize (Hsize ctx' emb eq_refl). rewrite length_replicate in Hsize.
  assert (Hlen : Z.of_nat (length emb) = n_prompts * n_embd) by (unfold n_prompts in *; nia).
  rewrite output_sink_spec by (done || lia). by split_and!.
Qed.

(** Three lines with the toy engine: without a path the three vectors are
    printed; with a path that opens the six floats are written; with a path
    that does not open nothing happens and the run returns 0. *)
Lemma output_is_file_or_preview_witness :
  sink (main (toy_api true true) (toy_params 8 "ab
cde
fghij" false "") [])
  = Some [Printed [[F32.div (F32.of_int 3) (F32.of_int 5); F32.div (F32.of_int 4) (F32.of_int 5)];
                   [F32.div (F32.of_int 3) (F32.of_int 5); F32.div (F32.of_int 4) (F32.of_int 5)];
                   [F32.div (F32.of_int 3) (F32.of_int 5); F32.div (F32.of_int 4) (F32.of_int 5)]]] ∧
  (∃ data, sink (main (toy_api true true) (toy_params 8 "ab
cde
fghij" false "out.bin") []) = Some [FileWritten "out.bin" data] ∧ length data = 6%nat) ∧
  sink (main (toy_api true false) (toy_params 8 "ab
cde
fghij" false "out.bin") []) = Some [] ∧
  exit_status (main (toy_api true false) (toy_params 8 "ab
cde
fghij" false "out.bin") []) = Returned 0.
Proof.
  pose (v := [F32.div (F32.of_int 3) (F32.of_int 5); F32.div (F32.of_int 4) (F32.of_int 5)]).
  split; [|split].
  - destruct (output_is_file_or_preview (toy_api true true) (toy_params 8 "ab
cde
fghij" false "") [] (v ++ v ++ v)) as (_ & _ & ->); [simpl; lia|reflexivity|reflexivity].
  - exists (v ++ v ++ v).
    destruct (output_is_file_or_preview (toy_api true true) (toy_params 8 "ab
cde
fghij" false "out.bin") [] (v ++ v ++ v)) as (_ & _ & ->); [simpl; lia|reflexivity|].
    split; reflexivity.
  - destruct (output_is_file_or_preview (toy_api true false) (toy_params 8 "ab
cde
fghij" false "out.bin") [] (v ++ v ++ v)) as (-> & _ & ->); [simpl; lia|reflexivity|].
    split; reflexivity.
Defined.

(** ** The batches *)

Lemma batch_add_seq_from_slots (batch : llama_batch) (size i : Z) (rest : list Z)
    (seq_id : Z) (all_tokens : bool) :
  batch_add_seq_from batch size i rest seq_id all_tokens =
  batch ++ imap (λ k t, Slot t (i + Z.of_nat k) seq_id
                          (all_tokens || (i + Z.of_nat k =? size - 1))) rest.
Proof.
  revert batch i. induction rest as [|t rest IH]; intros batch i; simpl.
  - by rewrite app_nil_r.
  - rewrite IH. unfold llama_batch_add. rewrite <- app_assoc. simpl.
    rewrite Z.add_0_r. do 2 f_equal. apply imap_ext. intros k x _. simpl.
    by replace (i + 1 + Z.of_nat k) with (i + Z.of_nat (S k)) by lia.
Qed.

Lemma batch_add_seq_slots (batch : llama_batch) (tokens : list Z) (seq_id : Z)
    (all_tokens : bool) :
  batch_add_seq batch tokens seq_id all_tokens = batch ++ seq_slots tokens seq_id all_tokens.
Proof. unfold batch_add_seq. by rewrite batch_add_seq_from_slots. Qed.

Lemma seq_slots_length (tokens : list Z) (seq_id : Z) (all_tokens : bool) :
  length (seq_slots tokens seq_id all_tokens) = length tokens.
Proof. apply length_imap. Qed.

Lemma seq_slots_tokens (tokens : list Z) (seq_id : Z) (all_tokens : bool) :
  token <$> seq_slots tokens seq_id all_tokens = tokens.
Proof.
  unfold seq_slots. generalize (Z.of_nat (length tokens) - 1). intros n.
  apply list_eq. intros i. rewrite list_lookup_fmap, list_lookup_imap.
  by destruct (tokens !! i).
Qed.

Lemma batch_of_group_from_snoc (group : list (list Z)) (inp : list Z) (seq_id : Z)
    (all_tokens : bool) :
  batch_of_group_from (group ++ [inp]) seq_id all_tokens =
  batch_of_group_from group seq_id all_tokens
    ++ seq_slots inp (seq_id + Z.of_nat (length group)) all_tokens.
Proof.
  revert seq_id. induction group as [|x group IH]; intros seq_id; simpl.
  - by rewrite app_nil_r, Z.add_0_r.
  - rewrite IH, <- app_assoc. do 3 f_equal. lia.
Qed.

Lemma batch_of_group_from_length (group : list (list Z)) (seq_id : Z) (all_tokens : bool) :
  length (batch_of_group_from group seq_id all_tokens) = length (concat group).
Proof.
  revert seq_id. induction group as [|x group IH]; intros seq_id; simpl; [done|].
  by rewrite !length_app, seq_slots_length, IH.
Qed.

Lemma batch_of_group_from_tokens (group : list (list Z)) (seq_id : Z) (all_tokens : bool) :
  token <$> batch_of_group_from group seq_id all_tokens = concat group.
Proof.
  revert seq_id. induction group as [|x group IH]; intros seq_id; simpl; [done|].
  by rewrite fmap_app, seq_slots_tokens, IH.
Qed.

Lemma batch_of_group_n_tokens (all_tokens : bool) (group : list (list Z)) :
  n_tokens (batch_of_group all_tokens group) = group_tokens group.
Proof. unfold n_tokens, group_tokens, batch_of_group. by rewrite batch_of_group_from_length. Qed.

Lemma group_tokens_snoc (group : list (list Z)) (inp : list Z) :
  group_tokens (group ++ [inp]) = group_tokens group + Z.of_nat (length inp).
Proof.
  unfold group_tokens. rewrite concat_app, length_app. simpl.
  rewrite app_nil_r. lia.
Qed.

Lemma add_u64_small (x y : Z) : 0 ≤ x → 0 ≤ y → x + y < 2 ^ 64 → add_u64 x y = x + y.
Proof. intros Hx Hy Hxy. unfold add_u64. apply Z.mod_small. lia. Qed.

Lemma flushed_on_overflow_grow (n_batch : Z) (gs : list (list (list Z)))
    (cur : list (list Z)) (inp : list Z) :
  (cur = [] → gs = []) →
  flushed_on_overflow n_batch (gs ++ [cur]) →
  flushed_on_overflow n_batch (gs ++ [cur ++ [inp]]).
Proof.
  intros Hcur Hgreedy i g g' Hg Hg'.
  destruct (decide (S i < length gs)%nat) as [Hi|Hi].
  - rewrite lookup_app_l in Hg, Hg' by lia.
    apply (Hgreedy i); by rewrite lookup_app_l by lia.
  - destruct (decide (S i = length gs)) as [Hlast|Hbeyond].
    + rewrite lookup_app_l in Hg by lia.
      rewrite lookup_app_r, Hlast, Nat.sub_diag in Hg' by lia.
      injection Hg' as <-.
      destruct (Hgreedy i g cur) as (x & Hx & Hover).
      * by rewrite lookup_app_l by lia.
      * by rewrite lookup_app_r, Hlast, Nat.sub_diag by lia.
      * exists x. split; [|done]. destruct cur; [done|]. done.
    + apply lookup_lt_Some in Hg'. rewrite length_app in Hg'. simpl in Hg'. lia.
Qed.

Lemma flushed_on_overflow_flush (n_batch : Z) (gs : list (list (list Z)))
    (cur : list (list Z)) (inp : list Z) :
  group_tokens cur + Z.of_nat (length inp) > n_batch →
  flushed_on_overflow n_batch (gs ++ [cur]) →
  flushed_on_overflow n_batch ((gs ++ [cur]) ++ [[inp]]).
Proof.
  intros Hover Hgreedy i g g' Hg Hg'.
  destruct (decide (S i < length (gs ++ [cur]))%nat) as [Hi|Hi].
  - rewrite lookup_app_l in Hg, Hg' by lia. by apply (Hgreedy i).
  - assert (Hlen : length (gs ++ [cur]) = S (length gs))
      by (rewrite length_app; simpl; lia).
    destruct (decide (S i = length (gs ++ [cur]))) as [Hlast|Hbeyond].
    + rewrite lookup_app_r, Hlast, Nat.sub_diag in Hg' by lia.
      injection Hg' as <-.
      rewrite lookup_app_l in Hg by lia.
      rewrite lookup_app_r in Hg by lia.
      replace (i - length gs)%nat with O in Hg by lia.
      injection Hg as <-. by exists inp.
    + apply lookup_lt_Some in Hg'. rewrite length_app in Hg'. simpl in Hg'. lia.
Qed.

Lemma assemble_snoc (api : llama_api) (manual_pooling : bool) (n_batch n_embd : Z)
    (inputs : list (list Z)) (inp : list Z) (st : loop_state api) :
  assemble api manual_pooling n_batch n_embd (inputs ++ [inp]) st =
  assemble_step api manual_pooling n_batch n_embd
    (assemble api manual_pooling n_batch n_embd inputs st) inp.
Proof. unfold assemble. by rewrite foldl_app. Qed.

(** One iteration of the loop keeps the description of the state by
    groups. *)
Lemma assemble_step_assembled (api : llama_api) (manual_pooling : bool)
    (n_batch n_embd : Z) (inputs : list (list Z)) (inp : list Z) (st : loop_state api)
    (gs : list (list (list Z))) (cur : list (list Z)) :
  0 ≤ n_batch < 2 ^ 63 →
  Z.of_nat (length inp) ≤ n_batch →
  assembled api manual_pooling n_batch n_embd inputs st gs cur →
  ∃ gs' cur',
    assembled api manual_pooling n_batch n_embd (inputs ++ [inp])
      (assemble_step api manual_pooling n_batch n_embd st inp) gs' cur'.
Proof.
  intros Hcap Hinp (Hin & Hbatches & Hnseq & Hout & Hb & Hs & Hp & Hfit & Hne & Hcur & Hgreedy).
  assert (Hcurfit : group_tokens cur ≤ n_batch).
  { apply Forall_app in Hfit as [_ Hc]. by rewrite Forall_singleton in Hc. }
  assert (Hpos : 0 ≤ group_tokens cur) by (unfold group_tokens; lia).
  unfold assemble_step. rewrite Hb, batch_of_group_n_tokens.
  rewrite add_u64_small by lia.
  destruct (decide (group_tokens cur + Z.of_nat (length inp) > n_batch)) as [Hover|Hroom].
  - (* the batch is decoded, and the sequence starts the next one *)
    exists (gs ++ [cur]), [inp].
    assert (Hcurne : cur ≠ []) by (intros ->; unfold group_tokens in Hover; simpl in Hover; lia).
    unfold flush. cbn [st_batch st_p st_s st_machine st_calls].
    rewrite Hb, Hs, Hp. unfold llama_batch_clear.
    unfold assembled. cbn [st_batch st_p st_s st_machine st_calls]. split_and!.
    + rewrite concat_app. simpl. by rewrite app_nil_r, Hin.
    + rewrite !fmap_app, Hbatches. f_equal. by destruct manual_pooling.
    + rewrite !fmap_app, Hnseq. f_equal. by destruct manual_pooling.
    + intros i c Hc.
      assert (Hcalls : length (st_calls st) = length gs).
      { by rewrite <- (length_fmap call_batch), Hbatches, length_fmap. }
      destruct (decide (i < length (st_calls st))%nat) as [Hi|Hi].
      * rewrite lookup_app_l in Hc by done. rewrite take_app_le by lia. by apply Hout.
      * rewrite lookup_app_r in Hc by lia.
        destruct (i - length (st_calls st))%nat as [|k] eqn:Hk; [|done].
        assert (i = length gs) as -> by lia.
        rewrite take_app_length. injection Hc as <-. by destruct manual_pooling.
    + rewrite batch_add_seq_slots. unfold batch_of_group. simpl. by rewrite app_nil_r.
    + done.
    + rewrite concat_app, length_app. simpl. rewrite app_nil_r. lia.
    + apply Forall_app. split; [done|]. apply Forall_singleton.
      unfold group_tokens. simpl. rewrite app_nil_r. lia.
    + apply Forall_app. split; [done|]. by apply Forall_singleton.
    + done.
    + by apply flushed_on_overflow_flush.
  - (* the sequence joins the batch *)
    exists gs, (cur ++ [inp]).
    unfold assembled. cbn [st_batch st_p st_s st_machine st_calls]. split_and!; try done.
    + by rewrite <- Hin, <- app_assoc.
    + rewrite Hb, Hs, batch_add_seq_slots. unfold batch_of_group.
      by rewrite batch_of_group_from_snoc.
    + rewrite Hs, length_app. simpl. lia.
    + apply Forall_app in Hfit as [Hgs _]. apply Forall_app. split; [done|].
      apply Forall_singleton. rewrite group_tokens_snoc. lia.
    + intros Hnil. by apply app_eq_nil in Hnil as [_ ?].
    + by apply flushed_on_overflow_grow.
Qed.

Lemma assemble_assembled (api : llama_api) (manual_pooling : bool) (n_batch n_embd : Z)
    (inputs : list (list Z)) (m : machine api) :
  0 ≤ n_batch < 2 ^ 63 →
  Forall (λ inp, Z.of_nat (length inp) ≤ n_batch) inputs →
  ∃ gs cur,
    assembled api manual_pooling n_batch n_embd inputs
      (assemble api manual_pooling n_batch n_embd inputs (LoopState [] 0 0 m [])) gs cur.
Proof.
  intros Hcap. induction inputs as [|inp inputs IH] using rev_ind; intros Hall.
  - exists [], []. unfold assembled. split_and!; try done.
    simpl. apply Forall_singleton. unfold group_tokens. simpl. lia.
  - apply Forall_app in Hall as [Hall Hinp]. rewrite Forall_singleton in Hinp.
    destruct (IH Hall) as (gs & cur & Hinv).
    rewrite assemble_snoc. by eapply assemble_step_assembled.
Qed.

Lemma batches_tokens (all_tokens : bool) (groups : list (list (list Z))) :
  token <$> concat (batch_of_group all_tokens <$> groups) = concat (concat groups).
Proof.
  induction groups as [|g groups IH]; [done|].
  rewrite fmap_cons. cbn [concat]. rewrite fmap_app, IH. unfold batch_of_group.
  by rewrite batch_of_group_from_tokens, concat_app.
Qed.

(** C3. For a capacity [n_batch] and sequences of at most [n_batch] tokens
    each, the batches handed to the extractors, the final one included, hold
    the sequences of consecutive groups of the input: the groups put together
    are the input in its order, each batch consists of the whole sequences of
    its group and has at most [n_batch] tokens, the tokens of the batches one
    after the other are the tokens of the input, and a group ends exactly
    where the next sequence does not fit into the batch any more. *)
Theorem batches_partition_inputs (api : llama_api) (manual_pooling : bool)
    (n_batch n_embd : Z) (inputs : list (list Z)) (m : machine api)
    (Hcap : 0 ≤ n_batch < 2 ^ 63)
    (Hall : Forall (λ inp, Z.of_nat (length inp) ≤ n_batch) inputs) :
  let calls := st_calls (decode_all api manual_pooling n_batch n_embd inputs m) in
  let batches := call_batch <$> calls in
  ∃ groups : list (list (list Z)),
    concat groups = inputs ∧
    batches = batch_of_group manual_pooling <$> groups ∧
    Forall (λ batch, n_tokens batch ≤ n_batch) batches ∧
    token <$> concat batches = concat inputs ∧
    flushed_on_overflow n_batch groups ∧
    (Forall (λ g, g ≠ []) groups ∨ inputs = [] ∧ groups = [[]]) ∧
    call_n_seq <$> calls = (λ g, Z.of_nat (length g)) <$> groups ∧
    (∀ i c, calls !! i = Some c →
       call_output c = Z.of_nat (length (concat (take i groups))) * n_embd).
Proof.
  intros calls batches.
  destruct (assemble_assembled api manual_pooling n_batch n_embd inputs m Hcap Hall)
    as (gs & cur & Hin & Hbatches & Hnseq & Hout & Hb & Hs & Hp & Hfit & Hne & Hcur & Hgreedy).
  set (st := assemble api manual_pooling n_batch n_embd inputs (LoopState [] 0 0 m [])) in *.
  assert (Hcalls : calls = st_calls st ++ [Call_batch_decode (st_batch st) (st_p st * n_embd) (st_s st)])
    by done.
  assert (Hlen : length (st_calls st) = length gs).
  { by rewrite <- (length_fmap call_batch), Hbatches, length_fmap. }
  assert (Hgroups : batches = batch_of_group manual_pooling <$> (gs ++ [cur])).
  { unfold batches. rewrite Hcalls, !fmap_app, Hbatches. simpl. by rewrite Hb. }
  exists (gs ++ [cur]). split_and!.
  - rewrite concat_app. simpl. by rewrite app_nil_r.
  - done.
  - rewrite Hgroups. apply Forall_fmap. eapply Forall_impl; [exact Hfit|].
    intros g Hg. simpl. by rewrite batch_of_group_n_tokens.
  - rewrite Hgroups, batches_tokens. do 2 f_equal.
    rewrite concat_app. simpl. by rewrite app_nil_r.
  - done.
  - destruct cur as [|inp cur].
    + right. rewrite (Hcur eq_refl) in *. by rewrite <- Hin.
    + left. apply Forall_app. split; [done|]. by apply Forall_singleton.
  - rewrite Hcalls, !fmap_app, Hnseq. simpl. by rewrite Hs.
  - intros i c Hc. rewrite Hcalls in Hc.
    destruct (decide (i < length (st_calls st))%nat) as [Hi|Hi].
    + rewrite lookup_app_l in Hc by done. rewrite take_app_le by lia. by apply Hout.
    + rewrite lookup_app_r in Hc by lia.
      destruct (i - length (st_calls st))%nat as [|k] eqn:Hk; [|done].
      assert (i = length gs) as -> by lia.
      rewrite take_app_length. injection Hc as <-. simpl. by rewrite Hp.
Qed.

(** Two sequences of four and six tokens and a capacity of eight. *)
Lemma batches_partition_inputs_witness :
  let inputs := [[1; 2; 3; 10]; [4; 5; 6; 7; 8; 10]] in
  let calls := st_calls (decode_all (toy_api true true) false 8 2 inputs (Some ([], []))) in
  length calls = 2%nat ∧
  ∃ groups : list (list (list Z)),
    concat groups = inputs ∧
    call_batch <$> calls = batch_of_group false <$> groups ∧
    Forall (λ batch, n_tokens batch ≤ 8) (call_batch <$> calls) ∧
    token <$> concat (call_batch <$> calls) = concat inputs ∧
    flushed_on_overflow 8 groups ∧
    (Forall (λ g, g ≠ []) groups ∨ inputs = [] ∧ groups = [[]]) ∧
    call_n_seq <$> calls = (λ g, Z.of_nat (length g)) <$> groups ∧
    (∀ i c, calls !! i = Some c →
       call_output c = Z.of_nat (length (concat (take i groups))) * 2).
Proof.
  split; [reflexivity|].
  apply (batches_partition_inputs (toy_api true true) false 8 2
           [[1; 2; 3; 10]; [4; 5; 6; 7; 8; 10]] (Some ([], []))).
  - lia.
  - repeat constructor; simpl; lia.
Defined.

(** The batch of every call holds whole sequences, numbered from 0 on. *)
Lemma decoded_batches_are_groups (api : llama_api) (manual_pooling : bool)
    (n_batch n_embd : Z) (inputs : list (list Z)) (m : machine api) :
  Forall (λ c, ∃ group, call_batch c = batch_of_group manual_pooling group)
    (st_calls (decode_all api manual_pooling n_batch n_embd inputs m)).
Proof.
  assert (Hloop : ∀ st,
    let st' := assemble api manual_pooling n_batch n_embd inputs st in
    (∃ cur, st_batch st = batch_of_group manual_pooling cur ∧
            st_s st = Z.of_nat (length cur)) →
    Forall (λ c, ∃ group, call_batch c = batch_of_group manual_pooling group) (st_calls st) →
    (∃ cur, st_batch st' = batch_of_group manual_pooling cur ∧
            st_s st' = Z.of_nat (length cur)) ∧
    Forall (λ c, ∃ group, call_batch c = batch_of_group manual_pooling group) (st_calls st')).
  { unfold assemble. induction inputs as [|inp inputs IH]; intros st; [done|].
    intros (cur & Hb & Hs) Hcalls. simpl. apply IH; unfold assemble_step.
    - case_decide.
      + exists [inp]. cbn [flush st_batch st_s]. unfold llama_batch_clear.
        rewrite batch_add_seq_slots. unfold batch_of_group. simpl.
        by rewrite app_nil_r.
      + exists (cur ++ [inp]). cbn [st_batch st_s].
        rewrite Hb, Hs, batch_add_seq_slots, length_app. unfold batch_of_group.
        rewrite batch_of_group_from_snoc. simpl. split; [done|lia].
    - case_decide; [|done]. cbn [flush st_calls].
      apply Forall_app. split; [done|]. apply Forall_singleton.
      exists cur. by destruct manual_pooling. }
  unfold decode_all, final_batch. cbn [st_calls].
  destruct (Hloop (LoopState [] 0 0 m [])) as [(cur & Hb & _) Hcalls].
  - by exists [].
  - done.
  - apply Forall_app. split; [done|]. apply Forall_singleton. by exists cur.
Qed.

(** ** The divisor of the mean *)

(** Without tokens the third loop divides the zero of every component by
    zero: the function returns, and the output vector holds NaNs. *)
Lemma mean_pooling_no_tokens (embd out_buf : list F32.float) (out n_embd : Z) :
  0 ≤ out → out + n_embd ≤ Z.of_nat (length out_buf) →
  ∃ buf, mean_pooling embd out_buf out 0 n_embd = Some buf ∧
    length buf = length out_buf ∧
    (∀ j, 0 ≤ j < n_embd → load buf (out + j) = Some S754_nan) ∧
    (∀ k, ¬ (out ≤ k < out + n_embd) → load buf k = load out_buf k).
Proof.
  intros Hout Hfits. unfold mean_pooling.
  destruct (mean_pooling_clear out_buf out n_embd Hout Hfits)
    as (b1 & -> & Hf1 & Hz1). cbn [mbind option_bind].
  destruct (mean_pooling_sums embd out_buf out 0 n_embd Hout Hfits ltac:(lia) b1 Hf1 Hz1)
    as (b2 & -> & Hf2 & Hs2). cbn [mbind option_bind].
  destruct (mean_pooling_divide out_buf out 0 n_embd Hout Hfits b2
              (λ j, F32.sum (column embd n_embd j (Z.to_nat 0))) Hf2 Hs2)
    as (b3 & -> & [Hl3 Hf3] & Hd3).
  exists b3. split_and!; [done..| |done].
  intros j Hj. by rewrite Hd3.
Qed.

Lemma manual_pooling_token_count (api : llama_api) (ctx : llama_context api)
    (batch : llama_batch) (output n_embd : Z) (i : nat) (st st' : pool_state) :
  manual_pooling_token api ctx batch output n_embd i st = Some st' →
  0 ≤ token_of_seq st →
  0 ≤ token_of_seq st' ∧
  ∀ sl, batch !! i = Some sl → logits sl = true →
    is_Some (llama_get_embeddings_ith api ctx (Z.of_nat i)) →
    1 ≤ token_of_seq st'.
Proof.
  unfold manual_pooling_token. intros (sl & Hsl & Hstep)%bind_Some Hcount.
  destruct (logits sl) eqn:Hlogits; simpl in Hstep.
  2: { injection Hstep as <-. split; [done|]. intros sl' Hsl' Hl'. congruence. }
  destruct (llama_get_embeddings_ith api ctx (Z.of_nat i)) as [embd|].
  2: { injection Hstep as <-. split; [done|]. by intros sl' _ _ [? ?]. }
  apply bind_Some in Hstep as (temp & _ & Hstep).
  destruct (negb (Z.of_nat i =? 0) && (pos sl =? 0)).
  - apply bind_Some in Hstep as (fresh & _ & Hstep).
    apply bind_Some in Hstep as (seq_tokens & _ & Hstep).
    apply bind_Some in Hstep as (prev & _ & Hstep).
    apply bind_Some in Hstep as (out & _ & [= <-]). simpl. split; [lia|]. intros. lia.
  - injection Hstep as <-. simpl. split; [lia|]. intros. lia.
Qed.

Lemma manual_pooling_loop_count (api : llama_api) (ctx : llama_context api)
    (batch : llama_batch) (out_buf : list F32.float) (output n_embd : Z) (n : nat)
    (st : pool_state) :
  manual_pooling_loop api ctx batch out_buf output n_embd n = Some st →
  0 ≤ token_of_seq st.
Proof.
  unfold manual_pooling_loop. intros (temp & _ & Hrun)%bind_Some. revert Hrun.
  apply (for_upto_preserves (λ st, 0 ≤ token_of_seq st)); [|done].
  intros i t t' _ Hstep Ht. by apply manual_pooling_token_count in Hstep as [? _].
Qed.

(** After an iteration on an output position whose embedding is there, the
    count of the tokens of the sequence is at least one. *)
Lemma manual_pooling_loop_counted (api : llama_api) (ctx : llama_context api)
    (batch : llama_batch) (out_buf : list F32.float) (output n_embd : Z) (k : nat)
    (st : pool_state) (sl : slot) :
  manual_pooling_loop api ctx batch out_buf output n_embd (S k) = Some st →
  batch !! k = Some sl → logits sl = true →
  is_Some (llama_get_embeddings_ith api ctx (Z.of_nat k)) →
  1 ≤ token_of_seq st.
Proof.
  intros Hrun Hsl Hlogits Hfetch.
  assert (∃ st0, manual_pooling_loop api ctx batch out_buf output n_embd k = Some st0 ∧
                 manual_pooling_token api ctx batch output n_embd k st0 = Some st)
    as (st0 & Hst0 & Hstep).
  { unfold manual_pooling_loop in *. apply bind_Some in Hrun as (temp & -> & Hrun).
    simpl. rewrite for_upto_S in Hrun. by apply bind_Some in Hrun. }
  apply manual_pooling_loop_count in Hst0.
  apply manual_pooling_token_count in Hstep as [_ Hone]; [|done]. by eapply Hone.
Qed.

Lemma seq_slots_lookup (tokens : list Z) (sid : Z) (all_tokens : bool) (i : nat)
    (sl : slot) :
  seq_slots tokens sid all_tokens !! i = Some sl →
  pos sl = Z.of_nat i ∧ seq_id sl = sid ∧
  logits sl = all_tokens || (Z.of_nat i =? Z.of_nat (length tokens) - 1).
Proof.
  unfold seq_slots. rewrite list_lookup_imap.
  destruct (tokens !! i); [|done]. by intros [= <-].
Qed.

(** In an assembled batch the slot before a slot at position 0 is the last
    one of a sequence, an output position. *)
Lemma batch_of_group_from_boundary (group : list (list Z)) (seq_id : Z) (all_tokens : bool)
    (k : nat) (sl : slot) :
  batch_of_group_from group seq_id all_tokens !! S k = Some sl → pos sl = 0 →
  ∃ prev, batch_of_group_from group seq_id all_tokens !! k = Some prev ∧
    logits prev = true.
Proof.
  revert seq_id k. induction group as [|inp group IH]; intros seq_id k Hsl Hpos; [done|].
  cbn [batch_of_group_from] in *.
  destruct (decide (S k < length inp)%nat) as [Hin|Hout].
  - rewrite lookup_app_l in Hsl by (by rewrite seq_slots_length).
    apply seq_slots_lookup in Hsl as (Hp & _). lia.
  - rewrite lookup_app_r in Hsl by (rewrite seq_slots_length; lia).
    rewrite seq_slots_length in Hsl.
    destruct (decide (S k = length inp)) as [Hlast|Hlater].
    + destruct (lookup_lt_is_Some_2 (seq_slots inp seq_id all_tokens) k) as [prev Hprev];
        [rewrite seq_slots_length; lia|].
      exists prev. rewrite lookup_app_l by (rewrite seq_slots_length; lia).
      split; [done|]. apply seq_slots_lookup in Hprev as (_ & _ & ->).
      rewrite orb_true_iff. right. lia.
    + replace (S k - length inp)%nat with (S (k - length inp)) in Hsl by lia.
      destruct (IH _ _ Hsl Hpos) as (prev & Hprev & Hlogits).
      exists prev. rewrite lookup_app_r by (rewrite seq_slots_length; lia).
      by rewrite seq_slots_length.
Qed.

(** C10. [mean_pooling] divides by [n_tokens] unguarded: without tokens the
    division is reached all the same, the function returns and every
    component of the output vector is the NaN of zero by zero.  With
    [n_tokens >= 1] and buffers that hold the vectors every operation of it
    is defined.  In the manual-pooling extractor, on a batch put together by
    [batch_add_seq], whenever iteration [i] calls [mean_pooling] and the
    embeddings of the output positions from some earlier token on were all
    there, the argument [token_of_seq] is at least 1. *)
Theorem mean_pooling_divisor (embd out_buf : list F32.float) (out n_tokens n_embd : Z)
    (Hn : 1 ≤ n_tokens) (Hout : 0 ≤ out)
    (Hfits : out + n_embd ≤ Z.of_nat (length out_buf))
    (Hembd : n_tokens * n_embd ≤ Z.of_nat (length embd)) :
  (∃ buf, mean_pooling embd out_buf out 0 n_embd = Some buf ∧
     ∀ j, 0 ≤ j < n_embd → load buf (out + j) = Some S754_nan) ∧
  is_Some (mean_pooling embd out_buf out n_tokens n_embd) ∧
  ∀ (api : llama_api) (ctx : llama_context api) (all_tokens : bool)
    (group : list (list Z)) (emb : list F32.float) (output : Z)
    (i b : nat) (st : pool_state) (sl : slot),
    let batch := batch_of_group all_tokens group in
    (* the loop reaches iteration [i], which calls [mean_pooling] *)
    manual_pooling_loop api ctx batch emb output n_embd i = Some st →
    batch !! i = Some sl → logits sl = true →
    is_Some (llama_get_embeddings_ith api ctx (Z.of_nat i)) →
    i ≠ O → pos sl = 0 →
    (* the embeddings since token [b] were there *)
    (b < i)%nat →
    (∀ j sl', (b ≤ j < i)%nat → batch !! j = Some sl' → logits sl' = true →
       is_Some (llama_get_embeddings_ith api ctx (Z.of_nat j))) →
    1 ≤ token_of_seq st.
Proof.
  split_and!.
  - destruct (mean_pooling_no_tokens embd out_buf out n_embd Hout Hfits)
      as (buf & Hrun & _ & Hnan & _). by exists buf.
  - destruct (mean_pooling_correct embd out_buf out n_tokens n_embd Hn Hout Hfits Hembd)
      as (buf & -> & _). by eexists.
  - intros api ctx all_tokens group emb output i b st sl batch
      Hloop Hsl Hlogits Hfetch Hi Hpos Hb Hsince.
    destruct i as [|k]; [done|].
    destruct (batch_of_group_from_boundary group 0 all_tokens k sl Hsl Hpos)
      as (prev & Hprev & Hmarked).
    eapply manual_pooling_loop_counted; [exact Hloop|exact Hprev|exact Hmarked|].
    apply (Hsince k prev); [lia|done..].
Qed.

(** Three tokens pool; no tokens give two NaNs; and in the batch of the
    sequences "ab" and "c" the call at the first token of the second sequence
    has [token_of_seq = 3]. *)
Lemma mean_pooling_divisor_witness :
  (∃ buf, mean_pooling three_tokens [F32.zero; F32.zero] 0 0 2 = Some buf ∧
     load buf 0 = Some S754_nan ∧ load buf 1 = Some S754_nan) ∧
  is_Some (mean_pooling three_tokens [F32.zero; F32.zero] 0 3 2) ∧
  ∃ st,
    manual_pooling_loop (toy_api false true)
      (batch_of_group true [[97; 98; 10]; [99; 10]])
      (batch_of_group true [[97; 98; 10]; [99; 10]])
      (replicate 4 F32.zero) 0 2 3 = Some st ∧
    1 ≤ token_of_seq st.
Proof.
  destruct (mean_pooling_divisor three_tokens [F32.zero; F32.zero] 0 3 2)
    as ((buf & Hzero & Hnan) & Hsome & Hcall); [simpl; lia..|].
  split.
  { exists buf. split; [exact Hzero|]. split; [apply (Hnan 0)|apply (Hnan 1)]; lia. }
  split; [exact Hsome|].
  eexists. split; [vm_compute; reflexivity|].
  eapply (Hcall (toy_api false true) (batch_of_group true [[97; 98; 10]; [99; 10]])
            true [[97; 98; 10]; [99; 10]] (replicate 4 F32.zero) 0 3%nat 0%nat).
  - vm_compute. reflexivity.
  - reflexivity.
  - reflexivity.
  - vm_compute. by eexists.
  - lia.
  - reflexivity.
  - lia.
  - intros j sl' Hj Hsl' _.
    destruct j as [|[|[|j]]]; [| | |lia]; vm_compute; by eexists.
Defined.

(** ** The native-pooling extractor *)

Lemma region_lookup (m : list F32.float) (off len : Z) (k : nat) :
  region m off len !! k =
  if decide (k < Z.to_nat len)%nat then m !! (Z.to_nat off + k)%nat else None.
Proof. unfold region. rewrite lookup_take. case_decide; [apply lookup_drop|done]. Qed.

Lemma region_written (m vs : list F32.float) (off : Z) :
  0 ≤ off → off + Z.of_nat (length vs) ≤ Z.of_nat (length m) →
  region (list_inserts (Z.to_nat off) vs m) off (Z.of_nat (length vs)) = vs.
Proof.
  intros Hoff Hfits. apply list_eq. intros k. rewrite region_lookup.
  case_decide as Hk.
  - rewrite list_lookup_inserts by lia. f_equal. lia.
  - symmetry. apply lookup_ge_None. lia.
Qed.

Lemma region_not_written (m vs : list F32.float) (off off' len : Z) :
  0 ≤ off → 0 ≤ off' →
  off' + len ≤ off ∨ off + Z.of_nat (length vs) ≤ off' →
  region (list_inserts (Z.to_nat off) vs m) off' len = region m off' len.
Proof.
  intros Hoff Hoff' Hapart. apply list_eq. intros k. rewrite !region_lookup.
  case_decide as Hk; [|done].
  destruct Hapart; [apply list_lookup_inserts_lt | apply list_lookup_inserts_ge]; lia.
Qed.

Lemma region_replicate (n : nat) (x : F32.float) (off len : Z) :
  0 ≤ off → 0 ≤ len → off + len ≤ Z.of_nat n →
  region (replicate n x) off len = replicate (Z.to_nat len) x.
Proof.
  intros Hoff Hlen Hfits. apply list_eq. intros k. rewrite region_lookup.
  case_decide as Hk.
  - rewrite !lookup_replicate_2 by lia. done.
  - symmetry. apply lookup_replicate_None. lia.
Qed.

Lemma normalize_length (v : list F32.float) : length (normalize v) = length v.
Proof. unfold normalize. destruct (F32.is_zero _); [done|]. apply length_map. Qed.

Lemma sum_squares_zero (n : nat) :
  F32.sum (map (λ x, F32.mul x x) (replicate n F32.zero)) = F32.zero.
Proof.
  unfold F32.sum. induction n as [|n IH]; [done|]. simpl. exact IH.
Qed.

Lemma normalize_zero (n : nat) :
  normalize (replicate n F32.zero) = replicate n F32.zero.
Proof. unfold normalize, l2_norm. by rewrite sum_squares_zero. Qed.

Lemma llama_embd_normalize_writes (inp out_buf : list F32.float) (out n : Z) :
  0 ≤ n ≤ Z.of_nat (length inp) → 0 ≤ out → out + n ≤ Z.of_nat (length out_buf) →
  llama_embd_normalize inp out_buf out n =
  Some (list_inserts (Z.to_nat out) (normalize (take (Z.to_nat n) inp)) out_buf) ∧
  Z.of_nat (length (normalize (take (Z.to_nat n) inp))) = n.
Proof.
  intros Hn Hout Hfits.
  assert (Hlen : Z.of_nat (length (normalize (take (Z.to_nat n) inp))) = n).
  { rewrite normalize_length, length_take. lia. }
  split; [|done]. unfold llama_embd_normalize, read_range.
  rewrite decide_True by lia. simpl. unfold region. rewrite drop_0.
  unfold write_range. by rewrite decide_True by lia.
Qed.

Section BatchDecode.
Variables (api : llama_api) (ctx : llama_context api) (batch : llama_batch).
Variables (out_buf : list F32.float) (output n_embd : Z).
Hypothesis Hembd : 0 ≤ n_embd.
Hypothesis Hdistinct : one_output_per_seq batch.
Hypothesis Hregions : ∀ i sl, batch !! i = Some sl → logits sl = true →
  0 ≤ output + seq_id sl * n_embd ∧
  output + seq_id sl * n_embd + n_embd ≤ Z.of_nat (length out_buf).
Hypothesis Hseq : ∀ q embd,
  llama_get_embeddings_seq api ctx q = Some embd → n_embd ≤ Z.of_nat (length embd).
Hypothesis Hith : ∀ i embd,
  llama_get_embeddings_ith api ctx i = Some embd → n_embd ≤ Z.of_nat (length embd).

Lemma batch_decode_token_step (n : nat) (buf : list F32.float) :
  (n < length batch)%nat → decoded_upto api ctx batch out_buf output n_embd n buf →
  ∃ buf', batch_decode_token api ctx batch output n_embd n buf = Some buf' ∧
    decoded_upto api ctx batch out_buf output n_embd (S n) buf'.
Proof.
  intros Hn [Hlen Hinv].
  destruct (lookup_lt_is_Some_2 batch n Hn) as [sl Hsl].
  unfold batch_decode_token. rewrite Hsl. simpl.
  assert (Hskip : (logits sl = true → native_vector api ctx n_embd n sl = None) →
                  decoded_upto api ctx batch out_buf output n_embd (S n) buf).
  { intros Hnone. split; [done|]. intros j sl' Hsl' Hl'. rewrite (Hinv j sl' Hsl' Hl').
    destruct (native_vector api ctx n_embd j sl') as [v|] eqn:Hv; [|done].
    destruct (decide (j = n)) as [->|Hne].
    - rewrite Hsl in Hsl'. injection Hsl' as <-. rewrite Hnone in Hv; done.
    - do 2 case_decide; try lia; done. }
  destruct (logits sl) eqn:Hlogits; simpl.
  2: { exists buf. split; [done|]. by apply Hskip. }
  destruct (Hregions n sl Hsl Hlogits) as [Hlo Hhi].
  assert (Hwrite : ∀ embd, n_embd ≤ Z.of_nat (length embd) →
            native_vector api ctx n_embd n sl
              = Some (normalize (take (Z.to_nat n_embd) embd)) →
            ∃ buf', llama_embd_normalize embd buf (output + seq_id sl * n_embd) n_embd
                      = Some buf' ∧ decoded_upto api ctx batch out_buf output n_embd (S n) buf').
  { intros embd Hfull Hvec.
    destruct (llama_embd_normalize_writes embd buf (output + seq_id sl * n_embd) n_embd)
      as [-> Hvlen]; [lia..|].
    eexists. split; [done|]. split; [by rewrite length_inserts|].
    intros j sl' Hsl' Hl'.
    destruct (decide (j = n)) as [->|Hne].
    - rewrite Hsl in Hsl'. injection Hsl' as <-. rewrite Hvec, decide_True by lia.
      pose proof (region_written buf (normalize (take (Z.to_nat n_embd) embd))
                    (output + seq_id sl * n_embd) Hlo) as Hw.
      rewrite Hvlen in Hw. apply Hw. lia.
    - assert (Hids : seq_id sl' ≠ seq_id sl).
      { intros Heq. apply Hne. by apply (Hdistinct j n sl' sl). }
      destruct (Hregions j sl' Hsl' Hl') as [Hlo' Hhi'].
      rewrite region_not_written by (rewrite ?Hvlen; nia).
      rewrite (Hinv j sl' Hsl' Hl').
      destruct (native_vector api ctx n_embd j sl'); [|done].
      do 2 case_decide; try lia; done. }
  unfold native_vector in Hskip, Hwrite.
  destruct (llama_get_embeddings_seq api ctx (seq_id sl)) as [embd|] eqn:Hpooled.
  { apply Hwrite; [by eapply Hseq | done]. }
  destruct (llama_get_embeddings_ith api ctx (Z.of_nat n)) as [embd|] eqn:Hraw.
  { apply Hwrite; [by eapply Hith | done]. }
  exists buf. split; [done|]. by apply Hskip.
Qed.

Lemma batch_decode_loop :
  ∃ buf, for_upto (length batch) (batch_decode_token api ctx batch output n_embd) out_buf
           = Some buf ∧
    decoded_upto api ctx batch out_buf output n_embd (length batch) buf.
Proof.
  apply (for_upto_invariant (decoded_upto api ctx batch out_buf output n_embd)).
  - split; [done|]. intros j sl Hsl Hl.
    destruct (native_vector api ctx n_embd j sl); [|done].
    by rewrite decide_False by lia.
  - intros i buf Hi Hinv. by apply batch_decode_token_step.
Qed.
End BatchDecode.

Lemma batch_of_group_from_seq_ids (group : list (list Z)) (sid : Z) (all_tokens : bool)
    (i : nat) (sl : slot) :
  batch_of_group_from group sid all_tokens !! i = Some sl →
  sid ≤ seq_id sl < sid + Z.of_nat (length group).
Proof.
  revert sid i. induction group as [|inp group IH]; intros sid i Hsl; [done|].
  cbn [batch_of_group_from] in Hsl. apply lookup_app_Some in Hsl as [Hsl | [_ Hsl]].
  - apply seq_slots_lookup in Hsl as (_ & -> & _). simpl. lia.
  - apply IH in Hsl. simpl. lia.
Qed.

(** A batch assembled for native pooling has one output position for each
    of its sequences, the last token. *)
Lemma batch_of_group_from_one_output (group : list (list Z)) (sid : Z) :
  one_output_per_seq (batch_of_group_from group sid false).
Proof.
  revert sid. induction group as [|inp group IH]; intros sid i j sl sl' Hi Hj Hl Hl' Hids;
    [done|].
  cbn [batch_of_group_from] in Hi, Hj.
  apply lookup_app_Some in Hi as [Hi | [Hilen Hi]];
    apply lookup_app_Some in Hj as [Hj | [Hjlen Hj]].
  - apply seq_slots_lookup in Hi as (_ & _ & Hli).
    apply seq_slots_lookup in Hj as (_ & _ & Hlj).
    rewrite Hl in Hli. rewrite Hl' in Hlj. simpl in Hli, Hlj. lia.
  - apply seq_slots_lookup in Hi as (_ & Hid & _).
    apply batch_of_group_from_seq_ids in Hj. lia.
  - apply seq_slots_lookup in Hj as (_ & Hid & _).
    apply batch_of_group_from_seq_ids in Hi. lia.
  - pose proof (IH (sid + 1) _ _ _ _ Hi Hj Hl Hl' Hids). lia.
Qed.

(** C6. On a batch with one output position for each sequence, as assembled
    for native pooling, with regions inside the output buffer and engine
    vectors of [n_embd] floats, [batch_decode] succeeds, and for every output
    position: when the pooled embedding of its sequence is there, the region
    of its sequence id holds that vector normalized; when only the raw
    embedding of the position is there, it holds that one normalized; when
    neither is there, the iteration leaves the buffer alone and the region is
    as it was at the start, all zero in a buffer of zeros.  Normalizing
    divides every component by the Euclidean norm, and leaves a vector of
    norm zero, the zero vector among them, as it is. *)
Theorem batch_decode_writes_normalized (api : llama_api) (ctx : llama_context api)
    (batch : llama_batch) (out_buf : list F32.float) (output n_seq n_embd : Z)
    (Hembd : 0 ≤ n_embd)
    (Hdistinct : one_output_per_seq batch)
    (Hregions : ∀ i sl, batch !! i = Some sl → logits sl = true →
       0 ≤ output + seq_id sl * n_embd ∧
       output + seq_id sl * n_embd + n_embd ≤ Z.of_nat (length out_buf))
    (Hseq : ∀ q embd, llama_get_embeddings_seq api (decoded api ctx batch) q = Some embd →
       n_embd ≤ Z.of_nat (length embd))
    (Hith : ∀ i embd, llama_get_embeddings_ith api (decoded api ctx batch) i = Some embd →
       n_embd ≤ Z.of_nat (length embd)) :
  ∃ buf,
    batch_decode api ctx batch out_buf output n_seq n_embd
      = Some (decoded api ctx batch, buf) ∧
    length buf = length out_buf ∧
    (∀ i sl, batch !! i = Some sl → logits sl = true →
       let out := output + seq_id sl * n_embd in
       match llama_get_embeddings_seq api (decoded api ctx batch) (seq_id sl) with
       | Some embd => region buf out n_embd = normalize (take (Z.to_nat n_embd) embd)
       | None =>
           match llama_get_embeddings_ith api (decoded api ctx batch) (Z.of_nat i) with
           | Some embd => region buf out n_embd = normalize (take (Z.to_nat n_embd) embd)
           | None =>
               (∀ b, batch_decode_token api (decoded api ctx batch) batch output n_embd i b
                     = Some b) ∧
               region buf out n_embd = region out_buf out n_embd ∧
               (out_buf = replicate (length out_buf) F32.zero →
                region buf out n_embd = replicate (Z.to_nat n_embd) F32.zero)
           end
       end) ∧
    (∀ v, F32.is_zero (l2_norm v) = false →
       normalize v = map (λ x, F32.div x (l2_norm v)) v) ∧
    (∀ v, F32.is_zero (l2_norm v) = true → normalize v = v) ∧
    (∀ n, normalize (replicate n F32.zero) = replicate n F32.zero).
Proof.
  destruct (batch_decode_loop api (decoded api ctx batch) batch out_buf output n_embd
              Hembd Hdistinct Hregions Hseq Hith) as (buf & Hrun & Hlen & Hinv).
  exists buf. split_and!.
  - unfold batch_decode. fold (decoded api ctx batch). by rewrite Hrun.
  - done.
  - intros i sl Hsl Hlogits out.
    pose proof (Hinv i sl Hsl Hlogits) as Hregion. fold out in Hregion.
    pose proof (lookup_lt_Some _ _ _ Hsl) as Hi.
    unfold native_vector in Hregion.
    destruct (llama_get_embeddings_seq api _ (seq_id sl)) eqn:Hpooled.
    { by rewrite decide_True in Hregion by lia. }
    destruct (llama_get_embeddings_ith api _ (Z.of_nat i)) eqn:Hraw.
    { by rewrite decide_True in Hregion by lia. }
    split_and!.
    + intros b. unfold batch_decode_token. rewrite Hsl. simpl.
      by rewrite Hlogits, Hpooled, Hraw.
    + done.
    + intros Hzero. rewrite Hregion, Hzero.
      destruct (Hregions i sl Hsl Hlogits). apply region_replicate; unfold out; lia.
  - intros v Hnorm. unfold normalize. by rewrite Hnorm.
  - intros v Hnorm. unfold normalize. by rewrite Hnorm.
  - apply normalize_zero.
Qed.

(** The sequences "ab" and "c" with the toy engine without pooled
    embeddings: the raw embeddings (10, 2) and (10, 1) of the two separators
    are written normalized. *)
Lemma batch_decode_writes_normalized_witness :
  ∃ buf,
    batch_decode (toy_api false true) []
      (batch_of_group false [[97; 98; 10]; [99; 10]]) (replicate 4 F32.zero) 0 2 2
      = Some (batch_of_group false [[97; 98; 10]; [99; 10]], buf) ∧
    region buf 0 2 = normalize [F32.of_int 10; F32.of_int 2] ∧
    region buf 2 2 = normalize [F32.of_int 10; F32.of_int 1].
Proof.
  destruct (batch_decode_writes_normalized (toy_api false true) []
              (batch_of_group false [[97; 98; 10]; [99; 10]])
              (replicate 4 F32.zero) 0 2 2)
    as (buf & Hrun & _ & Hregions & _).
  - lia.
  - apply batch_of_group_from_one_output.
  - intros i sl Hsl _.
    destruct i as [|[|[|[|[|i]]]]]; [..|done]; injection Hsl as <-; simpl; lia.
  - intros q embd Hq. simpl in Hq. discriminate.
  - intros i embd Hi. simpl in Hi.
    destruct (decide (0 ≤ i)); [|done].
    destruct (_ !! Z.to_nat i) as [sl|]; [simpl in Hi|done].
    destruct (logits sl); [|done]. injection Hi as <-. simpl. lia.
  - exists buf. split; [exact Hrun|]. split.
    + exact (Hregions 2%nat (Slot 10 2 0 true) eq_refl eq_refl).
    + exact (Hregions 4%nat (Slot 10 1 1 true) eq_refl eq_refl).
Defined.

(** ** The last batch, and the last sequence of a batch *)

(** Whatever the pooling mode, the last call is a call of [batch_decode]. *)
Lemma final_batch_call (api : llama_api) (manual_pooling : bool) (n_batch n_embd : Z)
    (inputs : list (list Z)) (m : machine api) :
  ∃ batch out n_seq,
    last (st_calls (decode_all api manual_pooling n_batch n_embd inputs m))
      = Some (Call_batch_decode batch out n_seq).
Proof.
  unfold decode_all, final_batch. cbn [st_calls]. do 3 eexists. apply last_snoc.
Qed.

(** C1. A run with manual pooling on the single line "ab": its only batch,
    the final one, goes to [batch_decode], and the embedding written is the
    normalized raw embedding (10, 2) of the separator, not a mean. *)
Theorem manual_run_final_batch_native :
  let r := main (toy_api false true) (toy_params 8 "ab" true "") [] in
  calls r = [Call_batch_decode (batch_of_group true [[97; 98; 10]]) 0 1] ∧
  embeddings r = Some (normalize [F32.of_int 10; F32.of_int 2]).
Proof. split; reflexivity. Qed.

(** On a batch of one sequence the manual-pooling extractor writes
    nothing. *)
Lemma manual_pooling_single_sequence (api : llama_api) (ctx ctx' : llama_context api)
    (tokens : list Z) (sid : Z) (out_buf buf : list F32.float) (output n_seq n_embd : Z) :
  batch_decode_with_manual_pooling api ctx (seq_slots tokens sid true) out_buf output
    n_seq n_embd = Some (ctx', buf) →
  buf = out_buf.
Proof.
  unfold batch_decode_with_manual_pooling, manual_pooling_loop.
  intros (st & Hrun & [= _ <-])%bind_Some.
  apply bind_Some in Hrun as (temp & _ & Hrun). revert Hrun.
  apply (for_upto_preserves (λ st, pool_output st = out_buf)); [|done].
  intros i t t' _ Hstep <-. unfold manual_pooling_token in Hstep.
  apply bind_Some in Hstep as (sl & Hsl & Hstep).
  apply seq_slots_lookup in Hsl as (Hpos & _).
  destruct (logits sl); simpl in Hstep; [|by injection Hstep as <-].
  destruct (llama_get_embeddings_ith api _ _); [|by injection Hstep as <-].
  apply bind_Some in Hstep as (temp' & _ & Hstep).
  destruct (negb (Z.of_nat i =? 0) && (pos sl =? 0)) eqn:Hboundary.
  - apply andb_true_iff in Hboundary as [Hi Hp].
    apply negb_true_iff in Hi. lia.
  - by injection Hstep as <-.
Qed.

Lemma for_upto_frame (P : Z → Prop) (n : nat)
    (body : nat → list F32.float → option (list F32.float)) (m m' : list F32.float) :
  (∀ i t t', (i < n)%nat → body i t = Some t' → ∀ k, P k → load t' k = load t k) →
  for_upto n body m = Some m' → ∀ k, P k → load m' k = load m k.
Proof.
  intros Hbody. apply (for_upto_preserves (λ t, ∀ k, P k → load t k = load m k)); [|done].
  intros i t t' Hi Hstep Ht k Hk. rewrite (Hbody i t t' Hi Hstep k Hk). by apply Ht.
Qed.

Lemma store_frame (m m' : list F32.float) (k k' : Z) (v : F32.float) :
  store m k v = Some m' → k' ≠ k → load m' k' = load m k'.
Proof. intros [Hk ->]%store_inv Hne. apply load_insert_ne; lia. Qed.

(** [mean_pooling] writes the output vector only. *)
Lemma mean_pooling_frame (embd out_buf buf : list F32.float) (out n_tokens n_embd : Z) :
  mean_pooling embd out_buf out n_tokens n_embd = Some buf →
  ∀ k, ¬ (out ≤ k < out + n_embd) → load buf k = load out_buf k.
Proof.
  unfold mean_pooling. intros Hrun k Hk.
  apply bind_Some in Hrun as (b1 & H1 & Hrun).
  apply bind_Some in Hrun as (b2 & H2 & H3).
  transitivity (load b2 k); [|transitivity (load b1 k)].
  - revert H3 k Hk. apply for_upto_frame. intros i t t' Hi Hst k Hk.
    apply bind_Some in Hst as (x & _ & Hst).
    apply (store_frame _ _ _ _ _ Hst). lia.
  - revert H2 k Hk. apply for_upto_frame. intros i t t' _ Hin. revert Hin.
    apply for_upto_frame. intros j u u' Hj Hst k Hk.
    apply bind_Some in Hst as (x & _ & Hst). apply bind_Some in Hst as (e & _ & Hst).
    apply (store_frame _ _ _ _ _ Hst). lia.
  - revert H1 k Hk. apply for_upto_frame. intros i t t' Hi Hst k Hk.
    apply (store_frame _ _ _ _ _ Hst). lia.
Qed.

(** In an assembled batch the sequence ids grow at a slot of position 0. *)
Lemma batch_of_group_from_next_seq (group : list (list Z)) (sid : Z) (all_tokens : bool)
    (k : nat) (prev sl : slot) :
  batch_of_group_from group sid all_tokens !! k = Some prev →
  batch_of_group_from group sid all_tokens !! S k = Some sl → pos sl = 0 →
  seq_id prev < seq_id sl.
Proof.
  revert sid k. induction group as [|inp group IH]; intros sid k Hprev Hsl Hpos; [done|].
  cbn [batch_of_group_from] in *.
  apply lookup_app_Some in Hsl as [Hsl | [Hlen Hsl]].
  { apply seq_slots_lookup in Hsl as (Hp & _). lia. }
  rewrite seq_slots_length in Hlen, Hsl.
  apply lookup_app_Some in Hprev as [Hprev | [Hlen' Hprev]].
  - apply seq_slots_lookup in Hprev as (_ & -> & _).
    apply batch_of_group_from_seq_ids in Hsl. lia.
  - rewrite seq_slots_length in Hlen', Hprev.
    replace (S k - length inp)%nat with (S (k - length inp)) in Hsl by lia.
    by apply (IH (sid + 1) (k - length inp)%nat).
Qed.

(** The manual-pooling extractor leaves the region of the last sequence of
    an assembled batch, and all that follows it, as it finds them. *)
Lemma manual_pooling_last_region (api : llama_api) (ctx ctx' : llama_context api)
    (group : list (list Z)) (out_buf buf : list F32.float) (output n_seq n_embd : Z) :
  0 ≤ n_embd →
  batch_decode_with_manual_pooling api ctx (batch_of_group true group) out_buf output
    n_seq n_embd = Some (ctx', buf) →
  ∀ k, output + (Z.of_nat (length group) - 1) * n_embd ≤ k → load buf k = load out_buf k.
Proof.
  intros Hembd. unfold batch_decode_with_manual_pooling, manual_pooling_loop.
  intros (st & Hrun & [= _ <-])%bind_Some.
  apply bind_Some in Hrun as (temp & _ & Hrun). revert Hrun.
  apply (for_upto_preserves
           (λ st, ∀ k, output + (Z.of_nat (length group) - 1) * n_embd ≤ k →
                       load (pool_output st) k = load out_buf k)); [|done].
  intros i t t' _ Hstep Ht k Hk. rewrite <- (Ht k Hk).
  unfold manual_pooling_token in Hstep.
  apply bind_Some in Hstep as (sl & Hsl & Hstep).
  destruct (logits sl); simpl in Hstep; [|by injection Hstep as <-].
  destruct (llama_get_embeddings_ith api _ _); [|by injection Hstep as <-].
  apply bind_Some in Hstep as (temp' & _ & Hstep).
  destruct (negb (Z.of_nat i =? 0) && (pos sl =? 0)) eqn:Hboundary;
    [|by injection Hstep as <-].
  apply andb_true_iff in Hboundary as [Hi Hpos]. apply negb_true_iff in Hi.
  apply bind_Some in Hstep as (fresh & _ & Hstep).
  apply bind_Some in Hstep as (seq_tokens & _ & Hstep).
  apply bind_Some in Hstep as (prev & Hprev & Hstep).
  apply bind_Some in Hstep as (out & Hmean & [= <-]). simpl.
  apply (mean_pooling_frame _ _ _ _ _ _ Hmean).
  destruct i as [|i]; [done|]. simpl in Hprev. rewrite Nat.sub_0_r in Hprev.
  apply Z.eqb_eq in Hpos.
  pose proof (batch_of_group_from_next_seq group 0 true i prev sl Hprev Hsl Hpos).
  pose proof (batch_of_group_from_seq_ids group 0 true (S i) sl Hsl). nia.
Qed.

(** C2. The manual-pooling extractor on batches whose embeddings are all
    there.  One sequence "ab": the buffer is left as it was, all zero.  Two
    sequences "ab" and "c": the mean of the first is written, the region of
    the second, the last one, is left all zero.  A whole run with manual
    pooling on the lines "ab" and "cd" with a capacity of four: the first
    line is decoded alone by the manual-pooling extractor, and its embedding
    stays zero. *)
Theorem manual_pooling_last_sequence_not_written :
  let api := toy_api false true in
  let one := batch_of_group true [[97; 98; 10]] in
  let two := batch_of_group true [[97; 98; 10]; [99; 10]] in
  let mean := [F32.div (F32.sum [F32.of_int 97; F32.of_int 98; F32.of_int 10]) (F32.of_int 3);
               F32.div (F32.sum [F32.of_int 0; F32.of_int 1; F32.of_int 2]) (F32.of_int 3)] in
  (∀ i, (i < length two)%nat →
     is_Some (llama_get_embeddings_ith api (decoded api [] two) (Z.of_nat i))) ∧
  batch_decode_with_manual_pooling api [] one (replicate 2 F32.zero) 0 1 2
    = Some (one, replicate 2 F32.zero) ∧
  batch_decode_with_manual_pooling api [] two (replicate 4 F32.zero) 0 2 2
    = Some (two, mean ++ replicate 2 F32.zero) ∧
  embeddings (main api (toy_params 4 "ab
cd" true "") [])
    = Some (replicate 2 F32.zero ++ normalize [F32.of_int 10; F32.of_int 2]).
Proof.
  split_and!.
  - intros i Hi. destruct i as [|[|[|[|[|i]]]]]; [..|simpl in Hi; lia]; by eexists.
  - reflexivity.
  - reflexivity.
  - reflexivity.
Qed.

(** * Further properties *)

(** ** Lines *)

Lemma append_cons (x : ascii) (a b : string) : String x a +:+ b = String x (a +:+ b).
Proof. reflexivity. Qed.

Lemma append_assoc (a b c : string) : (a +:+ b) +:+ c = a +:+ (b +:+ c).
Proof. induction a as [|x a IH]; [done|]. by rewrite !append_cons, IH. Qed.

Lemma append_empty_r (a : string) : a +:+ EmptyString = a.
Proof. induction a as [|x a IH]; [done|]. by rewrite append_cons, IH. Qed.

Lemma terminated_append (a b : string) :
  b ≠ EmptyString → terminated (a +:+ b) = a +:+ terminated b.
Proof.
  intros Hb. induction a as [|x a IH]; [done|].
  rewrite !append_cons. cbn [terminated]. f_equal. rewrite <- IH.
  destruct a as [|y a]; [|done]. by destruct b.
Qed.

Lemma has_newline_append (a b : string) :
  has_newline (a +:+ b) = has_newline a || has_newline b.
Proof.
  induction a as [|x a IH]; [done|]. rewrite append_cons. cbn [has_newline].
  by rewrite IH, orb_assoc.
Qed.

Lemma terminated_line (a : string) :
  has_newline a = false → a ≠ EmptyString →
  terminated a = a +:+ String newline EmptyString.
Proof.
  induction a as [|x a IH]; [done|]. cbn [has_newline].
  intros [Hx Ha]%orb_false_iff _. apply bool_decide_eq_false in Hx.
  rewrite append_cons. cbn [terminated]. f_equal.
  destruct a as [|y a]; [by rewrite decide_False|]. by apply IH.
Qed.

Lemma split_lines_from_unlines (s line : string) :
  has_newline line = false →
  unlines (split_lines_from s line) = terminated (line +:+ s).
Proof.
  revert line. induction s as [|c s IH]; intros line Hline; cbn [split_lines_from].
  - rewrite append_empty_r. case_decide as Hempty; [by subst|].
    cbn [unlines foldr]. rewrite terminated_line by done. reflexivity.
  - case_decide as Hc.
    + subst c. cbn [unlines foldr]. fold (unlines (split_lines_from s EmptyString)).
      rewrite IH by done. change (EmptyString +:+ s) with s.
      rewrite terminated_append by discriminate.
      f_equal. cbn [terminated]. by destruct s.
    + rewrite IH.
      * by rewrite append_assoc.
      * rewrite has_newline_append, Hline. cbn [has_newline].
        by rewrite bool_decide_eq_false_2.
Qed.

Lemma split_lines_from_no_newline (s line : string) :
  has_newline line = false →
  Forall (λ l, has_newline l = false) (split_lines_from s line).
Proof.
  revert line. induction s as [|c s IH]; intros line Hline; cbn [split_lines_from].
  - case_decide; [done|]. by apply Forall_singleton.
  - case_decide as Hc.
    + apply Forall_cons. split; [done|]. by apply IH.
    + apply IH. rewrite has_newline_append, Hline. cbn [has_newline].
      by rewrite bool_decide_eq_false_2.
Qed.

(** X1. The lines of a text put together again, each followed by a newline,
    are the text, with a newline added at its end when the text is not empty
    and does not end with one; an empty text has no lines, and no line holds
    a newline. *)
Theorem split_lines_unlines (s : string) :
  unlines (split_lines s) = terminated s ∧
  Forall (λ line, has_newline line = false) (split_lines s) ∧
  (split_lines s = [] ↔ s = EmptyString).
Proof.
  unfold split_lines. split_and!.
  - by rewrite split_lines_from_unlines.
  - by apply split_lines_from_no_newline.
  - split; [|by intros ->].
    destruct s as [|c s]; [done|]. cbn [split_lines_from].
    case_decide; [done|].
    intros Hnil.
    pose proof (split_lines_from_unlines s (EmptyString +:+ String c EmptyString)) as Hu.
    rewrite Hnil in Hu.
    change ((EmptyString +:+ String c EmptyString) +:+ s) with (String c s) in Hu.
    change (EmptyString +:+ String c EmptyString) with (String c EmptyString) in Hu.
    cbn [has_newline unlines foldr terminated] in Hu.
    rewrite bool_decide_eq_false_2 in Hu by done. by specialize (Hu eq_refl).
Qed.

(** ** Adding a sequence to a batch *)

(** X2. [batch_add_seq] keeps the slots of the batch and appends one slot
    for each token, in order: token [i] of the sequence at position [i], with
    the given sequence id, an output position when [all_tokens] is set or
    the token is the last one.  The batch grows by the size of the
    sequence. *)
Theorem batch_add_seq_appends (batch : llama_batch) (tokens : list Z) (sid : Z)
    (all_tokens : bool) :
  let batch' := batch_add_seq batch tokens sid all_tokens in
  n_tokens batch' = n_tokens batch + Z.of_nat (length tokens) ∧
  take (length batch) batch' = batch ∧
  ∀ i, batch' !! (length batch + i)%nat =
       (λ t, Slot t (Z.of_nat i) sid
               (all_tokens || bool_decide (S i = length tokens))) <$> tokens !! i.
Proof.
  intros batch'. unfold batch'. rewrite batch_add_seq_slots. split_and!.
  - unfold n_tokens. rewrite length_app, seq_slots_length. lia.
  - by rewrite take_app_length.
  - intros i. rewrite lookup_app_r by lia.
    replace (length batch + i - length batch)%nat with i by lia.
    unfold seq_slots. rewrite list_lookup_imap.
    destruct (tokens !! i) as [t|]; [simpl|done]. do 3 f_equal.
    case_bool_decide; [apply Z.eqb_eq | apply Z.eqb_neq]; lia.
Qed.

Lemma n_outputs_app (b1 b2 : llama_batch) :
  n_outputs (b1 ++ b2) = (n_outputs b1 + n_outputs b2)%nat.
Proof. unfold n_outputs. by rewrite filter_app, length_app. Qed.

Lemma n_outputs_singleton (sl : slot) :
  n_outputs [sl] = if logits sl then 1%nat else O.
Proof.
  unfold n_outputs. destruct (logits sl) eqn:Hl.
  - by rewrite filter_cons_True.
  - rewrite filter_cons_False; [done|]. by rewrite Hl.
Qed.

Lemma n_outputs_imap_from (rest : list Z) (sid : Z) (all_tokens : bool) (size : Z) (i : nat) :
  size = Z.of_nat (i + length rest) →
  n_outputs (imap (λ k t, Slot t (Z.of_nat (i + k)) sid
                           (all_tokens || (Z.of_nat (i + k) =? size - 1))) rest)
  = if all_tokens then length rest else if decide (rest = []) then O else 1%nat.
Proof.
  revert i. induction rest as [|t rest IH]; intros i Hsize.
  - by destruct all_tokens.
  - rewrite imap_cons. change (?x :: ?l) with ([x] ++ l). rewrite n_outputs_app.
    rewrite (imap_ext _ (λ k t, Slot t (Z.of_nat (S i + k)) sid
                               (all_tokens || (Z.of_nat (S i + k) =? size - 1)))).
    2: { intros k x _. simpl. by replace (i + S k)%nat with (S (i + k)) by lia. }
    rewrite IH by (simpl in Hsize; lia).
    rewrite n_outputs_singleton. cbn [logits]. rewrite Nat.add_0_r.
    destruct all_tokens; [reflexivity|]. cbn [orb].
    rewrite (decide_False (P := [t] ++ rest = [])) by done.
    destruct rest as [|t' rest].
    + rewrite decide_True by done. simpl in Hsize.
      by replace (Z.of_nat i =? size - 1) with true by (symmetry; apply Z.eqb_eq; lia).
    + rewrite decide_False by done. simpl in Hsize.
      by replace (Z.of_nat i =? size - 1) with false by (symmetry; apply Z.eqb_neq; lia).
Qed.

(** X3. [batch_add_seq] adds one output position for every token when
    [all_tokens] is set; without it, exactly one for a sequence that has
    tokens, and none for an empty sequence, which leaves the batch as it
    is. *)
Theorem batch_add_seq_outputs (batch : llama_batch) (tokens : list Z) (sid : Z)
    (all_tokens : bool) :
  n_outputs (batch_add_seq batch tokens sid all_tokens) =
    (n_outputs batch +
     if all_tokens then length tokens else if decide (tokens = []) then O else 1)%nat ∧
  batch_add_seq batch [] sid all_tokens = batch.
Proof.
  split; [|done]. rewrite batch_add_seq_slots, n_outputs_app. f_equal.
  unfold seq_slots.
  by rewrite <- (n_outputs_imap_from tokens sid all_tokens (Z.of_nat (length tokens)) 0).
Qed.

(** ** The calls of the assembly *)

Lemma assemble_step_grouped (api : llama_api) (manual_pooling : bool)
    (n_batch n_embd : Z) (inputs : list (list Z)) (inp : list Z) (st : loop_state api)
    (gs : list (list (list Z))) (cur : list (list Z)) :
  grouped api manual_pooling n_embd inputs st gs cur →
  ∃ gs' cur',
    grouped api manual_pooling n_embd (inputs ++ [inp])
      (assemble_step api manual_pooling n_batch n_embd st inp) gs' cur'.
Proof.
  intros (Hin & Hbatches & Hnseq & Hout & Hkinds & Hb & Hs & Hp).
  unfold assemble_step. case_decide.
  - exists (gs ++ [cur]), [inp].
    unfold flush, grouped. cbn [st_batch st_p st_s st_machine st_calls].
    rewrite Hb, Hs, Hp. unfold llama_batch_clear. split_and!.
    + rewrite concat_app. simpl. by rewrite app_nil_r, Hin.
    + rewrite !fmap_app, Hbatches. f_equal. by destruct manual_pooling.
    + rewrite !fmap_app, Hnseq. f_equal. by destruct manual_pooling.
    + intros i c Hc.
      assert (Hcalls : length (st_calls st) = length gs).
      { by rewrite <- (length_fmap call_batch), Hbatches, length_fmap. }
      destruct (decide (i < length (st_calls st))%nat) as [Hi|Hi].
      * rewrite lookup_app_l in Hc by done. rewrite take_app_le by lia. by apply Hout.
      * rewrite lookup_app_r in Hc by lia.
        destruct (i - length (st_calls st))%nat as [|k] eqn:Hk; [|done].
        assert (i = length gs) as -> by lia.
        rewrite take_app_length. injection Hc as <-. by destruct manual_pooling.
    + apply Forall_app. split; [done|]. apply Forall_singleton. by destruct manual_pooling.
    + rewrite batch_add_seq_slots. unfold batch_of_group. simpl. by rewrite app_nil_r.
    + done.
    + rewrite concat_app, length_app. simpl. rewrite app_nil_r. lia.
  - exists gs, (cur ++ [inp]).
    unfold grouped. cbn [st_batch st_p st_s st_machine st_calls]. split_and!; try done.
    + by rewrite <- Hin, <- app_assoc.
    + rewrite Hb, Hs, batch_add_seq_slots. unfold batch_of_group.
      by rewrite batch_of_group_from_snoc.
    + rewrite Hs, length_app. simpl. lia.
Qed.

Lemma assemble_grouped (api : llama_api) (manual_pooling : bool) (n_batch n_embd : Z)
    (inputs : list (list Z)) (m : machine api) :
  ∃ gs cur,
    grouped api manual_pooling n_embd inputs
      (assemble api manual_pooling n_batch n_embd inputs (LoopState [] 0 0 m [])) gs cur.
Proof.
  induction inputs as [|inp inputs IH] using rev_ind.
  - exists [], []. unfold grouped. by split_and!.
  - destruct IH as (gs & cur & Hinv).
    rewrite assemble_snoc. by eapply assemble_step_grouped.
Qed.

(** X4. For a capacity below 2^63 and sequences of at most [n_batch] tokens
    each, the batches handed to the extractors hold the sequences of
    consecutive groups of the input, whole and in order: no sequence is
    split, cut or left out, every batch has room in the [n_batch] slots, the
    tokens of the batches one after the other are the tokens of the input,
    and the sequence counts of the calls add up to the number of
    sequences. *)
Theorem sequences_are_never_cut (api : llama_api) (manual_pooling : bool)
    (n_batch n_embd : Z) (inputs : list (list Z)) (m : machine api)
    (Hcap : 0 ≤ n_batch < 2 ^ 63)
    (Hall : Forall (λ inp, Z.of_nat (length inp) ≤ n_batch) inputs) :
  let calls := st_calls (decode_all api manual_pooling n_batch n_embd inputs m) in
  ∃ groups : list (list (list Z)),
    concat groups = inputs ∧
    call_batch <$> calls = batch_of_group manual_pooling <$> groups ∧
    Forall (batch_fits n_batch) (call_batch <$> calls) ∧
    token <$> concat (call_batch <$> calls) = concat inputs ∧
    call_n_seq <$> calls = (λ g, Z.of_nat (length g)) <$> groups ∧
    foldr Z.add 0 (call_n_seq <$> calls) = Z.of_nat (length inputs).
Proof.
  intros calls.
  destruct (assemble_assembled api manual_pooling n_batch n_embd inputs m Hcap Hall)
    as (gs & cur & Hin & Hbatches & Hnseq & _ & Hb & Hs & _ & Hfit & _).
  set (st := assemble api manual_pooling n_batch n_embd inputs (LoopState [] 0 0 m [])) in *.
  assert (Hcalls : calls = st_calls st ++ [Call_batch_decode (st_batch st) (st_p st * n_embd) (st_s st)])
    by done.
  assert (Hgroups : call_batch <$> calls = batch_of_group manual_pooling <$> (gs ++ [cur])).
  { rewrite Hcalls, !fmap_app, Hbatches. simpl. by rewrite Hb. }
  assert (Hcounts : call_n_seq <$> calls = (λ g, Z.of_nat (length g)) <$> (gs ++ [cur])).
  { rewrite Hcalls, !fmap_app, Hnseq. simpl. by rewrite Hs. }
  assert (Hconcat : concat (gs ++ [cur]) = inputs).
  { rewrite concat_app. simpl. by rewrite app_nil_r. }
  exists (gs ++ [cur]). split_and!; try done.
  - rewrite Hgroups. apply Forall_fmap. eapply Forall_impl; [exact Hfit|].
    intros g Hg. unfold compose, batch_fits. by rewrite batch_of_group_n_tokens.
  - by rewrite Hgroups, batches_tokens, Hconcat.
  - rewrite Hcounts, <- Hconcat. clear. induction (gs ++ [cur]) as [|g l IH]; [done|].
    rewrite fmap_cons. cbn [foldr concat]. rewrite IH, length_app. lia.
Qed.

(** Two sequences of four and six tokens and a capacity of eight: two
    batches of one sequence each. *)
Lemma sequences_are_never_cut_witness :
  let inputs := [[1; 2; 3; 10]; [4; 5; 6; 7; 8; 10]] in
  let calls := st_calls (decode_all (toy_api true true) true 8 2 inputs (Some ([], []))) in
  ∃ groups : list (list (list Z)),
    concat groups = inputs ∧
    call_batch <$> calls = batch_of_group true <$> groups ∧
    Forall (batch_fits 8) (call_batch <$> calls) ∧
    token <$> concat (call_batch <$> calls) = concat inputs ∧
    call_n_seq <$> calls = (λ g, Z.of_nat (length g)) <$> groups ∧
    foldr Z.add 0 (call_n_seq <$> calls) = 2.
Proof.
  apply (sequences_are_never_cut (toy_api true true) true 8 2
           [[1; 2; 3; 10]; [4; 5; 6; 7; 8; 10]] (Some ([], []))).
  - lia.
  - repeat constructor; simpl; lia.
Defined.

(** X5. Without manual pooling every call is a call of [batch_decode]; with
    it, every call but the last one is a call of
    [batch_decode_with_manual_pooling].  There is always a last call: a run
    decodes at least one batch, and at most one more than there are
    sequences. *)
Theorem calls_by_pooling_mode (api : llama_api) (manual_pooling : bool)
    (n_batch n_embd : Z) (inputs : list (list Z)) (m : machine api) :
  ∃ flushes batch out n_seq,
    st_calls (decode_all api manual_pooling n_batch n_embd inputs m)
      = flushes ++ [Call_batch_decode batch out n_seq] ∧
    Forall (λ c, call_is_manual c = manual_pooling) flushes ∧
    (length flushes ≤ length inputs)%nat.
Proof.
  assert (Hcount : ∀ l st,
    (length (st_calls (assemble api manual_pooling n_batch n_embd l st))
     ≤ length (st_calls st) + length l)%nat).
  { unfold assemble. induction l as [|inp l IH]; intros st; simpl; [lia|].
    etransitivity; [apply IH|]. unfold assemble_step. cbn [st_calls].
    case_decide; [|lia]. unfold flush. cbn [st_calls]. rewrite length_app. simpl. lia. }
  destruct (assemble_grouped api manual_pooling n_batch n_embd inputs m)
    as (gs & cur & _ & _ & _ & _ & Hkinds & _).
  do 4 eexists. split_and!; [reflexivity|exact Hkinds|].
  apply (Hcount inputs (LoopState [] 0 0 m [])).
Qed.

Lemma assemble_app (api : llama_api) (manual_pooling : bool) (n_batch n_embd : Z)
    (l1 l2 : list (list Z)) (st : loop_state api) :
  assemble api manual_pooling n_batch n_embd (l1 ++ l2) st =
  assemble api manual_pooling n_batch n_embd l2
    (assemble api manual_pooling n_batch n_embd l1 st).
Proof. unfold assemble. by rewrite foldl_app. Qed.

(** Once the run has left the defined behaviour it stays there. *)
Lemma assemble_undefined (api : llama_api) (manual_pooling : bool) (n_batch n_embd : Z)
    (l : list (list Z)) (st : loop_state api) :
  st_machine st = None →
  st_machine (assemble api manual_pooling n_batch n_embd l st) = None.
Proof.
  unfold assemble. revert st. induction l as [|inp l IH]; intros st Hm; [done|].
  simpl. apply IH. unfold assemble_step. cbn [st_machine].
  destruct (decide (batch_fits _ _)); [|done].
  case_decide; [|done]. unfold flush. cbn [st_machine]. rewrite Hm.
  by destruct manual_pooling.
Qed.

(** A sequence with more tokens than the batch has slots overruns it,
    whatever is in the batch. *)
Lemma assemble_step_overrun (api : llama_api) (manual_pooling : bool) (n_batch n_embd : Z)
    (st : loop_state api) (inp : list Z) :
  Z.of_nat (length inp) > n_batch →
  st_machine (assemble_step api manual_pooling n_batch n_embd st inp) = None.
Proof.
  intros Hlong. unfold assemble_step. cbn [st_machine].
  rewrite decide_False; [done|]. unfold batch_fits, n_tokens.
  rewrite batch_add_seq_slots, length_app, seq_slots_length. lia.
Qed.

Lemma decode_all_overrun (api : llama_api) (manual_pooling : bool) (n_batch n_embd : Z)
    (inputs : list (list Z)) (m : machine api) :
  Exists (λ inp, Z.of_nat (length inp) > n_batch) inputs →
  st_machine (decode_all api manual_pooling n_batch n_embd inputs m) = None.
Proof.
  intros (inp & Hin & Hlong)%Exists_exists.
  apply list_elem_of_split in Hin as (before & after & ->).
  unfold decode_all, final_batch. cbn [st_machine].
  rewrite (assemble_app _ _ _ _ before (inp :: after)).
  change (assemble api manual_pooling n_batch n_embd (inp :: after) ?st)
    with (assemble api manual_pooling n_batch n_embd after
            (assemble_step api manual_pooling n_batch n_embd st inp)).
  rewrite assemble_undefined; [done|]. by apply assemble_step_overrun.
Qed.

Lemma add_sep_length (api : llama_api) (inp : list Z) :
  (length inp ≤ length (add_sep api inp) ≤ length inp + 1)%nat.
Proof. unfold add_sep. case_decide; [rewrite length_app; simpl|]; lia. Qed.

(** X6. The comment "clamp to n_batch tokens" of the assembly loop has no
    code: a sequence is never cut down to the capacity.  When every line
    passes the length check and the sequence of one of them has, after the
    separator step, more tokens than [n_batch] (a line of exactly [n_batch]
    tokens that does not end with the separator), [batch_add_seq] fills more
    slots than the batch of [llama_batch_init (n_batch, 0, 1)] has: the run
    leaves the defined behaviour, with no embeddings and no output that
    could be relied on. *)
Theorem full_line_overruns_batch (api : llama_api) (params : gpt_params)
    (ctx : llama_context api)
    (Hctx : n_ctx params ≤ n_batch params)
    (Hpass : Forall (λ prompt, Z.of_nat (length (llama_tokenize api ctx prompt))
                               ≤ to_u64 (n_batch params))
               (split_lines (prompt params)))
    (Hover : Exists (λ prompt,
                Z.of_nat (length (add_sep api (llama_tokenize api ctx prompt)))
                > to_u64 (n_batch params))
               (split_lines (prompt params))) :
  let r := main api params ctx in
  exit_status r = Undefined ∧ embeddings r = None ∧ sink r = None ∧
  Exists (λ prompt,
            Z.of_nat (length (llama_tokenize api ctx prompt)) = to_u64 (n_batch params) ∧
            last (llama_tokenize api ctx prompt) ≠ Some (llama_token_sep api))
    (split_lines (prompt params)).
Proof.
  intros r.
  assert (Hnone : st_machine
            (decode_all api (manual_pooling params) (to_u64 (n_batch params))
               (llama_n_embd api)
               (map (add_sep api) (map (llama_tokenize api ctx) (split_lines (prompt params))))
               (Some (ctx, replicate
                        (Z.to_nat (Z.of_nat (length (split_lines (prompt params)))
                                   * llama_n_embd api)) F32.zero))) = None).
  { apply decode_all_overrun. rewrite map_map.
    apply Exists_exists in Hover as (prompt & Hin & Hlong).
    apply Exists_exists. exists (add_sep api (llama_tokenize api ctx prompt)).
    split; [|done]. apply list_elem_of_fmap. by exists prompt. }
  unfold r, main. rewrite decide_False by lia.
  rewrite tokenize_prompts_Some by done. cbn [app exit_status embeddings sink].
  rewrite Hnone. split_and!; [done..|].
  apply Exists_exists in Hover as (prompt & Hin & Hlong).
  apply Exists_exists. exists prompt. split; [done|].
  rewrite Forall_forall in Hpass. specialize (Hpass prompt Hin). cbn beta in Hpass.
  unfold add_sep in Hlong. case_decide as Hsep; [|lia].
  rewrite length_app in Hlong. cbn [length] in Hlong. split; [lia|].
  destruct Hsep as [Hnil|Hlast]; [|done]. by rewrite Hnil.
Qed.

(** The line "ab" with a capacity of two: three tokens for two slots. *)
Lemma full_line_overruns_batch_witness :
  let r := main (toy_api true true) (toy_params 2 "ab" false "") [] in
  exit_status r = Undefined ∧ embeddings r = None ∧ sink r = None.
Proof.
  destruct (full_line_overruns_batch (toy_api true true) (toy_params 2 "ab" false "") [])
    as (Hstatus & Hemb & Hsink & _).
  - simpl. lia.
  - repeat constructor. vm_compute. discriminate.
  - apply Exists_cons_hd. vm_compute. reflexivity.
  - by split_and!.
Defined.

(** ** What the extractors leave alone *)

Lemma write_range_frame (m m' vs : list F32.float) (off : Z) :
  write_range m off vs = Some m' →
  ∀ k, ¬ (off ≤ k < off + Z.of_nat (length vs)) → load m' k = load m k.
Proof.
  unfold write_range. case_decide as Hin; [|done]. intros [= <-] k Hk.
  unfold load. case_decide; [|done].
  destruct (decide (k < off)).
  - apply list_lookup_inserts_lt. lia.
  - apply list_lookup_inserts_ge. lia.
Qed.

Lemma read_range_length (m vs : list F32.float) (off n : Z) :
  read_range m off n = Some vs → Z.of_nat (length vs) = n.
Proof.
  unfold read_range. case_decide as Hin; [|done]. intros [= <-].
  unfold region. rewrite length_take, length_drop. lia.
Qed.

Lemma llama_embd_normalize_frame (inp out_buf buf : list F32.float) (out n : Z) :
  llama_embd_normalize inp out_buf out n = Some buf →
  ∀ k, ¬ (out ≤ k < out + n) → load buf k = load out_buf k.
Proof.
  unfold llama_embd_normalize. intros (v & Hv & Hw)%bind_Some k Hk.
  apply read_range_length in Hv.
  apply (write_range_frame _ _ _ _ Hw). rewrite normalize_length. lia.
Qed.

Lemma batch_decode_token_frame (api : llama_api) (ctx : llama_context api)
    (batch : llama_batch) (output n_embd : Z) (i : nat) (buf buf' : list F32.float) :
  batch_decode_token api ctx batch output n_embd i buf = Some buf' →
  buf' = buf ∨
  ∃ sl, batch !! i = Some sl ∧ logits sl = true ∧
    ∀ k, ¬ (output + seq_id sl * n_embd ≤ k < output + seq_id sl * n_embd + n_embd) →
      load buf' k = load buf k.
Proof.
  unfold batch_decode_token. intros (sl & Hsl & Hstep)%bind_Some.
  destruct (logits sl) eqn:Hlogits; simpl in Hstep; [|left; by injection Hstep as <-].
  destruct (llama_get_embeddings_seq api ctx (seq_id sl)).
  { right. exists sl. split_and!; [done..|]. by eapply llama_embd_normalize_frame. }
  destruct (llama_get_embeddings_ith api ctx (Z.of_nat i)).
  { right. exists sl. split_and!; [done..|]. by eapply llama_embd_normalize_frame. }
  left. by injection Hstep as <-.
Qed.

Lemma batch_decode_writes_only (api : llama_api) (ctx ctx' : llama_context api)
    (batch : llama_batch) (out_buf buf : list F32.float) (output n_seq n_embd : Z) :
  batch_decode api ctx batch out_buf output n_seq n_embd = Some (ctx', buf) →
  ∀ k, (∀ i sl, batch !! i = Some sl → logits sl = true →
          ¬ (output + seq_id sl * n_embd ≤ k < output + seq_id sl * n_embd + n_embd)) →
       load buf k = load out_buf k.
Proof.
  unfold batch_decode. intros (b & Hrun & [= _ <-])%bind_Some k Hk. revert Hrun.
  apply (for_upto_preserves (λ b, load b k = load out_buf k)); [|done].
  intros i t t' _ Hstep <-.
  apply batch_decode_token_frame in Hstep as [-> | (sl & Hsl & Hlogits & Hframe)]; [done|].
  apply Hframe. by apply (Hk i).
Qed.

(** X7. [batch_decode] returns the context left by [llama_decode] on the
    cleared context, whatever code [llama_decode] returns, keeps the size of
    the output buffer, and changes no float outside the regions of the
    sequence ids of the output positions of the batch: positions that are not
    output positions write nothing. *)
Theorem batch_decode_frame (api : llama_api) (ctx ctx' : llama_context api)
    (batch : llama_batch) (out_buf buf : list F32.float) (output n_seq n_embd : Z)
    (Hrun : batch_decode api ctx batch out_buf output n_seq n_embd = Some (ctx', buf)) :
  ctx' = (llama_decode api (llama_kv_cache_clear api ctx) batch).1 ∧
  length buf = length out_buf ∧
  ∀ k, (∀ i sl, batch !! i = Some sl → logits sl = true →
          ¬ (output + seq_id sl * n_embd ≤ k < output + seq_id sl * n_embd + n_embd)) →
       load buf k = load out_buf k.
Proof.
  split_and!.
  - unfold batch_decode in Hrun. by apply bind_Some in Hrun as (b & _ & [= <- _]).
  - by eapply batch_decode_length.
  - by eapply batch_decode_writes_only.
Qed.

(** A batch of two sequences for native pooling: the float before the two
    regions is left as it is. *)
Lemma batch_decode_frame_witness :
  ∃ buf,
    batch_decode (toy_api true true) [] (batch_of_group false [[97; 10]; [98; 10]])
      (replicate 5 F32.zero) 1 2 2
      = Some (batch_of_group false [[97; 10]; [98; 10]], buf) ∧
    length buf = 5%nat ∧ load buf 0 = Some F32.zero.
Proof.
  eexists. split; [reflexivity|].
  destruct (batch_decode_frame (toy_api true true) [] _
              (batch_of_group false [[97; 10]; [98; 10]]) (replicate 5 F32.zero) _ 1 2 2
              eq_refl) as (_ & Hlen & Hframe).
  split; [exact Hlen|]. rewrite Hframe; [reflexivity|].
  intros i sl Hsl _. destruct i as [|[|[|[|i]]]]; [..|done]; injection Hsl as <-; simpl; lia.
Defined.

Lemma manual_pooling_writes_only (api : llama_api) (ctx ctx' : llama_context api)
    (all_tokens : bool) (group : list (list Z)) (out_buf buf : list F32.float)
    (output n_seq n_embd : Z) :
  0 ≤ n_embd →
  batch_decode_with_manual_pooling api ctx (batch_of_group all_tokens group) out_buf
    output n_seq n_embd = Some (ctx', buf) →
  ∀ k, ¬ (output ≤ k < output + (Z.of_nat (length group) - 1) * n_embd) →
       load buf k = load out_buf k.
Proof.
  intros Hembd. unfold batch_decode_with_manual_pooling, manual_pooling_loop.
  intros (st & Hrun & [= _ <-])%bind_Some k Hk.
  apply bind_Some in Hrun as (temp & _ & Hrun). revert Hrun.
  apply (for_upto_preserves (λ st, load (pool_output st) k = load out_buf k)); [|done].
  intros i t t' _ Hstep <-.
  unfold manual_pooling_token in Hstep.
  apply bind_Some in Hstep as (sl & Hsl & Hstep).
  destruct (logits sl); simpl in Hstep; [|by injection Hstep as <-].
  destruct (llama_get_embeddings_ith api _ _); [|by injection Hstep as <-].
  apply bind_Some in Hstep as (temp' & _ & Hstep).
  destruct (negb (Z.of_nat i =? 0) && (pos sl =? 0)) eqn:Hboundary;
    [|by injection Hstep as <-].
  apply andb_true_iff in Hboundary as [Hi Hpos]. apply negb_true_iff in Hi.
  apply bind_Some in Hstep as (fresh & _ & Hstep).
  apply bind_Some in Hstep as (seq_tokens & _ & Hstep).
  apply bind_Some in Hstep as (prev & Hprev & Hstep).
  apply bind_Some in Hstep as (out & Hmean & [= <-]). simpl.
  apply (mean_pooling_frame _ _ _ _ _ _ Hmean).
  destruct i as [|i]; [done|]. simpl in Hprev. rewrite Nat.sub_0_r in Hprev.
  apply Z.eqb_eq in Hpos.
  pose proof (batch_of_group_from_next_seq group 0 all_tokens i prev sl Hprev Hsl Hpos).
  pose proof (batch_of_group_from_seq_ids group 0 all_tokens (S i) sl Hsl).
  pose proof (batch_of_group_from_seq_ids group 0 all_tokens i prev Hprev). nia.
Qed.

(** X8. Decoding a batch of whole sequences changes only the embeddings of
    these sequences: [batch_decode] writes nothing outside the [n] regions
    that follow [output], [n] being the number of sequences of the batch, and
    [batch_decode_with_manual_pooling] nothing outside the first [n - 1] of
    them.  Both keep the size of the buffer. *)
Theorem decode_touches_only_its_group (api : llama_api) (ctx ctx' : llama_context api)
    (manual all_tokens : bool) (group : list (list Z)) (out_buf buf : list F32.float)
    (output n_seq n_embd : Z)
    (Hembd : 0 ≤ n_embd)
    (Hrun : (if manual
             then batch_decode_with_manual_pooling api ctx
                    (batch_of_group all_tokens group) out_buf output n_seq n_embd
             else batch_decode api ctx
                    (batch_of_group all_tokens group) out_buf output n_seq n_embd)
            = Some (ctx', buf)) :
  let written := Z.of_nat (length group) - (if manual then 1 else 0) in
  length buf = length out_buf ∧
  ∀ k, ¬ (output ≤ k < output + written * n_embd) → load buf k = load out_buf k.
Proof.
  intros written. destruct manual.
  - split; [by eapply batch_decode_with_manual_pooling_length|].
    by eapply manual_pooling_writes_only.
  - split; [by eapply batch_decode_length|].
    intros k Hk. eapply batch_decode_writes_only; [exact Hrun|].
    intros i sl Hsl _.
    pose proof (batch_of_group_from_seq_ids group 0 all_tokens i sl Hsl).
    unfold written in Hk. nia.
Qed.

(** Two sequences decoded at offset 2 of a buffer of eight floats: the
    native extractor leaves floats 0, 1, 6 and 7, the manual one also 4
    and 5. *)
Lemma decode_touches_only_its_group_witness :
  ∃ native manual,
    batch_decode (toy_api true true) [] (batch_of_group true [[97; 10]; [98; 10]])
      (replicate 8 F32.zero) 2 2 2
      = Some (batch_of_group true [[97; 10]; [98; 10]], native) ∧
    batch_decode_with_manual_pooling (toy_api true true) []
      (batch_of_group true [[97; 10]; [98; 10]]) (replicate 8 F32.zero) 2 2 2
      = Some (batch_of_group true [[97; 10]; [98; 10]], manual) ∧
    load native 1 = Some F32.zero ∧ load native 6 = Some F32.zero ∧
    load manual 1 = Some F32.zero ∧ load manual 4 = Some F32.zero.
Proof.
  do 2 eexists. split; [reflexivity|]. split; [reflexivity|].
  destruct (decode_touches_only_its_group (toy_api true true) [] _ false true
              [[97; 10]; [98; 10]] (replicate 8 F32.zero) _ 2 2 2 ltac:(lia) eq_refl)
    as [_ Hnative].
  destruct (decode_touches_only_its_group (toy_api true true) [] _ true true
              [[97; 10]; [98; 10]] (replicate 8 F32.zero) _ 2 2 2 ltac:(lia) eq_refl)
    as [_ Hmanual].
  split_and!.
  - rewrite Hnative; [reflexivity | simpl; lia].
  - rewrite Hnative; [reflexivity | simpl; lia].
  - rewrite Hmanual; [reflexivity | simpl; lia].
  - rewrite Hmanual; [reflexivity | simpl; lia].
Defined.

(** X9. When the engine has no embedding for any sequence or position of the
    decoded batch, as after a decode that failed, both extractors return with
    the output buffer exactly as it was. *)
Theorem no_embeddings_no_writes (api : llama_api) (ctx : llama_context api)
    (batch : llama_batch) (out_buf : list F32.float) (output n_seq n_embd : Z)
    (Hembd : 0 ≤ n_embd)
    (Hseq : ∀ q, llama_get_embeddings_seq api (decoded api ctx batch) q = None)
    (Hith : ∀ i, llama_get_embeddings_ith api (decoded api ctx batch) i = None) :
  batch_decode api ctx batch out_buf output n_seq n_embd
    = Some (decoded api ctx batch, out_buf) ∧
  batch_decode_with_manual_pooling api ctx batch out_buf output n_seq n_embd
    = Some (decoded api ctx batch, out_buf).
Proof.
  split.
  - unfold batch_decode. fold (decoded api ctx batch).
    destruct (for_upto_invariant (λ _ b, b = out_buf) (length batch)
                (batch_decode_token api (decoded api ctx batch) batch output n_embd) out_buf)
      as (b & -> & ->); [done| |done].
    intros i t Hi ->. exists out_buf. split; [|done].
    destruct (lookup_lt_is_Some_2 batch i Hi) as [sl Hsl].
    unfold batch_decode_token. rewrite Hsl. simpl.
    destruct (logits sl); simpl; [|done]. by rewrite Hseq, Hith.
  - unfold batch_decode_with_manual_pooling, manual_pooling_loop.
    fold (decoded api ctx batch). unfold malloc.
    rewrite decide_False by (unfold n_tokens; nia). simpl.
    destruct (for_upto_invariant (λ _ st, pool_output st = out_buf) (length batch)
                (manual_pooling_token api (decoded api ctx batch) batch output n_embd)
                (PoolState (replicate (Z.to_nat (n_tokens batch * n_embd)) (indeterminate api))
                   out_buf 0))
      as (st & -> & <-); [done| |done].
    intros i t Hi <-. exists t. split; [|done].
    destruct (lookup_lt_is_Some_2 batch i Hi) as [sl Hsl].
    unfold manual_pooling_token. rewrite Hsl. simpl.
    destruct (logits sl); simpl; [|done]. by rewrite Hith.
Qed.

(** Two sequences and the engine whose decode fails. *)
Lemma no_embeddings_no_writes_witness :
  batch_decode failing_api () (batch_of_group false [[97; 10]; [98; 10]])
    (replicate 4 F32.zero) 0 2 2 = Some ((), replicate 4 F32.zero) ∧
  batch_decode_with_manual_pooling failing_api () (batch_of_group true [[97; 10]; [98; 10]])
    (replicate 4 F32.zero) 0 2 2 = Some ((), replicate 4 F32.zero).
Proof.
  split.
  - by apply (no_embeddings_no_writes failing_api () (batch_of_group false [[97; 10]; [98; 10]])
                (replicate 4 F32.zero) 0 2 2).
  - by apply (no_embeddings_no_writes failing_api () (batch_of_group true [[97; 10]; [98; 10]])
                (replicate 4 F32.zero) 0 2 2).
Defined.

(** ** Manual pooling of the sequences of a batch *)

Lemma region_length (m : list F32.float) (off len : Z) :
  0 ≤ off → 0 ≤ len → off + len ≤ Z.of_nat (length m) →
  Z.of_nat (length (region m off len)) = len.
Proof. intros. unfold region. rewrite length_take, length_drop. lia. Qed.

Lemma memcpy_copies (dst src : list F32.float) (d s n : Z) :
  0 ≤ n → 0 ≤ s → s + n ≤ Z.of_nat (length src) →
  0 ≤ d → d + n ≤ Z.of_nat (length dst) →
  memcpy dst d src s n = Some (list_inserts (Z.to_nat d) (region src s n) dst).
Proof.
  intros Hn Hs Hsn Hd Hdn. unfold memcpy, read_range.
  rewrite decide_True by lia. simpl. unfold write_range.
  rewrite decide_True; [done|]. rewrite region_length by lia. lia.
Qed.

Lemma list_inserts_all (vs m : list F32.float) :
  length vs = length m → list_inserts 0 vs m = vs.
Proof.
  intros Hlen. rewrite <- (app_nil_r vs) at 1. by apply list_inserts_0_l.
Qed.

Lemma region_region (m : list F32.float) (off len off' len' : Z) :
  0 ≤ off → 0 ≤ off' → 0 ≤ len' → off' + len' ≤ len →
  region (region m off len) off' len' = region m (off + off') len'.
Proof.
  intros Hoff Hoff' Hlen' Hfits. apply list_eq. intros k.
  rewrite !region_lookup. case_decide as Hk; [|done].
  rewrite decide_True by lia. f_equal. lia.
Qed.

Lemma seq_ids_monotone (batch : llama_batch) (i j : nat) (sl sl' : slot) :
  sequences_in_order batch → (i ≤ j)%nat →
  batch !! i = Some sl → batch !! j = Some sl' → seq_id sl ≤ seq_id sl'.
Proof.
  intros [_ Hnext] Hij Hi. revert sl'. induction Hij as [|j Hij IH]; intros sl' Hj.
  - rewrite Hi in Hj. by injection Hj as <-.
  - destruct (lookup_lt_is_Some_2 batch j) as [mid Hmid];
      [apply lookup_lt_Some in Hj; lia|].
    specialize (IH mid Hmid). destruct (Hnext j mid sl' Hmid Hj) as [[_ ?]|[_ ?]]; lia.
Qed.

Lemma raw_vector_length (api : llama_api) (ctx : llama_context api) (n_embd : Z) (i : nat)
    (embd : list F32.float) :
  0 ≤ n_embd →
  llama_get_embeddings_ith api ctx (Z.of_nat i) = Some embd →
  n_embd ≤ Z.of_nat (length embd) →
  raw_vector api ctx n_embd i = region embd 0 n_embd ∧
  Z.of_nat (length (raw_vector api ctx n_embd i)) = n_embd.
Proof.
  intros Hembd He Hlen. unfold raw_vector. rewrite He. simpl.
  split; [unfold region; by rewrite drop_0|]. rewrite length_take. lia.
Qed.

(** The components [c] of the vectors stored one after the other in a
    buffer. *)
Lemma column_of_vectors (m : list F32.float) (vectors : nat → list F32.float)
    (n_embd c : Z) (first n : nat) :
  0 ≤ c < n_embd →
  (∀ t, (t < n)%nat →
     region m (Z.of_nat t * n_embd) n_embd = vectors (first + t)%nat ∧
     Z.of_nat (length (vectors (first + t)%nat)) = n_embd) →
  column m n_embd c n =
  (λ v, default F32.zero (v !! Z.to_nat c)) <$> (vectors <$> seq first n).
Proof.
  intros Hc. induction n as [|n IH]; intros Hvec; [done|].
  destruct (Hvec n ltac:(lia)) as [Hregion Hlen].
  assert (Hload : load m (Z.of_nat n * n_embd + c)
                  = Some (default F32.zero (vectors (first + n)%nat !! Z.to_nat c))).
  { destruct (lookup_lt_is_Some_2 (vectors (first + n)%nat) (Z.to_nat c)) as [x Hx]; [lia|].
    rewrite Hx. simpl. rewrite <- Hregion, region_lookup in Hx.
    rewrite decide_True in Hx by lia. unfold load. rewrite decide_True by nia.
    rewrite <- Hx. f_equal. nia. }
  rewrite (column_S _ _ _ _ _ Hload), IH by (intros t Ht; apply Hvec; lia).
  by rewrite seq_S, !fmap_app.
Qed.

Lemma region_agrees (m m' : list F32.float) (off len : Z) :
  0 ≤ off →
  (∀ k, off ≤ k < off + len → load m' k = load m k) →
  region m' off len = region m off len.
Proof.
  intros Hoff Hsame. apply list_eq. intros c. rewrite !region_lookup.
  case_decide as Hc; [|done].
  specialize (Hsame (off + Z.of_nat c) ltac:(lia)). unfold load in Hsame.
  rewrite !decide_True in Hsame by lia.
  by replace (Z.to_nat (off + Z.of_nat c)) with (Z.to_nat off + c)%nat in Hsame by lia.
Qed.

Lemma mean_vector_lookup (n_embd : Z) (vs : list (list F32.float)) (c : nat) :
  mean_vector n_embd vs !! c =
  if decide (c < Z.to_nat n_embd)%nat
  then Some (F32.div (F32.sum ((λ v, default F32.zero (v !! c)) <$> vs))
               (F32.of_int (Z.of_nat (length vs))))
  else None.
Proof.
  unfold mean_vector. rewrite list_lookup_fmap. case_decide as Hc.
  - by rewrite lookup_seq_lt.
  - rewrite (proj2 (lookup_ge_None _ _)); [done|]. rewrite length_seq. lia.
Qed.

Section ManualPooling.
Variables (api : llama_api) (ctx : llama_context api) (batch : llama_batch).
Variables (out_buf : list F32.float) (output n_embd : Z).
Hypothesis Hembd : 0 ≤ n_embd.
Hypothesis Hmarked : ∀ i sl, batch !! i = Some sl → logits sl = true.
Hypothesis Horder : sequences_in_order batch.
Hypothesis Hraw : ∀ i, (i < length batch)%nat →
  ∃ embd, llama_get_embeddings_ith api ctx (Z.of_nat i) = Some embd ∧
          n_embd ≤ Z.of_nat (length embd).
Hypothesis Hregions : ∀ i sl, batch !! i = Some sl →
  0 ≤ output + seq_id sl * n_embd ∧
  output + seq_id sl * n_embd + n_embd ≤ Z.of_nat (length out_buf).

(** The mean written at the first token of a sequence is the mean of the
    raw embeddings of the sequence before. *)
Lemma mean_pooling_of_sequence (temp buf : list F32.float) (b : nat) (prev : slot) :
  batch !! b = Some prev →
  Z.of_nat (length temp) = n_tokens batch * n_embd →
  (∀ j, (j < S (S b))%nat →
     region temp (Z.of_nat j * n_embd) n_embd = raw_vector api ctx n_embd j) →
  (∀ c, 0 ≤ c < n_embd →
     load buf (output + seq_id prev * n_embd + c) =
     Some (F32.div
             (F32.sum (column (region temp ((Z.of_nat (S b) - (pos prev + 1)) * n_embd)
                                 ((pos prev + 1) * n_embd))
                         n_embd c (Z.to_nat (pos prev + 1))))
             (F32.of_int (pos prev + 1)))) →
  region buf (output + seq_id prev * n_embd) n_embd =
  mean_vector n_embd
    (raw_vector api ctx n_embd <$> seq (b - Z.to_nat (pos prev)) (S (Z.to_nat (pos prev)))).
Proof.
  intros Hprev Htemp Hvecs Hmean.
  destruct Horder as [Hpos _]. destruct (Hpos b prev Hprev) as [Hp0 Hpb].
  destruct (Hregions b prev Hprev) as [Hlo Hhi].
  pose proof (lookup_lt_Some _ _ _ Hprev) as Hb.
  apply list_eq. intros c. rewrite region_lookup, mean_vector_lookup.
  case_decide as Hc; [|done].
  specialize (Hmean (Z.of_nat c) ltac:(lia)). unfold load in Hmean.
  rewrite decide_True in Hmean by lia.
  replace (Z.to_nat (output + seq_id prev * n_embd + Z.of_nat c))
    with (Z.to_nat (output + seq_id prev * n_embd) + c)%nat in Hmean by lia.
  rewrite Hmean. do 2 f_equal.
  - replace (Z.to_nat (pos prev + 1)) with (S (Z.to_nat (pos prev))) by lia.
    rewrite (column_of_vectors _ (raw_vector api ctx n_embd) n_embd (Z.of_nat c)
               (b - Z.to_nat (pos prev))).
    + by rewrite Nat2Z.id.
    + lia.
    + intros t Ht. split.
      * assert (Ht' : Z.of_nat t ≤ pos prev) by lia.
        rewrite region_region;
          [|apply Z.mul_nonneg_nonneg; lia|apply Z.mul_nonneg_nonneg; lia|lia|nia].
        rewrite <- Hvecs by lia. f_equal.
        replace (Z.of_nat (b - Z.to_nat (pos prev) + t))
          with (Z.of_nat (S b) - (pos prev + 1) + Z.of_nat t) by lia.
        ring.
      * destruct (Hraw (b - Z.to_nat (pos prev) + t)%nat) as (embd & He & Hlen); [lia|].
        by apply (raw_vector_length api ctx n_embd _ embd).
  - rewrite !length_fmap, length_seq. f_equal. lia.
Qed.

Lemma manual_pooling_token_step (i : nat) (st : pool_state) :
  (i < length batch)%nat →
  pooled_upto api ctx batch out_buf output n_embd i st →
  ∃ st', manual_pooling_token api ctx batch output n_embd i st = Some st' ∧
    pooled_upto api ctx batch out_buf output n_embd (S i) st'.
Proof.
  intros Hi (Htemp & Hvecs & Htos & Hlen & Hmeans).
  destruct (lookup_lt_is_Some_2 batch i Hi) as [sl Hsl].
  destruct (Hraw i Hi) as (embd & He & Helen).
  destruct (raw_vector_length api ctx n_embd i embd Hembd He Helen) as [Hrv Hrvlen].
  pose proof Horder as [Hpos Hnext].
  unfold n_tokens in Htemp.
  unfold manual_pooling_token. rewrite Hsl. simpl. rewrite (Hmarked i sl Hsl), He. simpl.
  rewrite memcpy_copies by nia. simpl. rewrite <- Hrv.
  set (temp := list_inserts (Z.to_nat (Z.of_nat i * n_embd)) (raw_vector api ctx n_embd i)
                 (temp_out st)).
  assert (Htemp' : Z.of_nat (length temp) = n_tokens batch * n_embd).
  { unfold temp, n_tokens. by rewrite length_inserts. }
  assert (Hvecs' : ∀ j, (j < S i)%nat →
            region temp (Z.of_nat j * n_embd) n_embd = raw_vector api ctx n_embd j).
  { intros j Hj. unfold temp. destruct (decide (j = i)) as [->|Hne].
    - pose proof (region_written (temp_out st) (raw_vector api ctx n_embd i)
                    (Z.of_nat i * n_embd)) as Hw.
      rewrite Hrvlen in Hw. apply Hw; nia.
    - rewrite region_not_written by (rewrite ?Hrvlen; nia). apply Hvecs. lia. }
  destruct (negb (Z.of_nat i =? 0) && (pos sl =? 0)) eqn:Hboundary.
  - apply andb_true_iff in Hboundary as [Hi0 Hp0]. apply negb_true_iff in Hi0.
    apply Z.eqb_eq in Hp0. destruct i as [|b]; [done|].
    destruct (lookup_lt_is_Some_2 batch b) as [prev Hprev]; [lia|].
    rewrite Hprev in Htos. simpl in Htos.
    destruct (Hpos b prev Hprev) as [Hpp0 Hppb].
    destruct (Hregions b prev Hprev) as [Hlo Hhi].
    unfold malloc. rewrite decide_False by nia. simpl.
    rewrite memcpy_copies; [|nia|nia|unfold n_tokens in Htemp'; nia|lia|
                             rewrite length_replicate; nia].
    simpl. change (Z.to_nat 0) with O.
    rewrite list_inserts_all
      by (rewrite length_replicate; apply Nat2Z.inj; rewrite region_length;
          [lia|nia|nia|unfold n_tokens in Htemp'; nia]).
    rewrite Nat.sub_0_r, Hprev. simpl. rewrite Htos.
    destruct (mean_pooling_correct
                (region temp ((Z.of_nat (S b) - (pos prev + 1)) * n_embd)
                   ((pos prev + 1) * n_embd))
                (pool_output st) (output + seq_id prev * n_embd) (pos prev + 1) n_embd)
      as (buf & -> & Hbuflen & Hmean & Hframe); [lia|lia|lia| |].
    { rewrite region_length; [lia|nia|nia|unfold n_tokens in Htemp'; nia]. }
    simpl. eexists. split; [done|]. split_and!; cbn [temp_out pool_output token_of_seq].
    + done.
    + done.
    + rewrite Hsl. simpl. lia.
    + congruence.
    + intros b' prev' sl' Hb' Hprev' Hsl' Hp0'.
      destruct (decide (b' = b)) as [->|Hne].
      * rewrite Hprev in Hprev'. injection Hprev' as <-.
        by apply (mean_pooling_of_sequence temp).
      * rewrite <- (Hmeans b' prev' sl') by (done || lia).
        destruct (Hregions b' prev' Hprev') as [Hlo' Hhi'].
        apply region_agrees; [done|]. intros k Hk. apply Hframe.
        assert (seq_id prev' < seq_id sl').
        { destruct (Hnext b' prev' sl' Hprev' Hsl') as [[_ ?]|[? _]]; [done|].
          destruct (Hpos b' prev' Hprev'). lia. }
        pose proof (seq_ids_monotone batch (S b') b sl' prev Horder ltac:(lia) Hsl' Hprev).
        nia.
  - eexists. split; [done|]. split_and!; cbn [temp_out pool_output token_of_seq].
    + done.
    + done.
    + rewrite Hsl, Htos. simpl. destruct i as [|b].
      * destruct (Hpos O sl Hsl). lia.
      * destruct (lookup_lt_is_Some_2 batch b) as [prev Hprev]; [lia|].
        rewrite Hprev. simpl.
        destruct (Hnext b prev sl Hprev Hsl) as [[Hp0 _]|[-> _]]; [|done].
        rewrite Hp0 in Hboundary. done.
    + done.
    + intros b' prev' sl' Hb' Hprev' Hsl' Hp0'.
      destruct (decide (S b' = i)) as [<-|Hne].
      * rewrite Hsl in Hsl'. injection Hsl' as <-. rewrite Hp0' in Hboundary. done.
      * apply (Hmeans b' prev' sl'); (done || lia).
Qed.

Lemma manual_pooling_loop_pooled :
  ∃ st, manual_pooling_loop api ctx batch out_buf output n_embd (length batch) = Some st ∧
    pooled_upto api ctx batch out_buf output n_embd (length batch) st.
Proof.
  unfold manual_pooling_loop, malloc.
  rewrite decide_False by (unfold n_tokens; nia). simpl.
  apply (for_upto_invariant (pooled_upto api ctx batch out_buf output n_embd)).
  - unfold pooled_upto. cbn [temp_out pool_output token_of_seq]. split_and!; try done.
    + rewrite length_replicate. unfold n_tokens. nia.
    + intros j Hj. lia.
    + intros b prev sl Hb. lia.
  - intros i st Hi Hinv. by apply manual_pooling_token_step.
Qed.
End ManualPooling.

Lemma batch_of_group_from_marked (group : list (list Z)) (sid : Z) (i : nat) (sl : slot) :
  batch_of_group_from group sid true !! i = Some sl → logits sl = true.
Proof.
  revert sid i. induction group as [|inp group IH]; intros sid i Hsl; [done|].
  cbn [batch_of_group_from] in Hsl. apply lookup_app_Some in Hsl as [Hsl | [_ Hsl]].
  - by apply seq_slots_lookup in Hsl as (_ & _ & ->).
  - by eapply IH.
Qed.

Lemma batch_of_group_from_pos (group : list (list Z)) (sid : Z) (all_tokens : bool)
    (i : nat) (sl : slot) :
  batch_of_group_from group sid all_tokens !! i = Some sl → 0 ≤ pos sl ≤ Z.of_nat i.
Proof.
  revert sid i. induction group as [|inp group IH]; intros sid i Hsl; [done|].
  cbn [batch_of_group_from] in Hsl. apply lookup_app_Some in Hsl as [Hsl | [Hlen Hsl]].
  - apply seq_slots_lookup in Hsl as (-> & _). lia.
  - apply IH in Hsl. lia.
Qed.

Lemma batch_of_group_from_consecutive (group : list (list Z)) (sid : Z) (all_tokens : bool)
    (i : nat) (prev sl : slot) :
  batch_of_group_from group sid all_tokens !! i = Some prev →
  batch_of_group_from group sid all_tokens !! S i = Some sl →
  pos sl = 0 ∧ seq_id prev < seq_id sl ∨
  pos sl = pos prev + 1 ∧ seq_id sl = seq_id prev.
Proof.
  revert sid i. induction group as [|inp group IH]; intros sid i Hprev Hsl; [done|].
  cbn [batch_of_group_from] in *.
  apply lookup_app_Some in Hsl as [Hsl | [Hlen Hsl]].
  - right. rewrite lookup_app_l in Hprev by (apply lookup_lt_Some in Hsl; lia).
    apply seq_slots_lookup in Hsl as (-> & -> & _).
    apply seq_slots_lookup in Hprev as (-> & -> & _). lia.
  - rewrite seq_slots_length in Hlen, Hsl.
    apply lookup_app_Some in Hprev as [Hprev | [Hlen' Hprev]].
    + left. pose proof (lookup_lt_Some _ _ _ Hprev) as Hi.
      rewrite seq_slots_length in Hi.
      apply seq_slots_lookup in Hprev as (_ & -> & _).
      replace (S i - length inp)%nat with O in Hsl by lia.
      pose proof (batch_of_group_from_pos _ _ _ _ _ Hsl).
      apply batch_of_group_from_seq_ids in Hsl. lia.
    + rewrite seq_slots_length in Hlen', Hprev.
      replace (S i - length inp)%nat with (S (i - length inp)) in Hsl by lia.
      by apply (IH (sid + 1) (i - length inp)%nat).
Qed.

Lemma batch_of_group_in_order (all_tokens : bool) (group : list (list Z)) :
  sequences_in_order (batch_of_group all_tokens group).
Proof.
  split.
  - intros i sl. apply batch_of_group_from_pos.
  - intros i prev sl. apply batch_of_group_from_consecutive.
Qed.

Lemma batch_of_group_from_lookup (group : list (list Z)) (sid : Z) (all_tokens : bool)
    (q k : nat) (inp : list Z) (t : Z) :
  group !! q = Some inp → inp !! k = Some t →
  batch_of_group_from group sid all_tokens !! (length (concat (take q group)) + k)%nat =
  Some (Slot t (Z.of_nat k) (sid + Z.of_nat q)
          (all_tokens || (Z.of_nat k =? Z.of_nat (length inp) - 1))).
Proof.
  revert sid q. induction group as [|x group IH]; intros sid q Hq Hk; [done|].
  cbn [batch_of_group_from]. destruct q as [|q].
  - injection Hq as ->. simpl. rewrite Z.add_0_r.
    rewrite lookup_app_l by (rewrite seq_slots_length; by apply lookup_lt_Some in Hk).
    unfold seq_slots. rewrite list_lookup_imap, Hk. done.
  - simpl in Hq. cbn [take concat]. rewrite length_app.
    rewrite lookup_app_r by (rewrite seq_slots_length; lia).
    rewrite seq_slots_length.
    replace (length x + length (concat (take q group)) + k - length x)%nat
      with (length (concat (take q group)) + k)%nat by lia.
    rewrite (IH (sid + 1) q Hq Hk). do 2 f_equal. lia.
Qed.

(** X10. On a batch of whole non-empty sequences in which every token is an
    output position and has its raw embedding, with the regions inside the
    output buffer, [batch_decode_with_manual_pooling] succeeds and writes,
    for every sequence but the last one, the mean of the raw embeddings of
    its tokens into the region of its sequence id: component by component
    the binary32 sum in token order divided by the number of tokens, not
    normalized.  Nothing else of the buffer changes; the region of the last
    sequence is among what stays. *)
Theorem manual_pooling_writes_means (api : llama_api) (ctx : llama_context api)
    (group : list (list Z)) (out_buf : list F32.float) (output n_seq n_embd : Z)
    (Hembd : 0 ≤ n_embd)
    (Hnonempty : Forall (λ inp, inp ≠ []) group)
    (Hraw : ∀ i, (i < length (batch_of_group true group))%nat →
       ∃ embd,
         llama_get_embeddings_ith api (decoded api ctx (batch_of_group true group))
           (Z.of_nat i) = Some embd ∧
         n_embd ≤ Z.of_nat (length embd))
    (Hout : 0 ≤ output)
    (Hfits : output + Z.of_nat (length group) * n_embd ≤ Z.of_nat (length out_buf)) :
  let batch := batch_of_group true group in
  ∃ buf,
    batch_decode_with_manual_pooling api ctx batch out_buf output n_seq n_embd
      = Some (decoded api ctx batch, buf) ∧
    length buf = length out_buf ∧
    (∀ q inp, group !! q = Some inp → (S q < length group)%nat →
       region buf (output + Z.of_nat q * n_embd) n_embd =
       mean_vector n_embd
         (raw_vector api (decoded api ctx batch) n_embd
            <$> seq (length (concat (take q group))) (length inp))) ∧
    (∀ k, ¬ (output ≤ k < output + (Z.of_nat (length group) - 1) * n_embd) →
       load buf k = load out_buf k).
Proof.
  intros batch.
  destruct (manual_pooling_loop_pooled api (decoded api ctx batch) batch out_buf output
              n_embd Hembd) as (st & Hrun & _ & _ & _ & Hlen & Hmeans).
  - intros i sl. apply batch_of_group_from_marked.
  - apply batch_of_group_in_order.
  - exact Hraw.
  - intros i sl Hsl. apply batch_of_group_from_seq_ids in Hsl. nia.
  - assert (Hdecode : batch_decode_with_manual_pooling api ctx batch out_buf output n_seq n_embd
                      = Some (decoded api ctx batch, pool_output st)).
    { unfold batch_decode_with_manual_pooling. fold (decoded api ctx batch).
      by rewrite Hrun. }
    exists (pool_output st). split_and!; [done..| |].
    + intros q inp Hq Hlast.
      destruct (lookup_lt_is_Some_2 group (S q) Hlast) as [next Hnext].
      pose proof (Forall_lookup_1 _ _ _ _ Hnonempty Hq) as Hinp.
      pose proof (Forall_lookup_1 _ _ _ _ Hnonempty Hnext) as Hnextne.
      destruct inp as [|t0 inp0] eqn:Einp; [done|]. rewrite <- Einp in *.
      destruct next as [|t1 next0]; [done|].
      destruct (lookup_lt_is_Some_2 inp (length inp - 1)) as [tl Hlastk];
        [rewrite Einp; simpl; lia|].
      pose proof (batch_of_group_from_lookup group 0 true q (length inp - 1) inp _
                    Hq Hlastk) as Hprev.
      pose proof (batch_of_group_from_lookup group 0 true (S q) 0 (t1 :: next0) t1
                    Hnext eq_refl) as Hsl.
      assert (Hstart : (length (concat (take (S q) group)) + 0
                        = S (length (concat (take q group)) + (length inp - 1)))%nat).
      { rewrite (take_S_r _ _ _ Hq), concat_app, length_app. simpl.
        rewrite app_nil_r. rewrite Einp. simpl. lia. }
      rewrite Hstart in Hsl.
      pose proof (lookup_lt_Some _ _ _ Hsl) as Hin.
      specialize (Hmeans _ _ _ Hin Hprev Hsl eq_refl). cbn [seq_id pos] in Hmeans.
      rewrite Z.add_0_l in Hmeans. rewrite Hmeans. do 3 f_equal.
      * rewrite Einp. simpl. lia.
      * rewrite Einp. simpl. lia.
    + by eapply manual_pooling_writes_only.
Qed.

(** The sequences "ab" and "c" with the toy engine: the region of the first
    holds the mean of (97, 0), (98, 1) and (10, 2); the region of the second
    is left. *)
Lemma manual_pooling_writes_means_witness :
  ∃ buf,
    batch_decode_with_manual_pooling (toy_api false true) []
      (batch_of_group true [[97; 98; 10]; [99; 10]]) (replicate 4 F32.zero) 0 2 2
      = Some (batch_of_group true [[97; 98; 10]; [99; 10]], buf) ∧
    region buf 0 2 =
      [F32.div (F32.sum [F32.of_int 97; F32.of_int 98; F32.of_int 10]) (F32.of_int 3);
       F32.div (F32.sum [F32.of_int 0; F32.of_int 1; F32.of_int 2]) (F32.of_int 3)] ∧
    load buf 2 = Some F32.zero ∧ load buf 3 = Some F32.zero.
Proof.
  destruct (manual_pooling_writes_means (toy_api false true) []
              [[97; 98; 10]; [99; 10]] (replicate 4 F32.zero) 0 2 2)
    as (buf & Hrun & _ & Hmeans & Hframe).
  - lia.
  - repeat constructor; discriminate.
  - intros i Hi.
    destruct i as [|[|[|[|[|i]]]]]; [..|simpl in Hi; lia];
      (eexists; split; [reflexivity|simpl; lia]).
  - lia.
  - simpl. lia.
  - exists buf. split; [exact Hrun|]. split_and!.
    + exact (Hmeans O [97; 98; 10] eq_refl ltac:(simpl; lia)).
    + rewrite Hframe; [reflexivity | simpl; lia].
    + rewrite Hframe; [reflexivity | simpl; lia].
Defined.

(** ** Runs that stay within the defined behaviour *)

Lemma batch_decode_defined (api : llama_api) (ctx : llama_context api)
    (batch : llama_batch) (out_buf : list F32.float) (output n_seq n_embd : Z) :
  0 ≤ n_embd →
  (∀ i sl, batch !! i = Some sl →
     0 ≤ output + seq_id sl * n_embd ∧
     output + seq_id sl * n_embd + n_embd ≤ Z.of_nat (length out_buf)) →
  (∀ q embd, llama_get_embeddings_seq api (decoded api ctx batch) q = Some embd →
     n_embd ≤ Z.of_nat (length embd)) →
  (∀ i embd, llama_get_embeddings_ith api (decoded api ctx batch) i = Some embd →
     n_embd ≤ Z.of_nat (length embd)) →
  ∃ buf, batch_decode api ctx batch out_buf output n_seq n_embd
           = Some (decoded api ctx batch, buf) ∧
         length buf = length out_buf.
Proof.
  intros Hembd Hregions Hseq Hith. unfold batch_decode. fold (decoded api ctx batch).
  destruct (for_upto_invariant (λ _ b, length b = length out_buf) (length batch)
              (batch_decode_token api (decoded api ctx batch) batch output n_embd) out_buf)
    as (buf & -> & Hlen); [done| |by exists buf].
  intros i b Hi Hb.
  destruct (lookup_lt_is_Some_2 batch i Hi) as [sl Hsl].
  destruct (Hregions i sl Hsl) as [Hlo Hhi].
  unfold batch_decode_token. rewrite Hsl. simpl.
  destruct (logits sl); simpl; [|by exists b].
  destruct (llama_get_embeddings_seq api _ (seq_id sl)) as [embd|] eqn:Hpooled.
  { destruct (llama_embd_normalize_writes embd b (output + seq_id sl * n_embd) n_embd)
      as [-> _]; [split; [done|by eapply Hseq]|lia|lia|].
    eexists. split; [done|]. by rewrite length_inserts. }
  destruct (llama_get_embeddings_ith api _ (Z.of_nat i)) as [embd|] eqn:Hrawi.
  { destruct (llama_embd_normalize_writes embd b (output + seq_id sl * n_embd) n_embd)
      as [-> _]; [split; [done|by eapply Hith]|lia|lia|].
    eexists. split; [done|]. by rewrite length_inserts. }
  by exists b.
Qed.

Section Run.
Variables (api : llama_api) (manual_pooling : bool) (n_batch : Z) (total : nat).
Hypothesis Hcap : 0 ≤ n_batch < 2 ^ 63.
Hypothesis Hembd : 0 ≤ llama_n_embd api.
Hypothesis Hseq : ∀ ctx q embd,
  llama_get_embeddings_seq api ctx q = Some embd →
  llama_n_embd api ≤ Z.of_nat (length embd).
Hypothesis Hith : ∀ ctx i embd,
  llama_get_embeddings_ith api ctx i = Some embd →
  llama_n_embd api ≤ Z.of_nat (length embd).
Hypothesis Hraw : manual_pooling = true →
  ∀ ctx (batch : llama_batch) i sl, batch !! i = Some sl → logits sl = true →
    is_Some (llama_get_embeddings_ith api (decoded api ctx batch) (Z.of_nat i)).

Lemma decode_group_defined (manual : bool) (ctx : llama_context api)
    (emb : list F32.float) (cur : list (list Z)) (p n_seq : Z) :
  (manual = true → manual_pooling = true) →
  0 ≤ p →
  (p + Z.of_nat (length cur)) * llama_n_embd api ≤ Z.of_nat (length emb) →
  ∃ ctx' emb',
    (if manual
     then batch_decode_with_manual_pooling api ctx (batch_of_group manual_pooling cur) emb
            (p * llama_n_embd api) n_seq (llama_n_embd api)
     else batch_decode api ctx (batch_of_group manual_pooling cur) emb
            (p * llama_n_embd api) n_seq (llama_n_embd api))
    = Some (ctx', emb') ∧
    length emb' = length emb.
Proof.
  intros Hmode Hp Hfits.
  assert (Hregions : ∀ i sl, batch_of_group manual_pooling cur !! i = Some sl →
            0 ≤ p * llama_n_embd api + seq_id sl * llama_n_embd api ∧
            p * llama_n_embd api + seq_id sl * llama_n_embd api + llama_n_embd api
              ≤ Z.of_nat (length emb)).
  { intros i sl Hsl. apply batch_of_group_from_seq_ids in Hsl. nia. }
  destruct manual.
  - rewrite (Hmode eq_refl) in *.
    destruct (manual_pooling_loop_pooled api (decoded api ctx (batch_of_group true cur))
                (batch_of_group true cur) emb (p * llama_n_embd api) (llama_n_embd api)
                Hembd) as (st & Hrun & _ & _ & _ & Hlen & _).
    + intros i sl. apply batch_of_group_from_marked.
    + apply batch_of_group_in_order.
    + intros i Hi. destruct (lookup_lt_is_Some_2 _ i Hi) as [sl Hsl].
      destruct (Hraw eq_refl ctx _ i sl Hsl (batch_of_group_from_marked _ _ _ _ Hsl))
        as [embd He].
      exists embd. split; [done|]. by eapply Hith.
    + done.
    + exists (decoded api ctx (batch_of_group true cur)), (pool_output st).
      split; [|done]. unfold batch_decode_with_manual_pooling.
      fold (decoded api ctx (batch_of_group true cur)). by rewrite Hrun.
  - destruct (batch_decode_defined api ctx (batch_of_group manual_pooling cur) emb
                (p * llama_n_embd api) n_seq (llama_n_embd api) Hembd Hregions)
      as (buf & Hrun & Hlen); [intros; by eapply Hseq|intros; by eapply Hith|].
    by exists (decoded api ctx (batch_of_group manual_pooling cur)), buf.
Qed.

Lemma assemble_step_running (k : nat) (st : loop_state api) (inp : list Z) :
  (k < total)%nat →
  Z.of_nat (length inp) ≤ n_batch →
  running api manual_pooling n_batch (Z.to_nat (Z.of_nat total * llama_n_embd api)) k st →
  running api manual_pooling n_batch (Z.to_nat (Z.of_nat total * llama_n_embd api)) (S k)
    (assemble_step api manual_pooling n_batch (llama_n_embd api) st inp).
Proof.
  intros Hk Hinp (ctx & emb & cur & Hm & Hlen & Hb & Hfit & Hs & Hp & Hps).
  assert (Hpos : 0 ≤ group_tokens cur) by (unfold group_tokens; lia).
  unfold assemble_step. rewrite Hb, batch_of_group_n_tokens.
  rewrite add_u64_small by lia.
  destruct (decide (group_tokens cur + Z.of_nat (length inp) > n_batch)) as [Hover|Hroom].
  - destruct (decode_group_defined manual_pooling ctx emb cur (st_p st) (st_s st))
      as (ctx' & emb' & Hrun & Hlen'); [done|done|nia|].
    assert (Hbatch : batch_add_seq (llama_batch_clear (batch_of_group manual_pooling cur))
                       inp 0 manual_pooling = batch_of_group manual_pooling [inp]).
    { unfold llama_batch_clear. rewrite batch_add_seq_slots. unfold batch_of_group.
      simpl. by rewrite app_nil_r. }
    assert (Hone : group_tokens [inp] = Z.of_nat (length inp)).
    { unfold group_tokens. simpl. by rewrite app_nil_r. }
    exists ctx', emb', [inp]. cbn [flush st_machine st_batch st_s st_p].
    rewrite Hm, Hb, Hbatch. simpl.
    rewrite decide_True by (unfold batch_fits; rewrite batch_of_group_n_tokens; lia).
    split_and!.
    + destruct manual_pooling; exact Hrun.
    + congruence.
    + done.
    + lia.
    + done.
    + lia.
    + lia.
  - assert (Hbatch : batch_add_seq (batch_of_group manual_pooling cur) inp (st_s st)
                       manual_pooling = batch_of_group manual_pooling (cur ++ [inp])).
    { rewrite Hs, batch_add_seq_slots. unfold batch_of_group.
      by rewrite batch_of_group_from_snoc. }
    exists ctx, emb, (cur ++ [inp]). cbn [st_machine st_batch st_s st_p].
    rewrite Hb, Hbatch.
    rewrite decide_True
      by (unfold batch_fits; rewrite batch_of_group_n_tokens, group_tokens_snoc; lia).
    split_and!.
    + done.
    + done.
    + done.
    + rewrite group_tokens_snoc. lia.
    + rewrite Hs, length_app. simpl. lia.
    + done.
    + lia.
Qed.

Lemma decode_all_running (inputs : list (list Z)) (ctx : llama_context api)
    (emb : list F32.float) :
  length inputs = total →
  Forall (λ inp, Z.of_nat (length inp) ≤ n_batch) inputs →
  length emb = Z.to_nat (Z.of_nat total * llama_n_embd api) →
  ∃ ctx' emb',
    st_machine (decode_all api manual_pooling n_batch (llama_n_embd api) inputs
                  (Some (ctx, emb))) = Some (ctx', emb') ∧
    length emb' = length emb.
Proof.
  intros Htotal Hall Hlen.
  assert (Hloop : ∀ l, (length l ≤ total)%nat →
    Forall (λ inp, Z.of_nat (length inp) ≤ n_batch) l →
    running api manual_pooling n_batch (Z.to_nat (Z.of_nat total * llama_n_embd api))
      (length l)
      (assemble api manual_pooling n_batch (llama_n_embd api) l
         (LoopState [] 0 0 (Some (ctx, emb)) []))).
  { induction l as [|inp l IH] using rev_ind; intros Hl Hfit.
    - exists ctx, emb, []. split_and!; try done. unfold group_tokens. simpl. lia.
    - apply Forall_app in Hfit as [Hfit Hinp]. rewrite Forall_singleton in Hinp.
      rewrite length_app in *. simpl in *. rewrite assemble_snoc.
      replace (length l + 1)%nat with (S (length l)) by lia.
      apply assemble_step_running; [lia|done|]. apply IH; [lia|done]. }
  destruct (Hloop inputs ltac:(lia) Hall)
    as (ctx1 & emb1 & cur & Hm & Hlen1 & Hb & _ & Hs & Hp & Hps).
  unfold decode_all, final_batch. cbn [st_machine]. rewrite Hm, Hb. simpl.
  destruct (decode_group_defined false ctx1 emb1 cur
              (st_p (assemble api manual_pooling n_batch (llama_n_embd api) inputs
                       (LoopState [] 0 0 (Some (ctx, emb)) [])))
              (st_s (assemble api manual_pooling n_batch (llama_n_embd api) inputs
                       (LoopState [] 0 0 (Some (ctx, emb)) []))))
    as (ctx' & emb' & Hrun & Hlen'); [done|done|nia|].
  exists ctx', emb'. split; [exact Hrun|congruence].
Qed.
End Run.

Lemma to_u64_range (x : Z) : 0 ≤ to_u64 x < 2 ^ 64.
Proof. unfold to_u64. apply Z.mod_pos_bound. lia. Qed.

(** Lines whose sequences fit the batch after the separator step pass the
    length check. *)
Lemma fitting_lines_pass (api : llama_api) (ctx : llama_context api) (n_batch : Z)
    (lines : list string) :
  Forall (λ prompt, Z.of_nat (length (add_sep api (llama_tokenize api ctx prompt)))
                    ≤ n_batch) lines →
  Forall (λ prompt, Z.of_nat (length (llama_tokenize api ctx prompt)) ≤ n_batch) lines ∧
  Forall (λ inp, Z.of_nat (length inp) ≤ n_batch)
    (map (add_sep api) (map (llama_tokenize api ctx) lines)).
Proof.
  intros Hfit. split.
  - eapply Forall_impl; [exact Hfit|]. intros prompt Hlen. cbn beta in Hlen.
    pose proof (add_sep_length api (llama_tokenize api ctx prompt)). lia.
  - rewrite map_map. by apply Forall_map.
Qed.

(** X11. With an engine whose embeddings hold [n_embd] floats and, for
    manual pooling, with the raw embedding of every output position there, a
    run in which the sequence of every line has, after the separator step, at
    most [n_batch] tokens, and whose sizes and offsets are in the range of
    [int], never leaves the defined behaviour: the batch is never filled
    beyond its [n_batch] slots and no extractor reads or writes outside a
    buffer.  The run returns 0 with a buffer of [n_prompts * n_embd] floats
    and its output written or printed. *)
Theorem run_stays_defined (api : llama_api) (params : gpt_params) (ctx : llama_context api)
    (Hembd : 0 ≤ llama_n_embd api)
    (Hseq : ∀ ctx q embd, llama_get_embeddings_seq api ctx q = Some embd →
       llama_n_embd api ≤ Z.of_nat (length embd))
    (Hith : ∀ ctx i embd, llama_get_embeddings_ith api ctx i = Some embd →
       llama_n_embd api ≤ Z.of_nat (length embd))
    (Hraw : manual_pooling params = true →
       ∀ ctx (batch : llama_batch) i sl, batch !! i = Some sl → logits sl = true →
         is_Some (llama_get_embeddings_ith api (decoded api ctx batch) (Z.of_nat i)))
    (Hctx : n_ctx params ≤ n_batch params)
    (Hcap : to_u64 (n_batch params) < 2 ^ 31)
    (Hfit : Forall (λ prompt,
               Z.of_nat (length (add_sep api (llama_tokenize api ctx prompt)))
               ≤ to_u64 (n_batch params))
              (split_lines (prompt params)))
    (Hint : Z.of_nat (length (split_lines (prompt params))) < 2 ^ 31 ∧
            Z.of_nat (length (split_lines (prompt params))) * llama_n_embd api < 2 ^ 31 ∧
            to_u64 (n_batch params) * llama_n_embd api < 2 ^ 31) :
  ∃ emb,
    embeddings (main api params ctx) = Some emb ∧
    Z.of_nat (length emb)
      = Z.of_nat (length (split_lines (prompt params))) * llama_n_embd api ∧
    exit_status (main api params ctx) = Returned 0 ∧
    is_Some (sink (main api params ctx)).
Proof.
  destruct (fitting_lines_pass api ctx _ _ Hfit) as [Hpass Hall].
  pose proof (to_u64_range (n_batch params)) as Hrange.
  unfold main. rewrite decide_False by lia.
  rewrite tokenize_prompts_Some by done. cbn [app embeddings exit_status sink].
  set (total := length (split_lines (prompt params))).
  set (inputs := map (add_sep api) (map (llama_tokenize api ctx) (split_lines (prompt params))))
    in *.
  destruct (decode_all_running api (manual_pooling params) (to_u64 (n_batch params)) total
              ltac:(lia) Hembd Hseq Hith Hraw inputs ctx
              (replicate (Z.to_nat (Z.of_nat total * llama_n_embd api)) F32.zero))
    as (ctx' & emb & -> & Hlen).
  - unfold inputs, total. by rewrite !length_map.
  - done.
  - by rewrite length_replicate.
  - rewrite length_replicate in Hlen.
    exists emb. cbn [fmap option_fmap option_map snd mbind option_bind].
    assert (Hsize : Z.of_nat (length emb) = Z.of_nat total * llama_n_embd api) by nia.
    rewrite output_sink_spec by (done || lia). split_and!; [done..|by eexists].
Qed.

(** Three lines with manual pooling and the toy engine. *)
Lemma run_stays_defined_witness :
  ∃ emb,
    embeddings (main (toy_api false true) (toy_params 8 "ab
cde
fghij" true "") []) = Some emb ∧
    length emb = 6%nat.
Proof.
  destruct (run_stays_defined (toy_api false true) (toy_params 8 "ab
cde
fghij" true "") []) as (emb & Hrun & Hlen & _).
  - simpl. lia.
  - intros c q embd Hq. simpl in Hq. discriminate.
  - intros c i embd Hi. simpl in Hi.
    destruct (decide (0 ≤ i)); [|done].
    apply bind_Some in Hi as (sl & _ & Hi).
    destruct (logits sl); [|done]. injection Hi as <-. simpl. lia.
  - intros _ c batch i sl Hsl Hlogits. simpl.
    rewrite decide_True by lia. rewrite Nat2Z.id.
    change (decoded (toy_api false true) c batch) with batch.
    rewrite Hsl. simpl. rewrite Hlogits. by eexists.
  - simpl. lia.
  - vm_compute. reflexivity.
  - repeat constructor; vm_compute; discriminate.
  - vm_compute. by split_and!.
  - exists emb. split; [exact Hrun|]. simpl in Hlen. lia.
Defined.

(** ** The outcome of a run *)

Lemma decode_all_tokens (api : llama_api) (manual_pooling : bool) (n_batch n_embd : Z)
    (inputs : list (list Z)) (m : machine api) :
  token <$> concat (call_batch <$>
                      st_calls (decode_all api manual_pooling n_batch n_embd inputs m))
  = concat inputs.
Proof.
  destruct (assemble_grouped api manual_pooling n_batch n_embd inputs m)
    as (gs & cur & Hin & Hbatches & _ & _ & _ & Hb & _ & _).
  set (st := assemble api manual_pooling n_batch n_embd inputs (LoopState [] 0 0 m [])) in *.
  assert (Hgroups : call_batch <$> st_calls (decode_all api manual_pooling n_batch n_embd inputs m)
                    = batch_of_group manual_pooling <$> (gs ++ [cur])).
  { unfold decode_all, final_batch. fold st. cbn [st_calls].
    rewrite !fmap_app, Hbatches. simpl. by rewrite Hb. }
  rewrite Hgroups, batches_tokens, concat_app. simpl. by rewrite app_nil_r, Hin.
Qed.

(** X13. In a run in which every line has, after the separator step, at
    most [n_batch] tokens, the tokens handed to the engine, batch after
    batch, are the tokens of the lines in their order, each line followed by
    the separator unless its tokens end with it; every sequence ends with the
    separator and has at least one token. *)
Theorem decoded_tokens_are_the_lines (api : llama_api) (params : gpt_params)
    (ctx : llama_context api)
    (Hctx : n_ctx params ≤ n_batch params)
    (Hfit : Forall (λ prompt,
               Z.of_nat (length (add_sep api (llama_tokenize api ctx prompt)))
               ≤ to_u64 (n_batch params))
              (split_lines (prompt params))) :
  let inputs :=
    (λ prompt, add_sep api (llama_tokenize api ctx prompt)) <$> split_lines (prompt params) in
  token <$> concat (call_batch <$> calls (main api params ctx)) = concat inputs ∧
  Forall (λ inp, 1 ≤ Z.of_nat (length inp) ≤ to_u64 (n_batch params) ∧
                 last inp = Some (llama_token_sep api)) inputs.
Proof.
  destruct (fitting_lines_pass api ctx _ _ Hfit) as [Hpass _].
  intros inputs. split.
  - unfold main. rewrite decide_False by lia.
    rewrite tokenize_prompts_Some by done. cbn [app calls].
    rewrite decode_all_tokens. unfold inputs. by rewrite map_map.
  - unfold inputs. apply Forall_fmap. eapply Forall_impl; [exact Hfit|].
    intros prompt Hlen. cbn beta in Hlen. unfold compose.
    pose proof (add_sep_last api (llama_tokenize api ctx prompt)) as Hlast.
    split_and!; [|done..].
    destruct (add_sep api (llama_tokenize api ctx prompt)); [done|]. cbn [length]. lia.
Qed.

(** Two lines with the toy engine. *)
Lemma decoded_tokens_are_the_lines_witness :
  token <$> concat (call_batch <$> calls (main (toy_api true true) (toy_params 4 "ab
c" false "") []))
  = [97; 98; 10; 99; 10].
Proof.
  destruct (decoded_tokens_are_the_lines (toy_api true true) (toy_params 4 "ab
c" false "") []) as [Htokens _].
  - simpl. lia.
  - repeat constructor; vm_compute; discriminate.
  - exact Htokens.
Defined.

(** X14. With an empty prompt there is no line and no sequence, and the run
    still hands one batch to the engine, the empty one; it returns 0 with an
    empty buffer, which it writes as an empty file or prints as no vector. *)
Theorem empty_prompt_run (api : llama_api) (params : gpt_params) (ctx : llama_context api)
    (Hprompt : prompt params = EmptyString)
    (Hctx : n_ctx params ≤ n_batch params) :
  let r := main api params ctx in
  calls r = [Call_batch_decode [] 0 0] ∧
  embeddings r = Some [] ∧
  exit_status r = Returned 0 ∧
  sink r = Some (if decide (logits_file params = EmptyString) then [Printed []]
                 else if fopen api (logits_file params)
                      then [FileWritten (logits_file params) []]
                 else []).
Proof.
  assert (Hlines : split_lines (prompt params) = []) by (by rewrite Hprompt).
  unfold main. rewrite Hlines, decide_False by lia.
  cbn [tokenize_prompts map length].
  unfold decode_all, final_batch, assemble, batch_decode.
  cbn [foldl st_calls st_machine st_batch st_p st_s app length for_upto mbind option_bind
       calls embeddings exit_status sink fmap option_fmap option_map snd].
  change (replicate (Z.to_nat (Z.of_nat 0 * llama_n_embd api)) F32.zero)
    with (@nil F32.float).
  assert (Hsink : output_sink api (logits_file params) [] (Z.of_nat 0) (llama_n_embd api)
                  = Some (if decide (logits_file params = EmptyString) then [Printed []]
                          else if fopen api (logits_file params)
                               then [FileWritten (logits_file params) []]
                          else [])).
  { unfold output_sink. rewrite Z.mul_0_l.
    destruct (decide (logits_file params = EmptyString)) as [Hnone|Hfile].
    - by rewrite decide_False by (by intros []).
    - rewrite decide_True by done. by destruct (fopen api (logits_file params)). }
  rewrite Hsink. by split_and!.
Qed.

(** The empty prompt with the toy engine and a file that opens. *)
Lemma empty_prompt_run_witness :
  let r := main (toy_api true true) (toy_params 8 "" true "out.bin") [] in
  calls r = [Call_batch_decode [] 0 0] ∧
  sink r = Some [FileWritten "out.bin" []].
Proof.
  destruct (empty_prompt_run (toy_api true true) (toy_params 8 "" true "out.bin") [])
    as (Hcalls & _ & _ & Hsink); [reflexivity|simpl; lia|].
  split; [exact Hcalls|exact Hsink].
Defined.

(** ** Several output positions for one sequence *)

(** X15. When several output positions of a batch belong to one sequence, as
    in the final batch of a run with manual pooling, [batch_decode] writes
    the region of the sequence once for each of them, and what stays is the
    vector of the last one: the normalized pooled embedding of the sequence
    or, without it, the normalized raw embedding of that position. *)
Theorem batch_decode_last_position_wins (api : llama_api) (ctx : llama_context api)
    (batch : llama_batch) (out_buf : list F32.float) (output n_seq n_embd : Z)
    (i : nat) (sl : slot) (v : list F32.float)
    (Hembd : 0 ≤ n_embd)
    (Hregions : ∀ j sl', batch !! j = Some sl' →
       0 ≤ output + seq_id sl' * n_embd ∧
       output + seq_id sl' * n_embd + n_embd ≤ Z.of_nat (length out_buf))
    (Hseq : ∀ q embd, llama_get_embeddings_seq api (decoded api ctx batch) q = Some embd →
       n_embd ≤ Z.of_nat (length embd))
    (Hith : ∀ j embd, llama_get_embeddings_ith api (decoded api ctx batch) j = Some embd →
       n_embd ≤ Z.of_nat (length embd))
    (Hsl : batch !! i = Some sl) (Hlogits : logits sl = true)
    (Hvector : native_vector api (decoded api ctx batch) n_embd i sl = Some v)
    (Hlast : ∀ j sl', (i < j)%nat → batch !! j = Some sl' → logits sl' = true →
       seq_id sl' ≠ seq_id sl) :
  ∃ buf,
    batch_decode api ctx batch out_buf output n_seq n_embd
      = Some (decoded api ctx batch, buf) ∧
    region buf (output + seq_id sl * n_embd) n_embd = v.
Proof.
  unfold batch_decode. fold (decoded api ctx batch).
  destruct (Hregions i sl Hsl) as [Hlo Hhi].
  destruct (for_upto_invariant
              (λ n b, length b = length out_buf ∧
                 ((i < n)%nat → region b (output + seq_id sl * n_embd) n_embd = v))
              (length batch)
              (batch_decode_token api (decoded api ctx batch) batch output n_embd) out_buf)
    as (buf & -> & _ & Hregion).
  - split; [done|lia].
  - intros j b Hj [Hlen Hdone].
    destruct (lookup_lt_is_Some_2 batch j Hj) as [sl' Hsl'].
    destruct (Hregions j sl' Hsl') as [Hlo' Hhi'].
    assert (Hskip : (i = j → False) → ∃ b', Some b = Some b' ∧ length b' = length out_buf ∧
              ((i < S j)%nat → region b' (output + seq_id sl * n_embd) n_embd = v)).
    { intros Hne. exists b. split_and!; [done..|]. intros ?. apply Hdone. lia. }
    assert (Hwrite : ∀ embd, n_embd ≤ Z.of_nat (length embd) → logits sl' = true →
              native_vector api (decoded api ctx batch) n_embd j sl'
                = Some (normalize (take (Z.to_nat n_embd) embd)) →
              ∃ b', llama_embd_normalize embd b (output + seq_id sl' * n_embd) n_embd
                      = Some b' ∧ length b' = length out_buf ∧
                ((i < S j)%nat → region b' (output + seq_id sl * n_embd) n_embd = v)).
    { intros embd Hfull Hmarked Hvec.
      destruct (llama_embd_normalize_writes embd b (output + seq_id sl' * n_embd) n_embd)
        as [-> Hvlen]; [lia..|].
      eexists. split_and!; [done|by rewrite length_inserts|]. intros Hij.
      destruct (decide (j = i)) as [->|Hne].
      - rewrite Hsl in Hsl'. injection Hsl' as <-.
        rewrite Hvector in Hvec. injection Hvec as ->.
        pose proof (region_written b (normalize (take (Z.to_nat n_embd) embd))
                      (output + seq_id sl * n_embd) Hlo) as Hw.
        rewrite Hvlen in Hw. apply Hw. lia.
      - assert (seq_id sl' ≠ seq_id sl) by (apply (Hlast j); [lia|done..]).
        rewrite region_not_written by (rewrite ?Hvlen; nia). apply Hdone. lia. }
    unfold batch_decode_token. rewrite Hsl'. simpl.
    destruct (logits sl') eqn:Hmarked; simpl.
    2: { apply Hskip. intros ->. congruence. }
    unfold native_vector in Hwrite.
    destruct (llama_get_embeddings_seq api _ (seq_id sl')) as [embd|] eqn:Hpooled.
    { apply Hwrite; [by eapply Hseq|done..]. }
    destruct (llama_get_embeddings_ith api _ (Z.of_nat j)) as [embd|] eqn:Hrawj.
    { apply Hwrite; [by eapply Hith|done..]. }
    apply Hskip. intros ->. rewrite Hsl in Hsl'. injection Hsl' as <-.
    unfold native_vector in Hvector. by rewrite Hpooled, Hrawj in Hvector.
  - exists buf. split; [done|]. apply Hregion. by apply lookup_lt_Some in Hsl.
Qed.

(** The sequence "ab" with every token an output position and no pooled
    embedding: the region holds the normalized raw embedding (10, 2) of the
    last token. *)
Lemma batch_decode_last_position_wins_witness :
  ∃ buf,
    batch_decode (toy_api false true) [] (batch_of_group true [[97; 98; 10]])
      (replicate 2 F32.zero) 0 1 2
      = Some (batch_of_group true [[97; 98; 10]], buf) ∧
    region buf 0 2 = normalize [F32.of_int 10; F32.of_int 2].
Proof.
  apply (batch_decode_last_position_wins (toy_api false true) []
           (batch_of_group true [[97; 98; 10]]) (replicate 2 F32.zero) 0 1 2
           2%nat (Slot 10 2 0 true)).
  - lia.
  - intros j sl' Hsl'.
    destruct j as [|[|[|j]]]; [..|done]; injection Hsl' as <-; simpl; lia.
  - intros q embd Hq. simpl in Hq. discriminate.
  - intros j embd Hj. simpl in Hj.
    destruct (decide (0 ≤ j)); [|done].
    apply bind_Some in Hj as (sl' & _ & Hj).
    destruct (logits sl'); [|done]. injection Hj as <-. simpl. lia.
  - reflexivity.
  - reflexivity.
  - reflexivity.
  - intros j sl' Hj Hsl'. destruct j as [|[|[|j]]]; (lia || done).
Defined.

(** ** A whole run with native pooling *)


Section NativeRun.
Variables (api : llama_api) (ctx0 : llama_context api) (n_batch : Z) (total : nat).
Hypothesis Hcap : 0 ≤ n_batch < 2 ^ 63.
Hypothesis Hembd : 0 ≤ llama_n_embd api.
Hypothesis Hseq : ∀ ctx q embd,
  llama_get_embeddings_seq api ctx q = Some embd →
  llama_n_embd api ≤ Z.of_nat (length embd).
Hypothesis Hith : ∀ ctx i embd,
  llama_get_embeddings_ith api ctx i = Some embd →
  llama_n_embd api ≤ Z.of_nat (length embd).



End NativeRun.


